(** * Verification of the text-normalization orchestrator

    A shallow embedding of
    [indic_text_normalization/text_normalization/normalize.py]
    (class [Normalizer]) and of the pre-classification rewrite rule of
    [indic_text_normalization/hi/taggers/tokenize_and_classify.py],
    together with the properties the specification states about them;
    then of [normalize_list], of the other rewrites in front of the
    classifier graph and of the test runner [tests/run_tests.py], with
    further properties of the code. *)

From Stdlib Require Import String Ascii.
From Stdlib Require Import List ZArith NArith Lia Bool Permutation.
From Stdlib Require Import QArith.
Import ListNotations.

Set Implicit Arguments.

Local Open Scope Z_scope.

(* ================================================================== *)
(** ** Strings

    A Python [str] is a sequence of Unicode code points. *)

Definition str := list N.

(** An ASCII literal as a [str]. *)
Definition lit (s : string) : str :=
  map N_of_ascii (list_ascii_of_string s).

Fixpoint str_eqb (a b : str) : bool :=
  match a, b with
  | [], [] => true
  | x :: a', y :: b' => N.eqb x y && str_eqb a' b'
  | _, _ => false
  end.

(* ================================================================== *)
(** ** Exceptions and results *)

(** The messages of the exceptions the embedded code raises. *)
Inductive error_message : Type :=
| Unsplittable_token_group (max_number_of_permutations_per_split : Z).
    (* "Could not split token list with respect to condition that every
       split can generate number of permutations less or equal to ...
       There is an unsplittable token group ..." *)

Inductive exn : Type :=
| ValueError (msg : error_message)
| AssertionError
| FstOpError          (* pynini: [string()] of an FST with no path *)
| RewriteError        (* pynini.lib.rewrite: no rewrite of the input *)
| ParseError.         (* any exception out of the token parser *)

Inductive result (A : Type) : Type :=
| Ok (a : A)
| Raise (e : exn).

Arguments Ok {A} a.
Arguments Raise {A} e.

(* ================================================================== *)
(** ** Token trees

    [Dict[str, Union[OrderedDict, str, bool]]]: an ordered dictionary is
    the list of its items in insertion order. *)

Unset Elimination Schemes.
Inductive value : Type :=
| VStr (s : str)
| VDict (d : list (str * value))
| VBool (b : bool).
Set Elimination Schemes.

Definition odict := list (str * value).

(** Induction on the nesting of a token tree. *)
Section value_induction.
Variable P : value -> Prop.
Hypothesis HStr : forall s, P (VStr s).
Hypothesis HBool : forall b, P (VBool b).
Hypothesis HDict :
  forall d, Forall (fun kv => P (snd kv)) d -> P (VDict d).

Fixpoint value_nested_ind (v : value) : P v :=
  match v with
  | VStr s => HStr s
  | VBool b => HBool b
  | VDict d =>
      HDict
        ((fix items (l : list (str * value)) :
            Forall (fun kv => P (snd kv)) l :=
            match l with
            | [] => Forall_nil _
            | kv :: l' =>
                Forall_cons kv (value_nested_ind (snd kv)) (items l')
            end) d)
  end.
End value_induction.

Definition PRESERVE_ORDER_KEY : str := lit "preserve_order".

(** [k in d.keys()] *)
Definition has_key (k : str) (d : odict) : bool :=
  existsb (fun kv => str_eqb (fst kv) k) d.

(* ================================================================== *)
(** ** The permutation estimate *)

(** [math.factorial] *)
Fixpoint factorial (n : nat) : Z :=
  match n with
  | O => 1
  | S k => Z.of_nat (S k) * factorial k
  end.

(** [Normalizer._estimate_number_of_permutations_in_nested_dict], by
    recursion on the nesting of the dictionary.  The inner loop is the
    [for k, inner in token_group.items()] of the source, with
    [num_perms] as accumulator. *)
Fixpoint estimate_value (v : value) : Z :=
  match v with
  | VDict token_group =>
      (fix items_loop (items : list (str * value)) (num_perms : Z) : Z :=
         match items with
         | [] => num_perms
         | (_, inner) :: rest =>
             items_loop rest
               (match inner with
                | VDict _ => num_perms * estimate_value inner
                | _ => num_perms
                end)
         end) token_group 1
      * factorial (length token_group)
  | _ => 1
  end.

Definition _estimate_number_of_permutations_in_nested_dict
    (token_group : odict) : Z :=
  estimate_value (VDict token_group).

(** The loop of the estimate on its own, for the proofs. *)
Fixpoint estimate_items (items : odict) (num_perms : Z) : Z :=
  match items with
  | [] => num_perms
  | (_, inner) :: rest =>
      estimate_items rest
        (match inner with
         | VDict d => num_perms * _estimate_number_of_permutations_in_nested_dict d
         | _ => num_perms
         end)
  end.

(** The product of the estimates of the nested children of a dictionary. *)
Fixpoint children_product (items : odict) : Z :=
  match items with
  | [] => 1
  | (_, VDict d) :: rest =>
      _estimate_number_of_permutations_in_nested_dict d * children_product rest
  | _ :: rest => children_product rest
  end.

(* ================================================================== *)
(** ** Splitting a token sequence *)

(** [tokens[a:b]] for [0 <= a], [0 <= b] *)
Definition slice {A : Type} (l : list A) (a b : nat) : list A :=
  firstn (b - a) (skipn a l).

(** [tokens[a:]] *)
Definition slice_from {A : Type} (l : list A) (a : nat) : list A :=
  skipn a l.

(** The [for i, token_group in enumerate(tokens)] loop of
    [_split_tokens_to_reduce_number_of_permutations]; [rest] is what is
    left to enumerate and [i] the index of its head.  The state is
    [(splits, prev_end_of_split, current_number_of_permutations)]. *)
Fixpoint split_loop (max_perms : Z) (tokens rest : list odict) (i : nat)
    (splits : list (list odict)) (prev_end_of_split : nat)
    (current_number_of_permutations : Z)
  : result (list (list odict) * nat) :=
  match rest with
  | [] => Ok (splits, prev_end_of_split)
  | token_group :: rest' =>
      let n := _estimate_number_of_permutations_in_nested_dict token_group in
      let '(splits1, prev1, current1) :=
        if n * current_number_of_permutations >? max_perms
        then (splits ++ [slice tokens prev_end_of_split i], i, 1)
        else (splits, prev_end_of_split, current_number_of_permutations) in
      if n >? max_perms
      then Raise (ValueError (Unsplittable_token_group max_perms))
      else split_loop max_perms tokens rest' (S i) splits1 prev1 (current1 * n)
  end.

(** [sum([len(s) for s in splits])] *)
Definition sum_len {A : Type} (splits : list (list A)) : nat :=
  fold_left (fun acc s => (acc + length s)%nat) splits O.

(** [Normalizer._split_tokens_to_reduce_number_of_permutations]; the
    first argument is [self.max_number_of_permutations_per_split]. *)
Definition _split_tokens_to_reduce_number_of_permutations
    (max_perms : Z) (tokens : list odict) : result (list (list odict)) :=
  match split_loop max_perms tokens tokens 0 [] 0 1 with
  | Raise e => Raise e
  | Ok (splits, prev_end_of_split) =>
      let splits := splits ++ [slice_from tokens prev_end_of_split] in
      if Nat.eqb (sum_len splits) (length tokens)
      then Ok splits
      else Raise AssertionError
  end.

(** The product of the estimates of the tokens of a chunk. *)
Definition chunk_product (chunk : list odict) : Z :=
  fold_right
    (fun t acc => _estimate_number_of_permutations_in_nested_dict t * acc)
    1 chunk.

(** What a closed chunk satisfies. *)
Definition closed_chunk (max_perms : Z) (c : list odict) : Prop :=
  c <> [] /\ chunk_product c <= max_perms.

(** A token as the parser returns it for
    [tokens { cls { k1: "v1" k2: "v2" k3: "v3" } }]: three fields that can
    be reordered. *)
Definition three_field_token (cls k1 v1 k2 v2 k3 v3 : str) : odict :=
  [(lit "tokens",
    VDict [(cls, VDict [(k1, VStr v1); (k2, VStr v2); (k3, VStr v3)])])].

(** The two date tokens of the docstring of
    [_split_tokens_to_reduce_number_of_permutations]. *)
Definition docstring_tokens : list odict :=
  [ three_field_token (lit "date")
      (lit "year") (lit "twenty eighteen")
      (lit "month") (lit "december")
      (lit "day") (lit "thirty one");
    three_field_token (lit "date")
      (lit "year") (lit "twenty eighteen")
      (lit "month") (lit "january")
      (lit "day") (lit "eight") ].

(* ================================================================== *)
(** ** Field-order permutations and their serialization *)

(** The double quote character. *)
Definition dquote : str := [34%N].

(** Every way of taking one element out of a list, by position. *)
Fixpoint selections {A : Type} (l : list A) : list (A * list A) :=
  match l with
  | [] => []
  | x :: r => (x, r) :: map (fun yr => (fst yr, x :: snd yr)) (selections r)
  end.

(** [itertools.permutations(iterable)]: the full-length permutations, in
    lexicographic order of the positions in the input, so the input
    order itself comes first.  [n] is the length of [l]. *)
Fixpoint permutations_of_length {A : Type} (n : nat) (l : list A)
  : list (list A) :=
  match n with
  | O => [[]]
  | S n' =>
      flat_map
        (fun xr => map (cons (fst xr)) (permutations_of_length n' (snd xr)))
        (selections l)
  end.

Definition permutations {A : Type} (l : list A) : list (list A) :=
  permutations_of_length (length l) l.

(** [itertools.product] of the pools: the rightmost pool advances
    fastest. *)
Fixpoint product {A : Type} (pools : list (list A)) : list (list A) :=
  match pools with
  | [] => [[]]
  | pool :: rest => flat_map (fun x => map (cons x) (product rest)) pool
  end.

(** The strings [''.join(x)] for [x] in [itertools.product] of the
    pools. *)
Definition join_product (pools : list (list str)) : list str :=
  map (@concat N) (product pools).

(** One step of the [for k, v in perm] loop of [_permute]: [subl] is
    extended by the item [(k, v)]; [rec] is [self._permute(v)] when [v]
    is a dictionary (it is not used otherwise). *)
Definition permute_step (subl : list str) (item : str * value * list str)
  : list str :=
  let '(k, v, rec) := item in
  match v with
  | VStr s =>
      join_product [subl; [k ++ lit ": " ++ dquote ++ s ++ dquote ++ lit " "]]
  | VDict _ =>
      join_product [subl; [lit " " ++ k ++ lit " { "]; rec; [lit " } "]]
  | VBool _ =>
      join_product [subl; [k ++ lit ": true "]]
  end.

(** The body of the [for perm in d_permutations] loop: the value of
    [subl] that is appended to [l]. *)
Definition permute_one (perm : list (str * value * list str)) : list str :=
  fold_left permute_step perm [[]].

(** [Normalizer._permute], by recursion on the nesting of the
    dictionary.  The recursive call [self._permute(v)] of the source is
    made once per item before the items are permuted (the function is
    pure, so each item carries its result along); the last branch of the
    source ([raise ValueError]) is for values that are neither [str],
    [OrderedDict] nor [bool], which the type of the tokens excludes. *)
Fixpoint permute_value (v : value) : list str :=
  match v with
  | VDict d =>
      let items :=
        (fix with_rec (l : list (str * value)) : list (str * value * list str) :=
           match l with
           | [] => []
           | (k, v') :: r => (k, v', permute_value v') :: with_rec r
           end) d in
      let d_permutations :=
        if has_key PRESERVE_ORDER_KEY d then [items] else permutations items in
      flat_map permute_one d_permutations
  | _ => []
  end.

Definition _permute (d : odict) : list str := permute_value (VDict d).

(** The items of a dictionary with the serializations of their nested
    dictionaries. *)
Definition with_permutations (d : odict) : list (str * value * list str) :=
  map (fun kv => (fst kv, snd kv, permute_value (snd kv))) d.

(** [_helper] of [Normalizer.generate_permutations]; [token_list] is the
    part of the list from [idx] on.  The generator is read as the list of
    what it yields, in order. *)
Fixpoint _helper (prefix : str) (token_list : list odict) : list str :=
  match token_list with
  | [] => [prefix]
  | token :: rest =>
      flat_map (fun token_option => _helper (prefix ++ token_option) rest)
               (_permute token)
  end.

Definition generate_permutations (tokens : list odict) : list str :=
  _helper [] tokens.

(** The number of serializations of the nested children of a
    dictionary, multiplied. *)
Fixpoint children_permutations (items : odict) : nat :=
  match items with
  | [] => 1%nat
  | (_, VDict d) :: rest => (length (_permute d) * children_permutations rest)%nat
  | _ :: rest => children_permutations rest
  end.

(** A token with the flag: [tokens { cardinal { integer: "x"
    preserve_order: true } }], as a nested dictionary, and the inner
    dictionary that carries the flag. *)
Definition flagged_fields : odict :=
  [(lit "integer", VStr (lit "x")); (PRESERVE_ORDER_KEY, VBool true)].

Definition flagged_token : odict :=
  [(lit "tokens", VDict [(lit "cardinal", VDict flagged_fields)])].

(** The number of strings one item contributes to a serialization. *)
Definition item_options (item : str * value * list str) : nat :=
  match item with
  | (_, VDict _, rec) => length rec
  | _ => 1%nat
  end.

Definition options_count (perm : list (str * value * list str)) : nat :=
  fold_right (fun item acc => (item_options item * acc)%nat) 1%nat perm.

(* ================================================================== *)
(** ** String helpers of the orchestrator *)

(** [str.isspace] on one code point: the characters [str.strip()] and
    [str.split()] treat as whitespace. *)
Definition is_whitespace (c : N) : bool :=
  ((9 <=? c) && (c <=? 13) || (28 <=? c) && (c <=? 32)
   || (c =? 133) || (c =? 160) || (c =? 5760)
   || (8192 <=? c) && (c <=? 8202)
   || (c =? 8232) || (c =? 8233) || (c =? 8239) || (c =? 8287)
   || (c =? 12288))%N.

Fixpoint lstrip (s : str) : str :=
  match s with
  | [] => []
  | c :: r => if is_whitespace c then lstrip r else s
  end.

Definition rstrip (s : str) : str := rev (lstrip (rev s)).

(** [text.strip()] *)
Definition strip (s : str) : str := rstrip (lstrip s).

(** [len(text.split())]: the number of maximal runs of non-whitespace
    characters; [in_word] tells whether the previous character was one. *)
Fixpoint count_words_from (in_word : bool) (s : str) : nat :=
  match s with
  | [] => O
  | c :: r =>
      if is_whitespace c then count_words_from false r
      else ((if in_word then 0 else 1) + count_words_from true r)%nat
  end.

Definition count_words (s : str) : nat := count_words_from false s.

(** [s.replace(c, by)] for a pattern of one character. *)
Definition replace_char (c : N) (by_ : str) (s : str) : str :=
  flat_map (fun x => if N.eqb x c then by_ else [x]) s.

(** [pynini.escape]: a backslash before every backslash and bracket. *)
Definition escape (s : str) : str :=
  replace_char 93 [92; 93]%N
    (replace_char 91 [92; 91]%N
       (replace_char 92 [92; 92]%N s)).

(** [SPACE_DUP.sub(' ', s)] with [SPACE_DUP = re.compile(' {2,}')]:
    every maximal run of two or more spaces becomes one space. *)
Fixpoint SPACE_DUP_sub (s : str) : str :=
  match s with
  | [] => []
  | c :: r =>
      match r with
      | c' :: _ =>
          if (N.eqb c 32 && N.eqb c' 32)%bool then SPACE_DUP_sub r
          else c :: SPACE_DUP_sub r
      | [] => [c]
      end
  end.


(* ================================================================== *)
(** ** Lattices and shortest paths

    The result of composing a string with a grammar is read as the list
    of its accepting paths, each with its output string and its weight in
    the tropical semiring (lower is better).  Composition trims its
    result, so the lattice has a state exactly when it has a path. *)

Record path : Type := { output : str; weight : Q }.

Definition lattice := list path.

(** [lattice.num_states() != 0] *)
Definition has_states (l : lattice) : bool :=
  match l with
  | [] => false
  | _ :: _ => true
  end.

(** [pynini.shortestpath(lattice, nshortest=1, unique=True)]: a path of
    minimum weight, here the first one among those of minimum weight. *)
Fixpoint shortestpath (l : lattice) : option path :=
  match l with
  | [] => None
  | p :: r =>
      match shortestpath r with
      | None => Some p
      | Some q => if Qle_bool (weight p) (weight q) then Some p else Some q
      end
  end.

(** [.string()] of the shortest path: it raises on an FST without
    path. *)
Definition shortest_string (l : lattice) : result str :=
  match shortestpath l with
  | None => Raise FstOpError
  | Some p => Ok (output p)
  end.

(** [Normalizer.select_tag] *)
Definition select_tag (l : lattice) : result str := shortest_string l.

(** [Normalizer.select_verbalizer] *)
Definition select_verbalizer (l : lattice) : result str := shortest_string l.

(** [pynini.lib.rewrite.top_rewrite(string, rule)] *)
Definition top_rewrite (s : str) (rule : str -> lattice) : result str :=
  match shortestpath (rule s) with
  | None => Raise RewriteError
  | Some p => Ok (output p)
  end.

(* ================================================================== *)
(** ** The normalizer

    What [self] holds, and the functions the module imports from files
    that are not part of the verified code: each grammar is the function
    that composes a string with it. *)

Record Normalizer : Type := {
  tagger_fst : str -> lattice;                 (* text @ self.tagger.fst *)
  verbalizer_fst : str -> lattice;             (* text @ self.verbalizer.fst *)
  post_processor : option (str -> lattice);    (* self.post_processor.fst *)
  max_number_of_permutations_per_split : Z;
  parser : str -> result (list odict);         (* self.parser(s); self.parser.parse() *)
  pre_process : str -> str;                    (* data_loader_utils.pre_process *)
  post_process_punct : str -> str -> str;      (* data_loader_utils.post_process_punct *)
  moses_detokenize : str -> str                (* self.moses_detokenizer.detokenize *)
}.

(** What a call leaves behind: the calls of the logger and the
    applications of the two grammars, in order. *)
Inductive warning : Type :=
| Input_too_long
| No_permutations (s : list odict)
| Failed_text (text : str) (e : exn).

Inductive event : Type :=
| Set_level (debug : bool)
| Log_warning (w : warning)
| Log_debug (text : str)
| Tagger_applied (text : str)
| Verbalizer_applied (tagged_text : str).

(** Computations that log and may raise. *)
Definition action (A : Type) : Type := (list event * result A)%type.

Definition ret {A : Type} (a : A) : action A := ([], Ok a).

Definition bind {A B : Type} (m : action A) (f : A -> action B) : action B :=
  match m with
  | (t, Ok a) => let (t', r) := f a in (t ++ t', r)
  | (t, Raise e) => (t, Raise e)
  end.

Definition emit (e : event) : action unit := ([e], Ok tt).

Definition lift {A : Type} (r : result A) : action A := ([], r).

(** [try: m except Exception as e: handler e] *)
Definition try_except {A : Type} (m : action A) (handler : exn -> action A) : action A :=
  match m with
  | (t, Raise e) => let (t', r) := handler e in (t ++ t', r)
  | (t, Ok a) => (t, Ok a)
  end.

Notation "x <- m ;; k" := (bind m (fun x => k))
  (at level 61, m at next level, right associativity).
Notation "m ;;; k" := (bind m (fun _ => k))
  (at level 61, right associativity).

(** How the body of a loop of [normalize] ends: with a [return], or by
    going on with the new value of [output]. *)
Inductive flow : Type :=
| Return_value (v : str)
| Fall_through (output : str).

(** [Normalizer.find_tags] *)
Definition find_tags (self : Normalizer) (text : str) : action lattice :=
  emit (Tagger_applied text) ;;; ret (tagger_fst self text).

(** [Normalizer.find_verbalizer] *)
Definition find_verbalizer (self : Normalizer) (tagged_text : str) : action lattice :=
  emit (Verbalizer_applied tagged_text) ;;; ret (verbalizer_fst self tagged_text).

(** The loop [for tagged_text in tags_reordered] of [normalize]; the
    result is the value of [verbalizer_lattice] after the loop. *)
Fixpoint try_variants (self : Normalizer) (tags_reordered : list str)
    (verbalizer_lattice : option lattice) : action (option lattice) :=
  match tags_reordered with
  | [] => ret verbalizer_lattice
  | tagged_text :: rest =>
      let tagged_text := escape tagged_text in
      l <- find_verbalizer self tagged_text ;;
      if has_states l then ret (Some l)
      else try_variants self rest (Some l)
  end.

(** The body of the loop [for s in split_tokens]. *)
Definition verbalize_chunk (self : Normalizer) (text : str)
    (s : list odict) (output : str) : action flow :=
  try_except
    (verbalizer_lattice <- try_variants self (generate_permutations s) None ;;
     match verbalizer_lattice with
     | None =>
         emit (Log_warning (No_permutations s)) ;;; ret (Return_value text)
     | Some l =>
         o <- lift (select_verbalizer l) ;;
         ret (Fall_through (output ++ lit " " ++ o))
     end)
    (fun e =>
       emit (Log_warning (Failed_text text e)) ;;; ret (Return_value text)).

Fixpoint verbalize_chunks (self : Normalizer) (text : str)
    (split_tokens : list (list odict)) (output : str) : action flow :=
  match split_tokens with
  | [] => ret (Fall_through output)
  | s :: rest =>
      f <- verbalize_chunk self text s output ;;
      match f with
      | Return_value v => ret (Return_value v)
      | Fall_through output' => verbalize_chunks self text rest output'
      end
  end.

(** [Normalizer.post_process] *)
Definition post_process (self : Normalizer) (normalized_text : str)
  : result str :=
  let normalized_text := strip normalized_text in
  match normalized_text with
  | [] => Ok normalized_text
  | _ :: _ =>
      let normalized_text := escape normalized_text in
      match post_processor self with
      | Some rule => top_rewrite normalized_text rule
      | None => Ok normalized_text
      end
  end.

(** The end of [normalize], from [if self.post_processor is not None]
    on. *)
Definition finish (self : Normalizer) (original_text output : str)
    (punct_post_process : bool) : action str :=
  output <- match post_processor self with
            | Some _ => lift (post_process self output)
            | None => ret output
            end ;;
  ret (if punct_post_process
       then post_process_punct self original_text (moses_detokenize self output)
       else output).

(** [Normalizer.normalize] *)
Definition normalize (self : Normalizer) (text : str)
    (verbose punct_pre_process punct_post_process : bool) : action str :=
  emit (Set_level verbose) ;;;
  (if (500 <? count_words text)%nat
   then emit (Log_warning Input_too_long) else ret tt) ;;;
  let original_text := text in
  let text := if punct_pre_process then pre_process self text else text in
  let text := strip text in
  match text with
  | [] => emit (Log_debug text) ;;; ret text
  | _ :: _ =>
      let text := escape text in
      tagged_lattice <- find_tags self text ;;
      tagged_text <- lift (select_tag tagged_lattice) ;;
      emit (Log_debug tagged_text) ;;;
      tokens <- lift (parser self tagged_text) ;;
      split_tokens <-
        lift (_split_tokens_to_reduce_number_of_permutations
                (max_number_of_permutations_per_split self) tokens) ;;
      f <- verbalize_chunks self text split_tokens [] ;;
      match f with
      | Return_value v => ret v
      | Fall_through output =>
          finish self original_text (SPACE_DUP_sub (tl output))
                 punct_post_process
      end
  end.

(* ================================================================== *)
(** ** The joiner-hyphen rewrite of the Hindi classifier *)

(** The last character written once [out] has been appended. *)
Definition last_written (out : str) (prev : option N) : option N :=
  match rev out with
  | x :: _ => Some x
  | [] => prev
  end.

(** [pynini.cdrewrite(pynini.cross(a, b), left, right, sigma_star)] for a
    pattern [a] of one character and contexts that are classes of one
    character: the obligatory rewrite from left to right.  The right
    context is read on the input, the left context on what has been
    written so far; [prev] is the last character written.  The grammar
    works on the UTF-8 bytes of the text; on the code points of a string
    the rule is the same, since a character of a context class is a
    whole character of the text. *)
Fixpoint cdrewrite_char (a : N) (b : str) (left right : N -> bool)
    (prev : option N) (s : str) : str :=
  match s with
  | [] => []
  | c :: r =>
      let out :=
        if (N.eqb c a
            && match prev with Some p => left p | None => false end
            && match r with n :: _ => right n | [] => false end)%bool
        then b else [c] in
      out ++ cdrewrite_char a b left right (last_written out prev) r
  end.

(** Modelled from the spec: [graph_utils.NEMO_DIGIT], which is not among
    the source files; the spec calls it a digit, here the ASCII digits. *)
Definition NEMO_DIGIT (c : N) : bool := ((48 <=? c) && (c <=? 57))%N.

(** Modelled from the spec: [graph_utils.NEMO_HI_DIGIT], which is not
    among the source files; the Devanagari digits. *)
Definition NEMO_HI_DIGIT (c : N) : bool := ((2406 <=? c) && (c <=? 2415))%N.

(** [hi_block]: the characters [chr(i)] for [i] in
    [range(0x0900, 0x0980)]. *)
Definition hi_block (c : N) : bool := ((2304 <=? c) && (c <? 2432))%N.

(** [left_ctx = pynini.union(NEMO_DIGIT, NEMO_HI_DIGIT)] *)
Definition left_ctx (c : N) : bool := (NEMO_DIGIT c || NEMO_HI_DIGIT c)%bool.

Definition right_ctx : N -> bool := hi_block.

(** The left context, on the last character written. *)
Definition left_ctx_of (prev : option N) : bool :=
  match prev with
  | Some p => left_ctx p
  | None => false
  end.

(** [joiner_hyphen_to_space], applied to a string. *)
Definition joiner_hyphen_to_space (s : str) : str :=
  cdrewrite_char 45 (lit " ") left_ctx right_ctx None s.

(** Whether the character at position [i] of [s] is a hyphen between a
    digit and a character of the block. *)
Definition joiner_hyphen_at (s : str) (i : nat) : bool :=
  (match nth_error s i with Some c => N.eqb c 45 | None => false end
   && match i with
      | O => false
      | S j => match nth_error s j with Some p => left_ctx p | None => false end
      end
   && match nth_error s (S i) with Some n => hi_block n | None => false end)%bool.

(* ================================================================== *)
(** ** The tagged serialization and its parser *)

(** The serialization of a token sequence in the order of its fields:
    the first string [generate_permutations] yields. *)
Definition serialize (tokens : list odict) : str :=
  hd [] (generate_permutations tokens).

(** The same, written out: the items of a dictionary one after the
    other, each as [_permute] writes it. *)
Fixpoint serialize_value (v : value) : str :=
  match v with
  | VDict d =>
      (fix items (l : list (str * value)) : str :=
         match l with
         | [] => []
         | (k, v') :: r =>
             (match v' with
              | VStr s => k ++ lit ": " ++ dquote ++ s ++ dquote ++ lit " "
              | VDict _ =>
                  lit " " ++ k ++ lit " { " ++ serialize_value v' ++ lit " } "
              | VBool _ => k ++ lit ": true "
              end) ++ items r
         end) d
  | _ => []
  end.

Definition serialize_items (d : odict) : str := serialize_value (VDict d).

Definition serialize_item (kv : str * value) : str :=
  match kv with
  | (k, VStr s) => k ++ lit ": " ++ dquote ++ s ++ dquote ++ lit " "
  | (k, VDict d) => lit " " ++ k ++ lit " { " ++ serialize_items d ++ lit " } "
  | (k, VBool _) => k ++ lit ": true "
  end.

(** [d[k] = v] on an ordered dictionary: a key that is present keeps its
    place. *)
Fixpoint odict_set (d : odict) (k : str) (v : value) : odict :=
  match d with
  | [] => [(k, v)]
  | (k', v') :: r =>
      if str_eqb k' k then (k, v) :: r else (k', v') :: odict_set r k v
  end.

Definition odict_of_items (items : list (str * value)) : odict :=
  fold_left (fun d kv => odict_set d (fst kv) (snd kv)) items [].

(** Modelled from the spec: the characters of a field or class name
    ([ident] in the grammar of the tagged serialization), which
    [token_parser] would define: letters and the underscore. *)
Definition is_ident_char (c : N) : bool :=
  ((65 <=? c) && (c <=? 90) || (97 <=? c) && (c <=? 122) || (c =? 95))%N.

(** Modelled from the spec: the spaces between the items of the tagged
    serialization, skipped by the parser of [token_parser]. *)
Fixpoint skip_spaces (s : str) : str :=
  match s with
  | [] => []
  | c :: r => if N.eqb c 32 then skip_spaces r else s
  end.

(** Modelled from the spec: the name the parser of [token_parser] reads
    at the head of [s] (the longest one), and what follows it. *)
Fixpoint read_ident (s : str) : str * str :=
  match s with
  | [] => ([], [])
  | c :: r =>
      if is_ident_char c
      then let (k, rest) := read_ident r in (c :: k, rest)
      else ([], s)
  end.

(** Modelled from the spec: the end of a field value for the parser of
    [token_parser], a double quote followed by a space as in the grammar
    of a field; whether [s] starts with it. *)
Definition closes_value (s : str) : bool :=
  match s with
  | c :: c' :: _ => (N.eqb c 34 && N.eqb c' 32)%bool
  | _ => false
  end.

(** Modelled from the spec: the value the parser of [token_parser]
    reads, up to the double quote that a space follows, and what follows
    this quote; a value that is not closed is an error. *)
Fixpoint read_value (s : str) : option (str * str) :=
  match s with
  | [] => None
  | c :: r =>
      if closes_value s then Some ([], r)
      else match read_value r with
           | Some (v, rest) => Some (c :: v, rest)
           | None => None
           end
  end.

(** No double quote followed by a space in [v]. *)
Fixpoint quote_space_free (v : str) : bool :=
  match v with
  | [] => true
  | _ :: r => (negb (closes_value v) && quote_space_free r)%bool
  end.

(** [s] without its prefix [p], if it starts with [p]. *)
Fixpoint strip_prefix (p s : str) : option str :=
  match p, s with
  | [], _ => Some s
  | x :: p', y :: s' => if N.eqb x y then strip_prefix p' s' else None
  | _ :: _, [] => None
  end.

(** Modelled from the spec: [token_parser.TokenParser], which is not
    among the source files.  A recursive-descent parser over the tagged
    serialization: it repeatedly reads a field [name: "value" ] (the
    value ends at the double quote that a space follows), a flag
    [name: true] or a nested [name { ... }], skipping the spaces between
    them, until what follows is not a name (a closing brace or the end);
    the items are returned in the order scanned, with what is left of the
    input.  A nested group becomes an ordered dictionary.  Every call
    that goes on reading has consumed a character, so [fuel] above the
    length of the input is enough. *)
Fixpoint parse_items (fuel : nat) (s : str)
  : option (list (str * value) * str) :=
  match fuel with
  | O => None
  | S fuel' =>
      let s0 := skip_spaces s in
      let (key, s1) := read_ident s0 in
      match key with
      | [] => Some ([], s0)
      | _ :: _ =>
          let continue_with (v : value) (s' : str) :=
            match parse_items fuel' s' with
            | Some (items, rest) => Some ((key, v) :: items, rest)
            | None => None
            end in
          match skip_spaces s1 with
          | [] => None
          | c :: s2 =>
              if N.eqb c 58 then                       (* ':' *)
                match skip_spaces s2 with
                | [] => None
                | q :: s3 =>
                    if N.eqb q 34 then                 (* the opening quote *)
                      match read_value s3 with
                      | Some (v, s4) => continue_with (VStr v) s4
                      | None => None
                      end
                    else
                      match strip_prefix (lit "true") (q :: s3) with
                      | Some s4 => continue_with (VBool true) s4
                      | None => None
                      end
                end
              else if N.eqb c 123 then                 (* '{' *)
                match parse_items fuel' s2 with
                | Some (inner, c' :: s3) =>
                    if N.eqb c' 125                    (* '}' *)
                    then continue_with (VDict (odict_of_items inner)) s3
                    else None
                | _ => None
                end
              else None
          end
      end
  end.

(** Modelled from the spec: [TokenParser.parse] on the text given to
    [TokenParser.__call__], which is not among the source files: the root
    list of the top-level tokens, each the dictionary of one entry
    [tokens { ... }]; input that is not read to its end is an error. *)
Definition parse (s : str) : result (list odict) :=
  match parse_items (S (length s)) s with
  | Some (items, []) => Ok (map (fun kv => [kv]) items)
  | _ => Raise ParseError
  end.

(* ================================================================== *)
(** ** Small normalizers, to run the orchestrator on *)

(** The tagged text of the word class for [text]. *)
Definition word_tagging (text : str) : str :=
  lit "tokens { name: " ++ dquote ++ text ++ dquote ++ lit " }".

(** A normalizer with the word class only, whose verbalizer knows the
    single word [known]. *)
Definition word_normalizer (known : str) : Normalizer := {|
  tagger_fst := fun text => [ {| output := word_tagging text; weight := 100 |} ];
  verbalizer_fst := fun tagged_text =>
    if str_eqb tagged_text
         (serialize [[(lit "tokens", VDict [(lit "name", VStr known)])]])
    then [ {| output := known; weight := 1 |} ] else [];
  post_processor := None;
  max_number_of_permutations_per_split := 729;
  parser := parse;
  pre_process := fun text => text;
  post_process_punct := fun _ normalized_text => normalized_text;
  moses_detokenize := fun text => text
|}.

(** A normalizer whose classifier accepts nothing. *)
Definition deaf_normalizer : Normalizer := {|
  tagger_fst := fun _ => [];
  verbalizer_fst := fun _ => [];
  post_processor := None;
  max_number_of_permutations_per_split := 729;
  parser := parse;
  pre_process := fun text => text;
  post_process_punct := fun _ normalized_text => normalized_text;
  moses_detokenize := fun text => text
|}.

(** A normalizer for dates: the classifier reads every text as the day
    of a date in May (and, at a higher weight, as a word); the verbalizer
    wants the month before the day. *)
Definition may_tagging (text : str) : str :=
  lit "tokens { date { day: " ++ dquote ++ text ++ dquote
  ++ lit " month: " ++ dquote ++ lit "may" ++ dquote ++ lit " } }".

Definition may_normalizer : Normalizer := {|
  tagger_fst := fun text =>
    [ {| output := word_tagging text; weight := 100 |};
      {| output := may_tagging text; weight := 1.09 |} ];
  verbalizer_fst := fun tagged_text =>
    if str_eqb tagged_text
         (serialize
            [[(lit "tokens",
               VDict [(lit "date",
                       VDict [(lit "month", VStr (lit "may"));
                              (lit "day", VStr (lit "1"))])])]])
    then [ {| output := lit "may  first"; weight := 2 |};
           {| output := lit "first of may"; weight := 3 |} ]
    else [];
  post_processor := None;
  max_number_of_permutations_per_split := 729;
  parser := parse;
  pre_process := fun text => text;
  post_process_punct := fun _ normalized_text => normalized_text;
  moses_detokenize := fun text => text
|}.

(* ================================================================== *)
(** ** What happens to a chunk *)

(** A variant the verbalizer accepts, or not. *)
Definition accepted (self : Normalizer) (variant : str) : bool :=
  has_states (verbalizer_fst self (escape variant)).

(** A chunk with a variant the verbalizer accepts; a chunk without. *)
Definition verbalizable (self : Normalizer) (s : list odict) : Prop :=
  Exists (fun v => accepted self v = true) (generate_permutations s).

Definition unverbalizable (self : Normalizer) (s : list odict) : Prop :=
  Forall (fun v => accepted self v = false) (generate_permutations s).

(** The chunk [s] is verbalized as [o] with the applications [calls] of
    the verbalizer: the variants are tried in the order of
    [generate_permutations] up to the first one that is accepted, and
    [o] is the output of a path of minimum weight of its lattice. *)
Definition chunk_verbalized (self : Normalizer) (s : list odict)
    (calls : list event) (o : str) : Prop :=
  exists before v after p,
    generate_permutations s = before ++ v :: after
    /\ Forall (fun x => accepted self x = false) before
    /\ accepted self v = true
    /\ calls = map (fun x => Verbalizer_applied (escape x)) (before ++ [v])
    /\ shortestpath (verbalizer_fst self (escape v)) = Some p
    /\ (forall q, In q (verbalizer_fst self (escape v)) ->
        (weight p <= weight q)%Q)
    /\ o = output p.

(** What [normalize] logs before it splits the tokens. *)
Definition events_before_split (text text' tagged_text : str)
    (verbose : bool) : list event :=
  [Set_level verbose]
  ++ (if (500 <? count_words text)%nat then [Log_warning Input_too_long] else [])
  ++ [Tagger_applied text'; Log_debug tagged_text].

(** What [normalize] logs before it selects the tag. *)
Definition events_before_tag (text text' : str) (verbose : bool)
  : list event :=
  [Set_level verbose]
  ++ (if (500 <? count_words text)%nat then [Log_warning Input_too_long] else [])
  ++ [Tagger_applied text'].

(** No two spaces in a row. *)
Fixpoint single_spaced (s : str) : bool :=
  match s with
  | [] => true
  | c :: r =>
      match r with
      | c' :: _ => negb (N.eqb c 32 && N.eqb c' 32) && single_spaced r
      | [] => true
      end
  end.

(** The tokens of [may_tagging (lit "1")], and the variant of their
    serialization that [may_normalizer] verbalizes. *)
Definition may_tokens : list odict :=
  [[(lit "tokens",
     VDict [(lit "date",
             VDict [(lit "day", VStr (lit "1"));
                    (lit "month", VStr (lit "may"))])])]].


(** The token of [word_tagging (lit "b")]. *)
Definition word_tokens : list odict :=
  [[(lit "tokens", VDict [(lit "name", VStr (lit "b"))])]].

(* ================================================================== *)
(** ** Token trees the parser can produce *)

(** A name: not empty, of name characters only. *)
Definition wf_key (k : str) : Prop :=
  k <> [] /\ forallb is_ident_char k = true.

(** A value: a string without a double quote followed by a space, the
    flag [true], or a dictionary of such values under distinct names. *)
Fixpoint wf_value (v : value) : Prop :=
  match v with
  | VStr s => quote_space_free s = true
  | VBool b => b = true
  | VDict d =>
      NoDup (map fst d)
      /\ (fix all (l : list (str * value)) : Prop :=
            match l with
            | [] => True
            | (k, v') :: r => wf_key k /\ wf_value v' /\ all r
            end) d
  end.

Definition wf_item (kv : str * value) : Prop :=
  wf_key (fst kv) /\ wf_value (snd kv).

(** Input at which the parser stops reading items: after the spaces
    comes the end of the input or a character that starts no name. *)
Definition stops (rest : str) : Prop :=
  match skip_spaces rest with
  | [] => True
  | c :: _ => is_ident_char c = false
  end.

(** What the induction on the nesting carries: a well-formed dictionary,
    written in the order of its fields, is read back. *)
Definition reads_back (v : value) : Prop :=
  forall d, v = VDict d -> wf_value v ->
  forall fuel rest,
    stops rest ->
    (length (serialize_items d) < fuel)%nat ->
    parse_items fuel (serialize_items d ++ rest) = Some (d, skip_spaces rest).

(* ================================================================== *)
(** ** Further notions on the split *)

(** The chunk [c] could not take the first token of the chunk [next]
    without exceeding the bound. *)
Definition chunk_full (max_perms : Z) (c next : list odict) : Prop :=
  match next with
  | t :: _ =>
      max_perms
      < chunk_product c * _estimate_number_of_permutations_in_nested_dict t
  | [] => True
  end.

(** Every chunk but the last is full with respect to the one after it. *)
Fixpoint chunks_maximal (max_perms : Z) (chunks : list (list odict)) : Prop :=
  match chunks with
  | [] => True
  | c :: rest =>
      match rest with
      | next :: _ => chunk_full max_perms c next
      | [] => True
      end
      /\ chunks_maximal max_perms rest
  end.

(* ================================================================== *)
(** ** Further notions on the permutations *)

(** The numbers of serializations of the tokens of a chunk,
    multiplied. *)
Definition variants_product (tokens : list odict) : nat :=
  fold_right (fun t acc => (length (_permute t) * acc)%nat) 1%nat tokens.

(** A dictionary in which no field can move: at every level of nesting
    it carries [preserve_order] or has at most one field. *)
Fixpoint order_fixed_value (v : value) : bool :=
  match v with
  | VDict d =>
      (has_key PRESERVE_ORDER_KEY d || (length d <=? 1)%nat)
      && (fix all_fixed (l : list (str * value)) : bool :=
            match l with
            | [] => true
            | (_, v') :: r => order_fixed_value v' && all_fixed r
            end) d
  | _ => true
  end.

Definition order_fixed (d : odict) : bool := order_fixed_value (VDict d).

(** The string one item of a dictionary contributes, the item being
    given with the serializations of its nested dictionary. *)
Definition item_string (item : str * value * list str) : str :=
  serialize_item (fst item).

(** A normalizer with the post-processor [rule]. *)
Definition with_post_processor (self : Normalizer) (rule : str -> lattice)
  : Normalizer := {|
  tagger_fst := tagger_fst self;
  verbalizer_fst := verbalizer_fst self;
  post_processor := Some rule;
  max_number_of_permutations_per_split :=
    max_number_of_permutations_per_split self;
  parser := parser self;
  pre_process := pre_process self;
  post_process_punct := post_process_punct self;
  moses_detokenize := moses_detokenize self
|}.

(** A post-processing rule that rewrites every text to itself. *)
Definition echo_rule (s : str) : lattice := [ {| output := s; weight := 0 |} ].

(* ================================================================== *)
(** ** Counting the applications of the verbalizer *)

Definition is_verbalizer_call (e : event) : bool :=
  match e with
  | Verbalizer_applied _ => true
  | _ => false
  end.

(** How many times the verbalizer grammar was applied. *)
Definition verbalizer_calls (events : list event) : nat :=
  length (filter is_verbalizer_call events).

(** The numbers of variants of the chunks, added up. *)
Definition variants_total (chunks : list (list odict)) : nat :=
  fold_right (fun s acc => (length (generate_permutations s) + acc)%nat)
             0%nat chunks.

(* ================================================================== *)
(** ** Normalizing a list of texts *)

(** What [normalize_list] can raise: the [ValueError] of [range] for a
    step of zero, or what a call of [normalize] raised. *)
Inductive list_exn : Type :=
| Range_step_zero        (* "range() arg 3 must not be zero" *)
| Normalize_raised (e : exn).

Inductive list_result (A : Type) : Type :=
| Done (a : A)
| Failed (e : list_exn).

Arguments Done {A} a.
Arguments Failed {A} e.

(** The indices [i], [i + step], ... below [stop]; [fuel] bounds their
    number. *)
Fixpoint range_from (fuel i stop step : nat) : list nat :=
  match fuel with
  | O => []
  | S fuel' =>
      if (i <? stop)%nat then i :: range_from fuel' (i + step) stop step
      else []
  end.

(** [range(0, stop, step)] for [stop = len(texts)]: no value for a step
    of zero, which raises, and no index for a negative step. *)
Definition range (stop : nat) (step : Z) : option (list nat) :=
  if step =? 0 then None
  else if step <? 0 then Some []
  else Some (range_from stop 0 stop (Z.to_nat step)).

(** [_process_batch] of [normalize_list]: the texts of the batch are
    normalized one after the other (the progress bar is left out). *)
Fixpoint _process_batch (self : Normalizer) (batch : list str)
    (verbose punct_pre_process punct_post_process : bool)
  : action (list str) :=
  match batch with
  | [] => ret []
  | text :: rest =>
      line <- normalize self text verbose punct_pre_process
                punct_post_process ;;
      lines <- _process_batch self rest verbose punct_pre_process
                 punct_post_process ;;
      ret (line :: lines)
  end.

(** [Parallel(n_jobs=1)] on the batches: with one job no parallel code
    is used, the batches are processed in order and an exception ends
    the run. *)
Fixpoint run_batches (self : Normalizer) (batches : list (list str))
    (verbose punct_pre_process punct_post_process : bool)
  : action (list (list str)) :=
  match batches with
  | [] => ret []
  | batch :: rest =>
      lines <- _process_batch self batch verbose punct_pre_process
                 punct_post_process ;;
      others <- run_batches self rest verbose punct_pre_process
                  punct_post_process ;;
      ret (lines :: others)
  end.

(** [Normalizer.normalize_list] for [n_jobs = 1]; the [except
    BaseException as e: raise e] raises again what it caught. *)
Definition normalize_list (self : Normalizer) (texts : list str)
    (verbose punct_pre_process punct_post_process : bool) (batch_size : Z)
  : list event * list_result (list str) :=
  let batch := Z.min (Z.of_nat (length texts)) batch_size in
  match range (length texts) batch with
  | None => ([], Failed Range_step_zero)
  | Some starts =>
      match run_batches self
              (map (fun i => slice texts i (i + Z.to_nat batch)) starts)
              verbose punct_pre_process punct_post_process with
      | (events, Ok normalized_texts) => (events, Done (concat normalized_texts))
      | (events, Raise e) => (events, Failed (Normalize_raised e))
      end
  end.

(** The result of a run of batches as that of [normalize_list]. *)
Definition list_outcome (A : Type) (m : action A) : list event * list_result A :=
  match m with
  | (events, Ok a) => (events, Done a)
  | (events, Raise e) => (events, Failed (Normalize_raised e))
  end.

(* ================================================================== *)
(** ** The other rewrites of the Hindi classifier *)

(** The em-dash, U+2014. *)
Definition EM_DASH : N := 8212%N.

(** [digit_right = pynini.union(NEMO_DIGIT, NEMO_HI_DIGIT)] *)
Definition digit_right (c : N) : bool := (NEMO_DIGIT c || NEMO_HI_DIGIT c)%bool.

(** [math_symbols]: the square root, the sum, the product, the four
    integrals, the partial derivative and the nabla. *)
Definition math_symbols (c : N) : bool :=
  ((c =? 8730) || (c =? 8721) || (c =? 8719) || (c =? 8747) || (c =? 8748)
   || (c =? 8749) || (c =? 8750) || (c =? 8706) || (c =? 8711))%N.

(** [pynini.cdrewrite(pynini.cross(a, b), "", right, sigma_star)]: the
    empty left context holds everywhere, the start of the text
    included, so only the next character of the input decides. *)
Fixpoint cdrewrite_right (a : N) (b : str) (right : N -> bool) (s : str)
  : str :=
  match s with
  | [] => []
  | c :: r =>
      (if (N.eqb c a && match r with n :: _ => right n | [] => false end)%bool
       then b else [c])
      ++ cdrewrite_right a b right r
  end.

(** [pynini.cdrewrite(pynutil.insert(b), left, right, sigma_star)]: [b]
    is inserted wherever the last character written is in [left] and the
    next character of the input is in [right]. *)
Fixpoint cdrewrite_insert (b : str) (left right : N -> bool)
    (prev : option N) (s : str) : str :=
  match s with
  | [] => []
  | c :: r =>
      (if (match prev with Some p => left p | None => false end
           && right c)%bool
       then b else [])
      ++ c :: cdrewrite_insert b left right (Some c) r
  end.

(** [emdash_to_spaced], applied to a string. *)
Definition emdash_to_spaced (s : str) : str :=
  cdrewrite_right EM_DASH [EM_DASH; 32%N] digit_right s.

(** [emdash_joiner_to_space], applied to a string. *)
Definition emdash_joiner_to_space (s : str) : str :=
  cdrewrite_char EM_DASH (lit " ") digit_right hi_block None s.

(** Whether the character at position [i] of [s] is an em-dash between
    a digit and a character of the block. *)
Definition emdash_joiner_at (s : str) (i : nat) : bool :=
  (match nth_error s i with Some c => N.eqb c EM_DASH | None => false end
   && match i with
      | O => false
      | S j => match nth_error s j with Some p => digit_right p | None => false end
      end
   && match nth_error s (S i) with Some n => hi_block n | None => false end)%bool.

Section classifier_rewrites.

(** Two classes of [graph_utils], which is not among the source files:
    the characters that are not white space, and the letters. *)
Variable NEMO_NOT_SPACE : N -> bool.
Variable NEMO_ALPHA : N -> bool.

(** [non_digit_left = pynini.difference(NEMO_NOT_SPACE,
    pynini.union(NEMO_DIGIT, NEMO_HI_DIGIT))] *)
Definition non_digit_left (c : N) : bool :=
  (NEMO_NOT_SPACE c && negb (NEMO_DIGIT c || NEMO_HI_DIGIT c))%bool.

(** [equals_to_spaced], applied to a string. *)
Definition equals_to_spaced (s : str) : str :=
  cdrewrite_char 61 (lit " = ") non_digit_left digit_right None s.

(** [following_char = pynini.union(NEMO_DIGIT, NEMO_HI_DIGIT,
    NEMO_ALPHA)] *)
Definition following_char (c : N) : bool :=
  (NEMO_DIGIT c || NEMO_HI_DIGIT c || NEMO_ALPHA c)%bool.

(** [math_symbol_to_spaced], applied to a string. *)
Definition math_symbol_to_spaced (s : str) : str :=
  cdrewrite_insert (lit " ") math_symbols following_char None s.

(** The rewrites in front of the classifier graph in [self.fst]: in a
    composition the rule on the left is applied first. *)
Definition pre_classification_rewrites (s : str) : str :=
  joiner_hyphen_to_space
    (equals_to_spaced
       (emdash_to_spaced
          (emdash_joiner_to_space
             (math_symbol_to_spaced s)))).

End classifier_rewrites.

(** Whether a class holds of the character before, if there is one. *)
Definition in_class (class : N -> bool) (before : option N) : bool :=
  match before with
  | Some p => class p
  | None => false
  end.

(** The rewrite of [a] by [b] between [left] and [right] decided on the
    input alone: [before] is the character of the input in front of the
    one looked at. *)
Fixpoint rewrite_on_input (a : N) (b : str) (left right : N -> bool)
    (before : option N) (s : str) : str :=
  match s with
  | [] => []
  | c :: r =>
      (if (N.eqb c a && in_class left before
           && match r with n :: _ => right n | [] => false end)%bool
       then b else [c])
      ++ rewrite_on_input a b left right (Some c) r
  end.

(** Whether [a] comes directly before a character of [right]
    somewhere in [s]. *)
Fixpoint glued (a : N) (right : N -> bool) (s : str) : bool :=
  match s with
  | [] => false
  | c :: r =>
      (N.eqb c a && match r with n :: _ => right n | [] => false end)
      || glued a right r
  end.

(** Whether [a] comes directly after a character of [left] somewhere
    in [s]. *)
Fixpoint stands_after (left : N -> bool) (a : N) (s : str) : bool :=
  match s with
  | [] => false
  | p :: r =>
      (left p && match r with n :: _ => N.eqb n a | [] => false end)
      || stands_after left a r
  end.

(** Whether a character of [left] comes directly before a character of
    [right] somewhere in [s]. *)
Fixpoint adjacent (left right : N -> bool) (s : str) : bool :=
  match s with
  | [] => false
  | c :: r =>
      (left c && match r with n :: _ => right n | [] => false end)
      || adjacent left right r
  end.

(** A text without its spaces, hyphens and em-dashes. *)
Definition skeleton (s : str) : str :=
  filter (fun c => negb ((c =? 32) || (c =? 45) || (c =? EM_DASH))%N) s.

(** A text without its spaces. *)
Definition unspaced (s : str) : str :=
  filter (fun c => negb (c =? 32)%N) s.

(* ================================================================== *)
(** ** The test runner, a caller of [normalize]

    [tests/run_tests.py]; what it prints is left out. *)

(** The order of Python on [str]: by code points, a proper prefix
    first. *)
Fixpoint str_ltb (a b : str) : bool :=
  match a, b with
  | _, [] => false
  | [], _ :: _ => true
  | x :: a', y :: b' => ((x <? y) || ((x =? y) && str_ltb a' b'))%N
  end.

(** [sorted(test_cases.items())]: the categories are the keys of a
    dictionary, so the inputs are never compared. *)
Fixpoint insert_item (item : str * list str) (l : list (str * list str))
  : list (str * list str) :=
  match l with
  | [] => [item]
  | x :: r =>
      if str_ltb (fst item) (fst x) then item :: l
      else x :: insert_item item r
  end.

Definition sorted_items (test_cases : list (str * list str))
  : list (str * list str) :=
  fold_right insert_item [] test_cases.

(** The loop [for i, test_input in enumerate(inputs, 1)] of [run_tests]:
    the call of [normalize] in a [try], which adds to [passed], and the
    [except Exception], which adds to [errors]. *)
Fixpoint run_inputs (normalizer : Normalizer) (inputs : list str)
    (passed errors : nat) : nat * nat :=
  match inputs with
  | [] => (passed, errors)
  | test_input :: rest =>
      match snd (normalize normalizer test_input false false true) with
      | Ok _ => run_inputs normalizer rest (S passed) errors
      | Raise _ => run_inputs normalizer rest passed (S errors)
      end
  end.

(** The loop [for category, inputs in sorted(test_cases.items())]. *)
Fixpoint run_categories (normalizer : Normalizer)
    (items : list (str * list str)) (passed errors : nat) : nat * nat :=
  match items with
  | [] => (passed, errors)
  | (_, inputs) :: rest =>
      let '(passed, errors) := run_inputs normalizer inputs passed errors in
      run_categories normalizer rest passed errors
  end.

(** [total_tests = sum(len(tests) for tests in test_cases.values())] *)
Definition total_tests (test_cases : list (str * list str)) : nat :=
  fold_right (fun item acc => (length (snd item) + acc)%nat) 0%nat test_cases.

(** [run_tests]: the value it returns.  [normalizer] is what the
    construction of the [Normalizer] gives, nothing when it raises. *)
Definition run_tests (normalizer : option Normalizer)
    (test_cases : list (str * list str)) : Z :=
  match normalizer with
  | None => 1
  | Some normalizer =>
      let '(passed, errors) :=
        run_categories normalizer (sorted_items test_cases) 0 0 in
      if (0 <? errors)%nat then 1 else 0
  end.

(** Whether [normalize], as [run_tests] calls it, raises on an input. *)
Definition raises_on (normalizer : Normalizer) (test_input : str) : bool :=
  match snd (normalize normalizer test_input false false true) with
  | Ok _ => false
  | Raise _ => true
  end.

(* ================================================================== *)
(* ================================================================== *)
(** * Properties *)

(** ** Strings *)

Lemma str_eqb_eq : forall a b, str_eqb a b = true <-> a = b.
Proof.
  induction a as [|x a IH]; destruct b as [|y b]; simpl; split;
    try congruence; try discriminate; auto.
  - intros H. apply andb_true_iff in H as [H1 H2].
    apply N.eqb_eq in H1. apply IH in H2. congruence.
  - intros H. inversion H; subst. rewrite N.eqb_refl. simpl.
    apply IH. reflexivity.
Qed.

Lemma str_eqb_refl : forall a, str_eqb a a = true.
Proof. intros a. apply str_eqb_eq. reflexivity. Qed.

Lemma str_eqb_neq : forall a b, str_eqb a b = false <-> a <> b.
Proof.
  intros a b. split.
  - intros H E. apply str_eqb_eq in E. congruence.
  - intros H. destruct (str_eqb a b) eqn:E; auto.
    apply str_eqb_eq in E. contradiction.
Qed.

(** ** The permutation estimate *)

Lemma factorial_pos : forall n, 1 <= factorial n.
Proof.
  induction n as [|n IH]; [simpl; lia|].
  change (factorial (S n)) with (Z.of_nat (S n) * factorial n).
  assert (1 <= Z.of_nat (S n)) by lia. nia.
Qed.

Lemma estimate_unfold : forall d,
  _estimate_number_of_permutations_in_nested_dict d
  = estimate_items d 1 * factorial (length d).
Proof.
  intros d. unfold _estimate_number_of_permutations_in_nested_dict.
  simpl estimate_value. f_equal.
  generalize 1 as acc.
  induction d as [|[k inner] d IH]; intros acc; simpl; [reflexivity|].
  rewrite IH. destruct inner; reflexivity.
Qed.

Lemma estimate_items_product : forall items acc,
  estimate_items items acc = acc * children_product items.
Proof.
  induction items as [|[k inner] items IH]; intros acc; simpl.
  - lia.
  - rewrite IH. destruct inner; lia.
Qed.

Lemma estimate_value_pos : forall v, 1 <= estimate_value v.
Proof.
  induction v as [s|b|d IH] using value_nested_ind;
    [simpl; lia | simpl; lia | ].
  change (estimate_value (VDict d))
    with (_estimate_number_of_permutations_in_nested_dict d).
  rewrite estimate_unfold, estimate_items_product.
  assert (Hc : 1 <= children_product d).
  { induction d as [|[k inner] d IHd]; simpl; [lia|].
    inversion IH as [|? ? Hh Ht]; subst. specialize (IHd Ht).
    destruct inner as [s|d0|b]; auto. cbn [snd] in Hh.
    change (estimate_value (VDict d0))
      with (_estimate_number_of_permutations_in_nested_dict d0) in Hh.
    nia. }
  pose proof (factorial_pos (length d)). nia.
Qed.

Lemma estimate_pos : forall d,
  1 <= _estimate_number_of_permutations_in_nested_dict d.
Proof. intros d. apply estimate_value_pos. Qed.

Lemma chunk_product_pos : forall c, 1 <= chunk_product c.
Proof.
  induction c as [|t c IH]; simpl; [lia|].
  pose proof (estimate_pos t). nia.
Qed.

Lemma chunk_product_app : forall a b,
  chunk_product (a ++ b) = chunk_product a * chunk_product b.
Proof.
  induction a as [|t a IH]; intros b; simpl.
  - destruct (chunk_product b); reflexivity.
  - rewrite IH. lia.
Qed.

(** ** Splitting *)

Lemma slice_middle : forall (A : Type) (a b c : list A),
  slice (a ++ b ++ c) (length a) (length (a ++ b)) = b.
Proof.
  intros A a b c. unfold slice.
  rewrite length_app, skipn_app, skipn_all, Nat.sub_diag. simpl.
  replace (length a + length b - length a)%nat with (length b) by lia.
  rewrite firstn_app, firstn_all, Nat.sub_diag. simpl.
  apply app_nil_r.
Qed.

Lemma slice_from_app : forall (A : Type) (a b : list A),
  slice_from (a ++ b) (length a) = b.
Proof.
  intros A a b. unfold slice_from.
  rewrite skipn_app, skipn_all, Nat.sub_diag. reflexivity.
Qed.

Lemma sum_len_from : forall (A : Type) (splits : list (list A)) n,
  fold_left (fun acc s => (acc + length s)%nat) splits n
  = (n + length (concat splits))%nat.
Proof.
  induction splits as [|s splits IH]; intros n; simpl.
  - lia.
  - rewrite IH, length_app. lia.
Qed.

Lemma sum_len_concat : forall (A : Type) (splits : list (list A)),
  sum_len splits = length (concat splits).
Proof. intros A splits. unfold sum_len. rewrite sum_len_from. lia. Qed.

(** The invariant of the loop: the tokens enumerated so far are the
    closed chunks followed by the open one, whose product is the running
    count. *)
Lemma split_loop_invariant : forall max_perms tokens rest splits current i prev cur,
  tokens = concat splits ++ current ++ rest ->
  i = length (concat splits ++ current) ->
  prev = length (concat splits) ->
  cur = chunk_product current ->
  Forall (fun t => _estimate_number_of_permutations_in_nested_dict t <= max_perms) rest ->
  (current <> [] -> cur <= max_perms) ->
  Forall (closed_chunk max_perms) splits ->
  exists splits' current',
    split_loop max_perms tokens rest i splits prev cur
      = Ok (splits', length (concat splits'))
    /\ tokens = concat splits' ++ current'
    /\ Forall (closed_chunk max_perms) splits'
    /\ (current' <> [] -> chunk_product current' <= max_perms)
    /\ (current' = [] -> splits' = splits /\ current = [] /\ rest = []).
Proof.
  intros M tokens rest.
  induction rest as [|t rest IH];
    intros splits current i prev cur Htok Hi Hprev Hcur Hall Hopen Hclosed.
  - exists splits, current. simpl. subst prev.
    rewrite app_nil_r in Htok. subst cur. repeat split; auto.
  - pose proof (Forall_inv Hall) as Ht. cbv beta in Ht.
    pose proof (Forall_inv_tail Hall) as Hrest.
    simpl split_loop.
    pose proof (estimate_pos t) as Hn.
    assert (Hone : chunk_product [t]
                   = _estimate_number_of_permutations_in_nested_dict t)
      by (unfold chunk_product; simpl; lia).
    remember (_estimate_number_of_permutations_in_nested_dict t) as n eqn:En.
    destruct (Z.gtb_spec n M) as [Hbig|_]; [lia|].
    destruct (Z.gtb_spec (n * cur) M) as [Hover|Hover].
    + (* the open chunk is closed before [t] *)
      assert (Hne : current <> []).
      { intros E. subst current. simpl in Hcur. subst cur. lia. }
      assert (Hslice : slice tokens prev i = current).
      { subst tokens i prev. apply slice_middle. }
      rewrite Hslice.
      destruct (IH (splits ++ [current]) [t] (S i) i (1 * n))
        as (splits' & current' & Hrun & Htok' & Hcl' & Hop' & Hemp').
      * rewrite Htok, concat_app. simpl. rewrite app_nil_r, <- !app_assoc.
        reflexivity.
      * rewrite concat_app. simpl. rewrite app_nil_r, Hi, !length_app. simpl. lia.
      * rewrite concat_app. simpl. rewrite app_nil_r. exact Hi.
      * lia.
      * exact Hrest.
      * intros _. lia.
      * apply Forall_app. split; [exact Hclosed|].
        constructor; [|constructor]. split; [exact Hne|]. subst cur. auto.
      * exists splits', current'.
        split; [exact Hrun|]. split; [exact Htok'|]. split; [exact Hcl'|].
        split; [exact Hop'|].
        intros E. destruct (Hemp' E) as (_ & E' & _). discriminate.
    + (* [t] joins the open chunk *)
      destruct (IH splits (current ++ [t]) (S i) prev (cur * n))
        as (splits' & current' & Hrun & Htok' & Hcl' & Hop' & Hemp').
      * rewrite Htok, <- !app_assoc. reflexivity.
      * rewrite Hi, !length_app. simpl. lia.
      * exact Hprev.
      * rewrite chunk_product_app. lia.
      * exact Hrest.
      * intros _. lia.
      * exact Hclosed.
      * exists splits', current'.
        split; [exact Hrun|]. split; [exact Htok'|]. split; [exact Hcl'|].
        split; [exact Hop'|].
        intros E. destruct (Hemp' E) as (_ & E' & _).
        destruct current; discriminate.
Qed.

(** A token over the bound stops the loop, whatever the state. *)
Lemma split_loop_raises : forall max_perms tokens rest i splits prev cur,
  Exists (fun t => max_perms < _estimate_number_of_permutations_in_nested_dict t) rest ->
  split_loop max_perms tokens rest i splits prev cur
  = Raise (ValueError (Unsplittable_token_group max_perms)).
Proof.
  intros M tokens rest.
  induction rest as [|t rest IH]; intros i splits prev cur Hex.
  - inversion Hex.
  - simpl split_loop.
    destruct (Z.gtb_spec (_estimate_number_of_permutations_in_nested_dict t) M)
      as [Hbig|Hbig].
    + destruct (_ >? M); reflexivity.
    + inversion Hex as [? ? Hhere|? ? Hlater]; subst; [lia|].
      destruct (_ >? M); apply IH; exact Hlater.
Qed.

(** C2 (as amended).  When every token's estimate is at most the bound,
    the split succeeds and its chunks, concatenated in order, are the
    token sequence; every chunk's product of estimates is at most the
    bound as soon as the sequence is not empty or the bound is at least 1;
    the chunks of a non-empty sequence are non-empty, and the empty
    sequence gives the single empty chunk. *)
Theorem split_partitions_within_bound : forall max_perms tokens,
  Forall (fun t => _estimate_number_of_permutations_in_nested_dict t <= max_perms)
         tokens ->
  exists chunks,
    _split_tokens_to_reduce_number_of_permutations max_perms tokens = Ok chunks
    /\ concat chunks = tokens
    /\ (tokens <> [] \/ 1 <= max_perms ->
        Forall (fun c => chunk_product c <= max_perms) chunks)
    /\ (tokens <> [] -> Forall (fun c => c <> []) chunks)
    /\ (tokens = [] -> chunks = [[]]).
Proof.
  intros M tokens Hall.
  destruct (@split_loop_invariant M tokens tokens [] [] 0%nat 0%nat 1)
    as (splits & current & Hrun & Htok & Hclosed & Hopen & Hempty);
    try reflexivity; auto.
  { intros H. contradiction. }
  unfold _split_tokens_to_reduce_number_of_permutations. rewrite Hrun.
  assert (Hlast : slice_from tokens (length (concat splits)) = current).
  { rewrite Htok at 1. apply slice_from_app. }
  rewrite Hlast.
  assert (Hcat : concat (splits ++ [current]) = tokens).
  { rewrite concat_app. simpl. rewrite app_nil_r. symmetry. exact Htok. }
  rewrite sum_len_concat, Hcat, Nat.eqb_refl.
  exists (splits ++ [current]). split; [reflexivity|]. split; [exact Hcat|].
  split; [|split].
  - intros Hcase. apply Forall_app. split.
    + eapply Forall_impl; [|exact Hclosed]. intros c [_ Hc]. exact Hc.
    + constructor; [|constructor].
      destruct current as [|t current].
      * destruct (Hempty eq_refl) as (_ & _ & E). subst tokens.
        destruct Hcase as [Hne|HM]; [contradiction|]. simpl. exact HM.
      * apply Hopen. discriminate.
  - intros Hne. apply Forall_app. split.
    + eapply Forall_impl; [|exact Hclosed]. intros c [Hc _]. exact Hc.
    + constructor; [|constructor]. intros E.
      destruct (Hempty E) as (_ & _ & E'). contradiction.
  - intros E. subst tokens. destruct splits as [|c splits].
    + destruct current; [reflexivity|discriminate].
    + inversion Hclosed as [|? ? [Hc _] _]; subst.
      destruct c; [contradiction|discriminate].
Qed.

Lemma split_partitions_within_bound_witness :
  exists chunks,
    _split_tokens_to_reduce_number_of_permutations 6 docstring_tokens = Ok chunks
    /\ concat chunks = docstring_tokens
    /\ (docstring_tokens <> [] \/ 1 <= 6 ->
        Forall (fun c => chunk_product c <= 6) chunks)
    /\ (docstring_tokens <> [] -> Forall (fun c => c <> []) chunks)
    /\ (docstring_tokens = [] -> chunks = [[]]).
Proof.
  apply (@split_partitions_within_bound 6 docstring_tokens).
  repeat constructor; vm_compute; discriminate.
Defined.

(** C2 as stated fails for the empty token sequence under a bound below
    1: the split is the single empty chunk, whose (empty) product of
    estimates is 1. *)
Lemma split_empty_sequence_bound_zero :
  Forall (fun t => _estimate_number_of_permutations_in_nested_dict t <= 0) []
  /\ _split_tokens_to_reduce_number_of_permutations 0 [] = Ok [[]]
  /\ ~ Forall (fun c => chunk_product c <= 0) [[]].
Proof.
  split; [constructor|]. split; [reflexivity|].
  intros H. inversion H as [|? ? Hc _]; subst. vm_compute in Hc.
  apply Hc. reflexivity.
Qed.

(** C4.  A token sequence that contains a token whose own estimate
    exceeds the bound makes the split raise the [ValueError] of the
    unsplittable token group, whatever the other tokens are. *)
Theorem split_raises_on_unsplittable_token : forall max_perms tokens,
  Exists (fun t => max_perms < _estimate_number_of_permutations_in_nested_dict t)
         tokens ->
  _split_tokens_to_reduce_number_of_permutations max_perms tokens
  = Raise (ValueError (Unsplittable_token_group max_perms)).
Proof.
  intros M tokens Hex.
  unfold _split_tokens_to_reduce_number_of_permutations.
  rewrite split_loop_raises by exact Hex. reflexivity.
Qed.

Lemma split_raises_on_unsplittable_token_witness :
  _split_tokens_to_reduce_number_of_permutations 5 docstring_tokens
  = Raise (ValueError (Unsplittable_token_group 5)).
Proof.
  apply (@split_raises_on_unsplittable_token 5 docstring_tokens).
  apply Exists_cons_tl, Exists_cons_hd. vm_compute. reflexivity.
Defined.

(** C6.  A token with three reorderable fields has an estimate of 6,
    and under the bound 6 two tokens with an estimate of 6 each are split
    into two chunks of one token each. *)
Theorem split_two_three_field_tokens :
  (forall c k1 v1 k2 v2 k3 v3,
     _estimate_number_of_permutations_in_nested_dict
       (three_field_token c k1 v1 k2 v2 k3 v3) = 6)
  /\ (forall t t',
        _estimate_number_of_permutations_in_nested_dict t = 6 ->
        _estimate_number_of_permutations_in_nested_dict t' = 6 ->
        _split_tokens_to_reduce_number_of_permutations 6 [t; t']
        = Ok [[t]; [t']]).
Proof.
  split; [reflexivity|].
  intros t t' Ht Ht'.
  unfold _split_tokens_to_reduce_number_of_permutations.
  cbn [split_loop]. rewrite Ht, Ht'. reflexivity.
Qed.

Lemma split_two_three_field_tokens_witness :
  _split_tokens_to_reduce_number_of_permutations 6 docstring_tokens
  = Ok [ [three_field_token (lit "date")
            (lit "year") (lit "twenty eighteen")
            (lit "month") (lit "december")
            (lit "day") (lit "thirty one")];
         [three_field_token (lit "date")
            (lit "year") (lit "twenty eighteen")
            (lit "month") (lit "january")
            (lit "day") (lit "eight")] ].
Proof.
  apply (proj2 split_two_three_field_tokens); reflexivity.
Defined.

(** ** Permutations *)

Lemma selections_length : forall (A : Type) (l : list A),
  length (selections l) = length l.
Proof.
  induction l as [|x l IH]; simpl; [reflexivity|].
  rewrite length_map, IH. reflexivity.
Qed.

Lemma selections_spec : forall (A : Type) (l : list A) x r,
  In (x, r) (selections l) -> Permutation (x :: r) l.
Proof.
  induction l as [|y l IH]; intros x r Hin; simpl in Hin; [contradiction|].
  destruct Hin as [E|Hin].
  - inversion E; subst. apply Permutation_refl.
  - apply in_map_iff in Hin as ([x' r'] & E & Hin). simpl in E.
    inversion E; subst. apply IH in Hin.
    eapply perm_trans; [apply perm_swap|]. apply perm_skip. exact Hin.
Qed.

Lemma permutations_of_length_spec : forall (A : Type) n (l p : list A),
  length l = n -> In p (permutations_of_length n l) -> Permutation p l.
Proof.
  induction n as [|n IH]; intros l p Hlen Hin; simpl in Hin.
  - destruct Hin as [E|[]]. subst p. destruct l; [constructor|discriminate].
  - apply in_flat_map in Hin as ([x r] & Hsel & Hin). simpl in Hin.
    apply in_map_iff in Hin as (q & E & Hq). subst p.
    pose proof (selections_spec _ _ _ Hsel) as Hperm.
    eapply perm_trans; [|exact Hperm]. apply perm_skip.
    apply IH; [|exact Hq].
    apply Permutation_length in Hperm. simpl in Hperm. lia.
Qed.

Lemma permutations_spec : forall (A : Type) (l p : list A),
  In p (permutations l) -> Permutation p l.
Proof. intros A l p. apply permutations_of_length_spec. reflexivity. Qed.

Lemma permutations_of_length_count : forall (A : Type) n (l : list A),
  length l = n ->
  Z.of_nat (length (permutations_of_length n l)) = factorial n.
Proof.
  induction n as [|n IH]; intros l Hlen; [reflexivity|].
  change (factorial (S n)) with (Z.of_nat (S n) * factorial n).
  cbn [permutations_of_length].
  rewrite flat_map_constant_length with (c := Z.to_nat (factorial n)).
  - rewrite selections_length, Hlen, Nat2Z.inj_mul, Z2Nat.id; [reflexivity|].
    pose proof (factorial_pos n). lia.
  - intros [x r] Hsel. simpl. rewrite length_map.
    rewrite <- (IH r), Nat2Z.id; [reflexivity|].
    apply selections_spec, Permutation_length in Hsel. simpl in Hsel. lia.
Qed.

Lemma permutations_count : forall (A : Type) (l : list A),
  Z.of_nat (length (permutations l)) = factorial (length l).
Proof. intros A l. apply permutations_of_length_count. reflexivity. Qed.

(** The input order is the first permutation. *)
Lemma permutations_of_length_head : forall (A : Type) n (l : list A),
  length l = n ->
  exists others, permutations_of_length n l = l :: others.
Proof.
  induction n as [|n IH]; intros l Hlen.
  - destruct l; [|discriminate]. exists []. reflexivity.
  - destruct l as [|x l]; [discriminate|].
    destruct (IH l) as (others & E); [simpl in Hlen; lia|].
    cbn [permutations_of_length selections flat_map fst snd].
    rewrite E. simpl. eexists. reflexivity.
Qed.

Lemma permutations_head : forall (A : Type) (l : list A),
  exists others, permutations l = l :: others.
Proof. intros A l. apply permutations_of_length_head. reflexivity. Qed.

(** ** The serializations of a token *)

Lemma permute_unfold : forall d,
  _permute d
  = flat_map permute_one
      (if has_key PRESERVE_ORDER_KEY d
       then [with_permutations d]
       else permutations (with_permutations d)).
Proof.
  intros d. unfold _permute. cbn [permute_value].
  assert (E : (fix with_rec (l : list (str * value)) :
                 list (str * value * list str) :=
                 match l with
                 | [] => []
                 | (k, v') :: r => (k, v', permute_value v') :: with_rec r
                 end) d = with_permutations d).
  { induction d as [|[k v] d IH]; simpl; [reflexivity|]. rewrite IH.
    reflexivity. }
  rewrite E. reflexivity.
Qed.

Lemma product_pair_length : forall (A : Type) (xs : list A) (ys : list (list A)),
  length (flat_map (fun x => map (cons x) ys) xs)
  = (length xs * length ys)%nat.
Proof.
  intros A xs ys. apply flat_map_constant_length.
  intros x _. apply length_map.
Qed.

Lemma join_product_two_length : forall subl x,
  length (join_product [subl; [x]]) = length subl.
Proof.
  intros subl x. unfold join_product. rewrite length_map.
  cbn [product]. rewrite product_pair_length. simpl. lia.
Qed.

Lemma join_product_four_length : forall subl a rec b,
  length (join_product [subl; [a]; rec; [b]])
  = (length subl * length rec)%nat.
Proof.
  intros subl a rec b. unfold join_product. rewrite length_map.
  cbn [product]. rewrite product_pair_length. f_equal.
  cbn [flat_map]. rewrite app_nil_r, length_map, product_pair_length.
  simpl. lia.
Qed.

Lemma permute_step_length : forall subl item,
  length (permute_step subl item) = (length subl * item_options item)%nat.
Proof.
  intros subl [[k v] rec]. destruct v; unfold permute_step, item_options.
  - rewrite join_product_two_length. lia.
  - apply join_product_four_length.
  - rewrite join_product_two_length. lia.
Qed.

Lemma fold_permute_step_length : forall perm subl,
  length (fold_left permute_step perm subl)
  = (length subl * options_count perm)%nat.
Proof.
  induction perm as [|item perm IH]; intros subl; simpl.
  - lia.
  - rewrite IH, permute_step_length. lia.
Qed.

Lemma permute_one_length : forall perm,
  length (permute_one perm) = options_count perm.
Proof.
  intros perm. unfold permute_one. rewrite fold_permute_step_length.
  simpl. lia.
Qed.

Lemma options_count_permutation : forall p q,
  Permutation p q -> options_count p = options_count q.
Proof.
  induction 1; simpl; try lia; congruence.
Qed.

Lemma options_count_children : forall d,
  options_count (with_permutations d) = children_permutations d.
Proof.
  induction d as [|[k v] d IH]; simpl; [reflexivity|].
  rewrite IH. destruct v; simpl; try lia; reflexivity.
Qed.

(** With the flag the fields of the dictionary keep their order. *)
Lemma permute_length_preserve_order : forall d,
  has_key PRESERVE_ORDER_KEY d = true ->
  length (_permute d) = children_permutations d.
Proof.
  intros d Hflag. rewrite permute_unfold, Hflag. simpl.
  rewrite app_nil_r, permute_one_length. apply options_count_children.
Qed.

(** Without it every order of the fields is generated. *)
Lemma permute_length_all_orders : forall d,
  has_key PRESERVE_ORDER_KEY d = false ->
  Z.of_nat (length (_permute d))
  = factorial (length d) * Z.of_nat (children_permutations d).
Proof.
  intros d Hflag. rewrite permute_unfold, Hflag.
  rewrite flat_map_constant_length with (c := children_permutations d).
  - rewrite Nat2Z.inj_mul, permutations_count.
    unfold with_permutations. rewrite length_map. reflexivity.
  - intros p Hp. rewrite permute_one_length.
    rewrite (options_count_permutation (permutations_spec _ _ Hp)).
    apply options_count_children.
Qed.

Lemma children_permutations_pos : forall d,
  Forall (fun kv => forall d', snd kv = VDict d' ->
                     (1 <= length (_permute d'))%nat) d ->
  (1 <= children_permutations d)%nat.
Proof.
  induction d as [|[k v] d IH]; intros Hall; simpl; [lia|].
  pose proof (Forall_inv Hall) as Hh. pose proof (Forall_inv_tail Hall) as Ht.
  specialize (IH Ht). destruct v as [s|d'|b]; auto.
  specialize (Hh d' eq_refl). nia.
Qed.

(** [_permute] always yields at least one serialization. *)
Lemma permute_value_nonempty : forall v d,
  v = VDict d -> (1 <= length (_permute d))%nat.
Proof.
  induction v as [s|b|d0 IH] using value_nested_ind; intros d E;
    try discriminate.
  inversion E; subst d0. clear E.
  assert (Hc : (1 <= children_permutations d)%nat).
  { apply children_permutations_pos. eapply Forall_impl; [|exact IH].
    intros [k v] Hv d' E. simpl in *. exact (Hv d' E). }
  destruct (has_key PRESERVE_ORDER_KEY d) eqn:Hflag.
  - rewrite permute_length_preserve_order by exact Hflag. exact Hc.
  - pose proof (permute_length_all_orders d Hflag) as Hl.
    pose proof (factorial_pos (length d)). nia.
Qed.

Lemma permute_nonempty : forall d, _permute d <> [].
Proof.
  intros d E. pose proof (permute_value_nonempty (d:=d) eq_refl) as H.
  rewrite E in H. simpl in H. lia.
Qed.

(** The estimate bounds the number of serializations from above. *)
Lemma permute_value_bounded : forall v d,
  v = VDict d ->
  Z.of_nat (length (_permute d))
  <= _estimate_number_of_permutations_in_nested_dict d.
Proof.
  induction v as [s|b|d0 IH] using value_nested_ind; intros d E;
    try discriminate.
  inversion E; subst d0. clear E.
  assert (Hc : Z.of_nat (children_permutations d) <= children_product d).
  { induction d as [|[k v] d IHd]; simpl; [lia|].
    pose proof (Forall_inv IH) as Hh. pose proof (Forall_inv_tail IH) as Ht.
    specialize (IHd Ht). destruct v as [s|d'|b]; auto.
    specialize (Hh d' eq_refl). simpl in Hh. rewrite Nat2Z.inj_mul.
    pose proof (estimate_pos d'). nia. }
  rewrite estimate_unfold, estimate_items_product.
  pose proof (factorial_pos (length d)) as Hf.
  destruct (has_key PRESERVE_ORDER_KEY d) eqn:Hflag.
  - rewrite permute_length_preserve_order by exact Hflag. nia.
  - rewrite permute_length_all_orders by exact Hflag. nia.
Qed.

(** ** Whitespace-only input *)

Lemma lstrip_whitespace : forall s,
  Forall (fun c => is_whitespace c = true) s -> lstrip s = [].
Proof.
  induction 1 as [|c s Hc _ IH]; simpl; [reflexivity|].
  rewrite Hc. exact IH.
Qed.

Lemma strip_whitespace : forall s,
  Forall (fun c => is_whitespace c = true) s -> strip s = [].
Proof.
  intros s H. unfold strip, rstrip. rewrite (lstrip_whitespace H).
  reflexivity.
Qed.

Lemma count_words_whitespace : forall s in_word,
  Forall (fun c => is_whitespace c = true) s ->
  count_words_from in_word s = O.
Proof.
  intros s in_word H. revert in_word.
  induction H as [|c s Hc _ IH]; intros in_word; simpl; [reflexivity|].
  rewrite Hc. apply IH.
Qed.

(** C10.  For a text of whitespace characters only (the empty text
    included), [normalize] without punctuation pre-processing returns the
    empty string, and all it does is to set the log level and to log the
    stripped text at debug level: neither grammar is applied. *)
Theorem normalize_whitespace_only :
  forall self text verbose punct_post_process,
    Forall (fun c => is_whitespace c = true) text ->
    normalize self text verbose false punct_post_process
    = ([Set_level verbose; Log_debug []], Ok []).
Proof.
  intros self text verbose post Hws. unfold normalize.
  unfold count_words. rewrite (count_words_whitespace false Hws).
  rewrite (strip_whitespace Hws). reflexivity.
Qed.

Lemma normalize_whitespace_only_witness :
  normalize may_normalizer [32; 9; 10; 160; 8195]%N true false true
  = ([Set_level true; Log_debug []], Ok []).
Proof.
  apply (@normalize_whitespace_only may_normalizer [32; 9; 10; 160; 8195]%N
           true true).
  repeat constructor.
Defined.

(** ** Shortest paths *)

Lemma shortestpath_none : forall l, shortestpath l = None -> l = [].
Proof.
  destruct l as [|p r]; simpl; [reflexivity|].
  destruct (shortestpath r) as [q|]; [|discriminate].
  destruct (Qle_bool (weight p) (weight q)); discriminate.
Qed.

Lemma has_states_false : forall l, has_states l = false -> l = [].
Proof. destruct l; simpl; [reflexivity|discriminate]. Qed.

Lemma shortestpath_spec : forall l p,
  shortestpath l = Some p ->
  In p l /\ forall q, In q l -> (weight p <= weight q)%Q.
Proof.
  induction l as [|x r IH]; intros p Hp; simpl in Hp; [discriminate|].
  destruct (shortestpath r) as [m|] eqn:Hr.
  - destruct (IH m eq_refl) as [Hin Hmin].
    destruct (Qle_bool (weight x) (weight m)) eqn:Hle; inversion Hp; subst p.
    + apply Qle_bool_iff in Hle. split; [left; reflexivity|].
      intros q [E|Hq]; [subst q; apply Qle_refl|].
      eapply Qle_trans; [exact Hle|]. apply Hmin. exact Hq.
    + assert (Hlt : (weight m < weight x)%Q).
      { apply Qnot_le_lt. intros H. apply Qle_bool_iff in H. congruence. }
      split; [right; exact Hin|].
      intros q [E|Hq]; [subst q; apply Qlt_le_weak; exact Hlt|].
      apply Hmin. exact Hq.
  - inversion Hp; subst p. apply shortestpath_none in Hr. subst r.
    split; [left; reflexivity|].
    intros q [E|[]]. subst q. apply Qle_refl.
Qed.

Lemma shortestpath_some : forall l,
  l <> [] -> exists p, shortestpath l = Some p.
Proof.
  intros l Hne. destruct (shortestpath l) as [p|] eqn:E.
  - exists p. reflexivity.
  - apply shortestpath_none in E. contradiction.
Qed.

(** C7 (as amended).  When the lattice holds two taggings [A] and [B]
    with [A] lighter than [B], the tag selection succeeds and returns the
    decoding of a minimum-weight path [P] of the lattice: [P] is at most
    as heavy as [A], so it is never [B], and it is [A] as soon as every
    other tagging of the lattice is heavier than [A]. *)
Theorem select_tag_minimum_weight : forall (l : lattice) (A B : path),
  In A l -> In B l -> (weight A < weight B)%Q ->
  exists P,
    select_tag l = Ok (output P)
    /\ In P l
    /\ (forall C, In C l -> (weight P <= weight C)%Q)
    /\ P <> B
    /\ ((forall C, In C l -> C = A \/ (weight A < weight C)%Q) -> P = A).
Proof.
  intros l A B HA HB Hlt.
  destruct (@shortestpath_some l) as (P & HP).
  { intros E. subst l. inversion HA. }
  destruct (shortestpath_spec _ HP) as (Hin & Hmin).
  exists P. unfold select_tag, shortest_string. rewrite HP.
  split; [reflexivity|]. split; [exact Hin|]. split; [exact Hmin|]. split.
  - intros E. subst P. specialize (Hmin A HA).
    apply (Qlt_irrefl (weight A)). eapply Qlt_le_trans; eassumption.
  - intros Hothers. destruct (Hothers P Hin) as [E|Hheavier]; [exact E|].
    exfalso. specialize (Hmin A HA).
    apply (Qlt_irrefl (weight A)). eapply Qlt_le_trans; eassumption.
Qed.

Lemma select_tag_minimum_weight_witness :
  exists P,
    select_tag (tagger_fst may_normalizer (lit "1")) = Ok (output P)
    /\ In P (tagger_fst may_normalizer (lit "1"))
    /\ (forall C, In C (tagger_fst may_normalizer (lit "1")) ->
        (weight P <= weight C)%Q)
    /\ P <> {| output := word_tagging (lit "1"); weight := 100 |}
    /\ ((forall C, In C (tagger_fst may_normalizer (lit "1")) ->
         C = {| output := may_tagging (lit "1"); weight := 1.09 |}
         \/ (weight {| output := may_tagging (lit "1"); weight := 1.09 |}
             < weight C)%Q) ->
        P = {| output := may_tagging (lit "1"); weight := 1.09 |}).
Proof.
  apply (@select_tag_minimum_weight
           (tagger_fst may_normalizer (lit "1"))
           {| output := may_tagging (lit "1"); weight := 1.09 |}
           {| output := word_tagging (lit "1"); weight := 100 |}).
  - right. left. reflexivity.
  - left. reflexivity.
  - reflexivity.
Defined.

(** C7 as stated fails when the lattice holds a third, lighter tagging:
    of three taggings with weights 1, 2 and 3 the selection returns the
    decoding of the first, not that of the second, although the second is
    lighter than the third. *)
Lemma select_tag_third_candidate :
  let C := {| output := lit "c"; weight := 1 |} in
  let A := {| output := lit "a"; weight := 2 |} in
  let B := {| output := lit "b"; weight := 3 |} in
  In A [C; A; B] /\ In B [C; A; B] /\ (weight A < weight B)%Q
  /\ select_tag [C; A; B] = Ok (output C)
  /\ select_tag [C; A; B] <> Ok (output A).
Proof.
  cbv zeta. repeat split.
  - right. left. reflexivity.
  - right. right. left. reflexivity.
  - discriminate.
Qed.

(** ** The loop over the chunks *)

Lemma first_accepted_or_none : forall (A : Type) (f : A -> bool) (l : list A),
  Forall (fun x => f x = false) l
  \/ exists before v after,
       l = before ++ v :: after
       /\ Forall (fun x => f x = false) before /\ f v = true.
Proof.
  intros A f. induction l as [|x l IH].
  - left. constructor.
  - destruct (f x) eqn:Hx.
    + right. exists [], x, l. repeat split; auto.
    + destruct IH as [Hall|(before & v & after & E & Hb & Hv)].
      * left. constructor; assumption.
      * right. exists (x :: before), v, after. subst l.
        repeat split; auto.
Qed.

Lemma helper_nonempty : forall tokens prefix, _helper prefix tokens <> [].
Proof.
  induction tokens as [|t tokens IH]; intros prefix; simpl; [discriminate|].
  pose proof (permute_nonempty t) as Hne.
  destruct (_permute t) as [|o os]; [contradiction|]. simpl.
  intros E. apply app_eq_nil in E as [E _]. exact (IH _ E).
Qed.

Lemma generate_permutations_nonempty : forall s, generate_permutations s <> [].
Proof. intros s. apply helper_nonempty. Qed.

Lemma try_variants_accept : forall self before v after prev,
  Forall (fun x => accepted self x = false) before ->
  accepted self v = true ->
  try_variants self (before ++ v :: after) prev
  = (map (fun x => Verbalizer_applied (escape x)) (before ++ [v]),
     Ok (Some (verbalizer_fst self (escape v)))).
Proof.
  intros self before v after prev Hb Hv. revert prev.
  induction Hb as [|x before Hx _ IH]; intros prev; simpl.
  - unfold accepted in Hv. rewrite Hv. reflexivity.
  - unfold accepted in Hx. rewrite Hx. rewrite IH. reflexivity.
Qed.

Lemma try_variants_reject : forall self variants prev,
  Forall (fun x => accepted self x = false) variants ->
  variants <> [] ->
  try_variants self variants prev
  = (map (fun x => Verbalizer_applied (escape x)) variants, Ok (Some [])).
Proof.
  intros self variants prev Hall. revert prev.
  induction Hall as [|x variants Hx Hall IH]; intros prev Hne;
    [contradiction|].
  simpl. unfold accepted in Hx. rewrite Hx.
  destruct variants as [|y variants].
  - simpl. rewrite (has_states_false _ Hx). reflexivity.
  - rewrite IH by discriminate. reflexivity.
Qed.

Lemma verbalize_chunk_accept : forall self s,
  verbalizable self s ->
  exists calls o,
    chunk_verbalized self s calls o
    /\ forall text output,
        verbalize_chunk self text s output
        = (calls, Ok (Fall_through (output ++ lit " " ++ o))).
Proof.
  intros self s Hv. unfold verbalizable in Hv.
  destruct (first_accepted_or_none (accepted self) (generate_permutations s))
    as [Hall|(before & v & after & E & Hb & Hacc)].
  - exfalso. apply Exists_exists in Hv as (x & Hin & Hx).
    rewrite Forall_forall in Hall. rewrite (Hall x Hin) in Hx. discriminate.
  - destruct (@shortestpath_some (verbalizer_fst self (escape v))) as (p & Hp).
    { intros E'. unfold accepted in Hacc. rewrite E' in Hacc. discriminate. }
    exists (map (fun x => Verbalizer_applied (escape x)) (before ++ [v])),
           (output p).
    split.
    + exists before, v, after, p. repeat split; auto.
      apply (shortestpath_spec _ Hp).
    + intros text output0. unfold verbalize_chunk.
      rewrite E, (@try_variants_accept self before v after None Hb Hacc).
      unfold select_verbalizer, shortest_string. simpl. rewrite Hp. simpl.
      rewrite !app_nil_r. reflexivity.
Qed.

Lemma verbalize_chunk_reject : forall self text s output,
  unverbalizable self s ->
  verbalize_chunk self text s output
  = (map (fun x => Verbalizer_applied (escape x)) (generate_permutations s)
     ++ [Log_warning (Failed_text text FstOpError)],
     Ok (Return_value text)).
Proof.
  intros self text s output0 Hall. unfold verbalize_chunk.
  rewrite (@try_variants_reject self _ None Hall (@generate_permutations_nonempty s)).
  simpl. rewrite !app_nil_r. reflexivity.
Qed.

Lemma verbalizable_or_not : forall self s,
  verbalizable self s \/ unverbalizable self s.
Proof.
  intros self s. unfold verbalizable, unverbalizable.
  destruct (first_accepted_or_none (accepted self) (generate_permutations s))
    as [Hall|(before & v & after & E & Hb & Hacc)].
  - right. exact Hall.
  - left. rewrite E. apply Exists_app. right. left. exact Hacc.
Qed.

Lemma verbalizable_not_unverbalizable : forall self s,
  verbalizable self s -> unverbalizable self s -> False.
Proof.
  intros self s Hv Hu. apply Exists_exists in Hv as (x & Hin & Hx).
  unfold unverbalizable in Hu. rewrite Forall_forall in Hu.
  rewrite (Hu x Hin) in Hx. discriminate.
Qed.


(** When some chunk cannot be verbalized the loop returns the text it
    was given, after a warning. *)
Lemma verbalize_chunks_reject : forall self text chunks output,
  Exists (unverbalizable self) chunks ->
  exists events,
    verbalize_chunks self text chunks output
    = (events ++ [Log_warning (Failed_text text FstOpError)],
       Ok (Return_value text)).
Proof.
  intros self text chunks. induction chunks as [|s chunks IH];
    intros output0 Hex; [inversion Hex|].
  cbn [verbalize_chunks].
  destruct (verbalizable_or_not self s) as [Hv|Hu].
  - destruct (verbalize_chunk_accept Hv) as (calls & o & _ & Hchunk).
    rewrite Hchunk. unfold bind.
    assert (Hex' : Exists (unverbalizable self) chunks).
    { inversion Hex as [? ? Hhere|? ? Hlater]; subst; [|exact Hlater].
      exfalso. eapply verbalizable_not_unverbalizable; eassumption. }
    destruct (IH (output0 ++ lit " " ++ o) Hex') as (events & Hrun).
    rewrite Hrun. exists (calls ++ events). rewrite app_assoc. reflexivity.
  - rewrite (@verbalize_chunk_reject self text s output0 Hu). unfold bind. simpl.
    eexists. rewrite app_nil_r. reflexivity.
Qed.


(** [normalize] up to the loop over the chunks. *)
Lemma normalize_unfold :
  forall self text verbose (punct_pre_process punct_post_process : bool)
         c text0 tagged_text tokens chunks,
    strip (if punct_pre_process then pre_process self text else text)
    = c :: text0 ->
    let text' := escape (c :: text0) in
    select_tag (tagger_fst self text') = Ok tagged_text ->
    parser self tagged_text = Ok tokens ->
    _split_tokens_to_reduce_number_of_permutations
      (max_number_of_permutations_per_split self) tokens = Ok chunks ->
    normalize self text verbose punct_pre_process punct_post_process
    = match verbalize_chunks self text' chunks [] return action str with
      | (events, Raise e) =>
          (events_before_split text text' tagged_text verbose ++ events, Raise e)
      | (events, Ok (Return_value v)) =>
          (events_before_split text text' tagged_text verbose ++ events, Ok v)
      | (events, Ok (Fall_through output)) =>
          (events_before_split text text' tagged_text verbose ++ events
           ++ fst (finish self text (SPACE_DUP_sub (tl output)) punct_post_process),
           snd (finish self text (SPACE_DUP_sub (tl output)) punct_post_process))
      end.
Proof.
  intros self text verbose pre post c text0 tagged tokens chunks
         Hstrip text' Htag Hparse Hsplit.
  unfold normalize. rewrite Hstrip. fold text'.
  unfold find_tags, events_before_split.
  destruct (500 <? count_words text)%nat;
    cbn [emit ret bind lift app]; rewrite Htag; cbn [bind lift app];
    rewrite Hparse; cbn [bind lift app]; rewrite Hsplit; cbn [bind lift app];
    destruct (verbalize_chunks self text' chunks []) as [events [[v|o]|e]];
    cbn [bind ret app];
    rewrite ?app_nil_r; try reflexivity;
    destruct (finish self text (SPACE_DUP_sub (tl o)) post) as [events' r];
    reflexivity.
Qed.


Lemma SPACE_DUP_sub_cons2 : forall c c' r,
  SPACE_DUP_sub (c :: c' :: r)
  = if (N.eqb c 32 && N.eqb c' 32)%bool then SPACE_DUP_sub (c' :: r)
    else c :: SPACE_DUP_sub (c' :: r).
Proof. reflexivity. Qed.

Lemma single_spaced_cons2 : forall c c' r,
  single_spaced (c :: c' :: r)
  = (negb (N.eqb c 32 && N.eqb c' 32) && single_spaced (c' :: r))%bool.
Proof. reflexivity. Qed.


Lemma SPACE_DUP_sub_fixed : forall s,
  single_spaced s = true -> SPACE_DUP_sub s = s.
Proof.
  induction s as [|c r IH]; intros H; [reflexivity|].
  destruct r as [|c' r]; [reflexivity|].
  rewrite single_spaced_cons2 in H. apply andb_true_iff in H as [H1 H2].
  rewrite SPACE_DUP_sub_cons2. apply negb_true_iff in H1. rewrite H1.
  f_equal. apply IH. exact H2.
Qed.

(** [normalize] when the classification fails. *)
Lemma normalize_empty_lattice :
  forall self text verbose (punct_pre_process punct_post_process : bool)
         c text0,
    strip (if punct_pre_process then pre_process self text else text)
    = c :: text0 ->
    tagger_fst self (escape (c :: text0)) = [] ->
    normalize self text verbose punct_pre_process punct_post_process
    = (events_before_tag text (escape (c :: text0)) verbose, Raise FstOpError).
Proof.
  intros self text verbose pre post c text0 Hstrip Hempty.
  unfold normalize. rewrite Hstrip. unfold find_tags, events_before_tag.
  destruct (500 <? count_words text)%nat;
    cbn [emit ret bind lift app]; rewrite Hempty; reflexivity.
Qed.

Lemma normalize_parser_error :
  forall self text verbose (punct_pre_process punct_post_process : bool)
         c text0 tagged_text e,
    strip (if punct_pre_process then pre_process self text else text)
    = c :: text0 ->
    select_tag (tagger_fst self (escape (c :: text0))) = Ok tagged_text ->
    parser self tagged_text = Raise e ->
    normalize self text verbose punct_pre_process punct_post_process
    = (events_before_split text (escape (c :: text0)) tagged_text verbose,
       Raise e).
Proof.
  intros self text verbose pre post c text0 tagged e Hstrip Htag Hparse.
  unfold normalize. rewrite Hstrip. unfold find_tags, events_before_split.
  destruct (500 <? count_words text)%nat;
    cbn [emit ret bind lift app]; rewrite Htag; cbn [bind lift app];
    rewrite Hparse; reflexivity.
Qed.

Lemma normalize_split_error :
  forall self text verbose (punct_pre_process punct_post_process : bool)
         c text0 tagged_text tokens e,
    strip (if punct_pre_process then pre_process self text else text)
    = c :: text0 ->
    select_tag (tagger_fst self (escape (c :: text0))) = Ok tagged_text ->
    parser self tagged_text = Ok tokens ->
    _split_tokens_to_reduce_number_of_permutations
      (max_number_of_permutations_per_split self) tokens = Raise e ->
    normalize self text verbose punct_pre_process punct_post_process
    = (events_before_split text (escape (c :: text0)) tagged_text verbose,
       Raise e).
Proof.
  intros self text verbose pre post c text0 tagged tokens e
         Hstrip Htag Hparse Hsplit.
  unfold normalize. rewrite Hstrip. unfold find_tags, events_before_split.
  destruct (500 <? count_words text)%nat;
    cbn [emit ret bind lift app]; rewrite Htag; cbn [bind lift app];
    rewrite Hparse; cbn [bind lift app]; rewrite Hsplit; reflexivity.
Qed.

(** C1 (as amended).  On a text that is not empty once stripped,
    [normalize] does not catch what the classification, the parser or the
    split raise: an empty classification lattice, a parser error and an
    error of the split reach the caller.  When these three stages succeed
    and some chunk has no variant the verbalizer accepts, [normalize]
    does not raise: it logs a warning and returns the text it classified,
    that is the input pre-processed (when asked), stripped and escaped;
    this is the input itself when it is neither pre-processed nor changed
    by stripping and escaping. *)
Theorem normalize_failure_behaviour :
  forall self text verbose (punct_pre_process punct_post_process : bool)
         c text0,
    strip (if punct_pre_process then pre_process self text else text)
    = c :: text0 ->
    let text' := escape (c :: text0) in
    let result :=
      normalize self text verbose punct_pre_process punct_post_process in
    (tagger_fst self text' = [] ->
     result = (events_before_tag text text' verbose, Raise FstOpError))
    /\ (forall tagged_text,
         select_tag (tagger_fst self text') = Ok tagged_text ->
         (forall e,
            parser self tagged_text = Raise e ->
            result = (events_before_split text text' tagged_text verbose,
                      Raise e))
         /\ (forall tokens,
              parser self tagged_text = Ok tokens ->
              (forall e,
                 _split_tokens_to_reduce_number_of_permutations
                   (max_number_of_permutations_per_split self) tokens
                 = Raise e ->
                 result = (events_before_split text text' tagged_text verbose,
                           Raise e))
              /\ (forall chunks,
                   _split_tokens_to_reduce_number_of_permutations
                     (max_number_of_permutations_per_split self) tokens
                   = Ok chunks ->
                   Exists (unverbalizable self) chunks ->
                   exists events,
                     result
                     = (events ++ [Log_warning (Failed_text text' FstOpError)],
                        Ok text'))))
    /\ (punct_pre_process = false -> strip text = text ->
        escape text = text -> text' = text).
Proof.
  intros self text verbose pre post c text0 Hstrip text' result.
  split; [|split].
  - intros Hempty. apply normalize_empty_lattice; assumption.
  - intros tagged Htag. split.
    + intros e Hparse. eapply normalize_parser_error; eassumption.
    + intros tokens Hparse. split.
      * intros e Hsplit. eapply normalize_split_error; eassumption.
      * intros chunks Hsplit Hex. unfold result.
        rewrite (normalize_unfold self text verbose pre post Hstrip
                   Htag Hparse Hsplit).
        destruct (@verbalize_chunks_reject self text' chunks [] Hex)
          as (events & Hrun).
        fold text'. rewrite Hrun.
        exists (events_before_split text text' tagged verbose ++ events).
        rewrite app_assoc. reflexivity.
  - intros Hpre Hs He. subst pre. unfold text'. rewrite <- Hstrip, Hs.
    exact He.
Qed.

Lemma normalize_failure_behaviour_witness :
  exists events,
    normalize (word_normalizer (lit "a")) (lit " b") false false false
    = (events ++ [Log_warning (Failed_text (lit "b") FstOpError)],
       Ok (lit "b")).
Proof.
  pose proof (@normalize_failure_behaviour
                (word_normalizer (lit "a")) (lit " b") false false false
                98%N [] eq_refl) as H.
  cbv zeta in H. destruct H as (_ & H & _).
  destruct (H (word_tagging (lit "b")) eq_refl) as (_ & Hparsed).
  destruct (Hparsed word_tokens eq_refl) as (_ & Hsplit).
  apply (Hsplit [word_tokens] eq_refl).
  constructor. unfold unverbalizable. vm_compute. repeat constructor.
Defined.

(** C1 as stated fails on both counts: a classifier that accepts nothing
    makes [normalize] raise, and when the verbalization fails the text
    returned is the stripped one, not the input. *)
Lemma normalize_raises_or_returns_stripped_text :
  normalize deaf_normalizer (lit "a") false false false
  = ([Set_level false; Tagger_applied (lit "a")], Raise FstOpError)
  /\ snd (normalize (word_normalizer (lit "a")) (lit " b") false false false)
     = Ok (lit "b")
  /\ lit "b" <> lit " b".
Proof. repeat split. discriminate. Qed.



(** C3 (as amended).  For every token (dictionary) the estimate is the
    factorial of the number of its fields times the product of the
    estimates of its nested children; the [preserve_order] flag counts as
    one of the fields and changes nothing else.  The estimate is an upper
    bound of the number of serializations [_permute] generates, and for a
    dictionary with the flag [_permute] keeps the order of the fields, so
    that this number is the product of the numbers for its nested
    children. *)
Theorem estimate_factorial_times_children : forall d,
  _estimate_number_of_permutations_in_nested_dict d
  = factorial (length d) * children_product d
  /\ Z.of_nat (length (_permute d))
     <= _estimate_number_of_permutations_in_nested_dict d
  /\ (has_key PRESERVE_ORDER_KEY d = true ->
      length (_permute d) = children_permutations d).
Proof.
  intros d. split; [|split].
  - rewrite estimate_unfold, estimate_items_product. lia.
  - apply (@permute_value_bounded (VDict d)). reflexivity.
  - apply permute_length_preserve_order.
Qed.

Lemma estimate_factorial_times_children_witness :
  length (_permute flagged_fields) = children_permutations flagged_fields.
Proof.
  apply (proj2 (proj2 (estimate_factorial_times_children flagged_fields))).
  reflexivity.
Defined.

(** C3 as stated fails for a token with the flag: its estimate is not 1,
    although a single serialization is generated for it. *)
Lemma estimate_counts_preserve_order :
  has_key PRESERVE_ORDER_KEY flagged_fields = true
  /\ _estimate_number_of_permutations_in_nested_dict flagged_fields = 2
  /\ _estimate_number_of_permutations_in_nested_dict flagged_token = 2
  /\ length (_permute flagged_token) = 1%nat.
Proof. repeat split. Qed.

(** ** The joiner-hyphen rewrite *)

Lemma joiner_rewrite_length : forall s prev,
  length (cdrewrite_char 45 (lit " ") left_ctx right_ctx prev s) = length s.
Proof.
  induction s as [|c r IH]; intros prev; [reflexivity|].
  cbn [cdrewrite_char]. rewrite length_app, IH.
  destruct (_ && _ && _)%bool; reflexivity.
Qed.

Lemma joiner_rewrite_nth : forall s prev i,
  nth_error (cdrewrite_char 45 (lit " ") left_ctx right_ctx prev s) i
  = match nth_error s i with
    | None => None
    | Some c =>
        Some (if (N.eqb c 45
                  && match i with
                     | O => left_ctx_of prev
                     | S j => match nth_error s j with
                              | Some p => left_ctx p
                              | None => false
                              end
                     end
                  && match nth_error s (S i) with
                     | Some n => hi_block n
                     | None => false
                     end)%bool
              then 32%N else c)
    end.
Proof.
  induction s as [|c r IH]; intros prev i.
  - destruct i; reflexivity.
  - cbn [cdrewrite_char]. change (lit " ") with [32%N] in *.
    fold (left_ctx_of prev).
    replace (match r with n :: _ => right_ctx n | [] => false end)
      with (match nth_error (c :: r) 1 with
            | Some n => hi_block n
            | None => false
            end) by (destruct r; reflexivity).
    match goal with
    | |- context [if ?b then [32%N] else [c]] => remember b as cond eqn:Hcond
    end.
    destruct i as [|j].
    + cbn [nth_error] in Hcond |- *. rewrite <- Hcond.
      destruct cond; reflexivity.
    + assert (Hc : cond = true -> c = 45%N).
      { intros E. rewrite E in Hcond. symmetry in Hcond.
        apply andb_true_iff in Hcond as [Hcond _].
        apply andb_true_iff in Hcond as [Hc _]. apply N.eqb_eq. exact Hc. }
      clear Hcond.
      destruct cond; cbn [app nth_error last_written rev]; rewrite IH;
        destruct (nth_error r j) as [x|] eqn:Hx; try reflexivity;
        destruct j as [|j']; try reflexivity.
      rewrite (Hc eq_refl). reflexivity.
Qed.

Lemma hi_block_not_hyphen : forall x, hi_block x = true -> N.eqb x 45 = false.
Proof.
  intros x H. unfold hi_block in H. apply andb_true_iff in H as [H _].
  apply N.leb_le in H. apply N.eqb_neq. lia.
Qed.

(** C8.  The rewrite keeps the length of the string and changes a
    character exactly when it is a hyphen between a digit and a character
    of the block, which then becomes a space; so the text [3.14-X], with
    [X] a character of the block, becomes [3.14 X], and the text [3.14-2]
    is left as it is. *)
Theorem joiner_hyphen_to_space_between_digit_and_block :
  forall X, hi_block X = true ->
    (forall s,
       length (joiner_hyphen_to_space s) = length s
       /\ forall i,
            nth_error (joiner_hyphen_to_space s) i
            = if joiner_hyphen_at s i then Some 32%N else nth_error s i)
    /\ joiner_hyphen_to_space (lit "3.14-" ++ [X]) = lit "3.14 " ++ [X]
    /\ joiner_hyphen_to_space (lit "3.14-2") = lit "3.14-2".
Proof.
  intros X HX. split; [|split].
  - intros s. split; [apply joiner_rewrite_length|].
    intros i. unfold joiner_hyphen_to_space. rewrite joiner_rewrite_nth.
    unfold joiner_hyphen_at.
    destruct (nth_error s i) as [c|]; [|reflexivity].
    destruct i as [|j]; cbn [left_ctx_of];
      match goal with
      | |- context [if ?b then Some _ else Some _] => destruct b
      end; reflexivity.
  - unfold joiner_hyphen_to_space. cbn. unfold right_ctx. rewrite HX.
    rewrite (hi_block_not_hyphen _ HX). reflexivity.
  - reflexivity.
Qed.

Lemma joiner_hyphen_to_space_between_digit_and_block_witness :
  (forall s,
     length (joiner_hyphen_to_space s) = length s
     /\ forall i,
          nth_error (joiner_hyphen_to_space s) i
          = if joiner_hyphen_at s i then Some 32%N else nth_error s i)
  /\ joiner_hyphen_to_space (lit "3.14-" ++ [2357%N]) = lit "3.14 " ++ [2357%N]
  /\ joiner_hyphen_to_space (lit "3.14-2") = lit "3.14-2".
Proof.
  apply (@joiner_hyphen_to_space_between_digit_and_block 2357%N).
  reflexivity.
Defined.

(** ** The serialization in the order of the fields *)

Lemma serialize_items_concat : forall d,
  serialize_items d = concat (map serialize_item d).
Proof.
  intros d. unfold serialize_items. cbn [serialize_value].
  induction d as [|[k v] d IH]; [reflexivity|].
  cbn [map concat]. rewrite <- IH. destruct v; reflexivity.
Qed.

Lemma join_product_two_head : forall h t x,
  exists others, join_product [h :: t; [x]] = (h ++ x) :: others.
Proof.
  intros h t x. unfold join_product. cbn. rewrite app_nil_r.
  eexists. reflexivity.
Qed.

Lemma join_product_four_head : forall h t a r rs b,
  exists others,
    join_product [h :: t; [a]; r :: rs; [b]] = (h ++ a ++ r ++ b) :: others.
Proof.
  intros h t a r rs b. unfold join_product. cbn. rewrite app_nil_r.
  eexists. reflexivity.
Qed.

(** The head of what the loop over the items of one permutation
    builds. *)
Lemma fold_permute_step_head : forall d h t,
  Forall (fun kv => forall d', snd kv = VDict d' ->
                     exists others, _permute d' = serialize_items d' :: others)
         d ->
  exists others,
    fold_left permute_step (with_permutations d) (h :: t)
    = (h ++ concat (map serialize_item d)) :: others.
Proof.
  induction d as [|[k v] d IH]; intros h t Hall.
  - exists t. simpl. rewrite app_nil_r. reflexivity.
  - pose proof (Forall_inv Hall) as Hv. pose proof (Forall_inv_tail Hall) as Hd.
    cbn [with_permutations map fold_left fst snd].
    fold (with_permutations d).
    assert (Hstep : exists others,
              permute_step (h :: t) (k, v, permute_value v)
              = (h ++ serialize_item (k, v)) :: others).
    { destruct v as [s|d'|b]; cbn [permute_step serialize_item].
      - apply join_product_two_head.
      - destruct (Hv d' eq_refl) as (rs & Hrec). unfold _permute in Hrec.
        rewrite Hrec.
        destruct (join_product_four_head h t (lit " " ++ k ++ lit " { ")
                    (serialize_items d') rs (lit " } ")) as (o & Ho).
        exists o. etransitivity; [exact Ho|].
        rewrite <- !app_assoc. reflexivity.
      - apply join_product_two_head. }
    destruct Hstep as (others & Hstep). rewrite Hstep.
    destruct (IH (h ++ serialize_item (k, v)) others Hd) as (others' & E).
    exists others'. etransitivity; [exact E|]. cbn [map concat].
    rewrite <- app_assoc. reflexivity.
Qed.

Lemma permute_value_head : forall v d,
  v = VDict d -> exists others, _permute d = serialize_items d :: others.
Proof.
  induction v as [s|b|d0 IH] using value_nested_ind; intros d E;
    try discriminate.
  inversion E; subst d0. clear E.
  assert (Hone : exists others,
            permute_one (with_permutations d) = serialize_items d :: others).
  { unfold permute_one. destruct (@fold_permute_step_head d [] []) as (o & Ho).
    - eapply Forall_impl; [|exact IH]. intros [k v] Hv d' E'. exact (Hv d' E').
    - exists o. etransitivity; [exact Ho|].
      rewrite serialize_items_concat. reflexivity. }
  destruct Hone as (others & Hone).
  rewrite permute_unfold.
  destruct (has_key PRESERVE_ORDER_KEY d).
  - cbn [flat_map]. rewrite Hone. eexists. reflexivity.
  - destruct (permutations_head (with_permutations d)) as (ps & Hp).
    rewrite Hp. cbn [flat_map]. rewrite Hone. eexists. reflexivity.
Qed.

Lemma helper_head : forall tokens prefix,
  exists others,
    _helper prefix tokens
    = (prefix ++ concat (map serialize_items tokens)) :: others.
Proof.
  induction tokens as [|t tokens IH]; intros prefix.
  - exists []. simpl. rewrite app_nil_r. reflexivity.
  - cbn [_helper]. destruct (@permute_value_head (VDict t) t eq_refl)
      as (os & Ht).
    rewrite Ht. cbn [flat_map].
    destruct (IH (prefix ++ serialize_items t)) as (others & E).
    rewrite E. cbn [map concat]. rewrite <- app_assoc. eexists. reflexivity.
Qed.

(** The first string [generate_permutations] yields is the tokens
    written in the order of their fields. *)
Lemma serialize_in_order : forall tokens,
  serialize tokens = concat (map serialize_items tokens).
Proof.
  intros tokens. unfold serialize, generate_permutations.
  destruct (helper_head tokens []) as (others & E). rewrite E. reflexivity.
Qed.

(** ** The parser on what the serializer writes *)

Lemma is_ident_char_range : forall c,
  is_ident_char c = true ->
  (65 <= c <= 90 \/ 97 <= c <= 122 \/ c = 95)%N.
Proof.
  intros c H. unfold is_ident_char in H.
  apply orb_true_iff in H as [H|H]; [apply orb_true_iff in H as [H|H]|].
  - apply andb_true_iff in H as [H1 H2].
    apply N.leb_le in H1, H2. lia.
  - apply andb_true_iff in H as [H1 H2].
    apply N.leb_le in H1, H2. lia.
  - apply N.eqb_eq in H. lia.
Qed.

Lemma ident_char_not : forall c x,
  is_ident_char c = true -> is_ident_char x = false -> N.eqb c x = false.
Proof.
  intros c x Hc Hx. apply N.eqb_neq. intros E. subst x. congruence.
Qed.

Lemma skip_spaces_idem : forall s, skip_spaces (skip_spaces s) = skip_spaces s.
Proof.
  induction s as [|c r IH]; [reflexivity|]. simpl.
  destruct (N.eqb c 32) eqn:E; [exact IH|]. simpl. rewrite E. reflexivity.
Qed.

Lemma skip_spaces_ident : forall c r,
  is_ident_char c = true -> skip_spaces (c :: r) = c :: r.
Proof.
  intros c r H. simpl.
  rewrite (@ident_char_not c 32%N H eq_refl). reflexivity.
Qed.

Lemma skip_spaces_head : forall s,
  match skip_spaces s with
  | [] => True
  | c :: _ => N.eqb c 32 = false
  end.
Proof.
  induction s as [|c r IH]; simpl; [exact I|].
  destruct (N.eqb c 32) eqn:E; [exact IH|exact E].
Qed.

Lemma read_ident_app : forall k rest,
  forallb is_ident_char k = true ->
  match rest with
  | [] => True
  | c :: _ => is_ident_char c = false
  end ->
  read_ident (k ++ rest) = (k, rest).
Proof.
  induction k as [|c k IH]; intros rest Hk Hrest.
  - destruct rest as [|c r]; [reflexivity|]. simpl. rewrite Hrest.
    reflexivity.
  - simpl in Hk. apply andb_true_iff in Hk as [Hc Hk].
    simpl. rewrite Hc, (IH rest Hk Hrest). reflexivity.
Qed.

Lemma read_ident_chars : forall s k rest,
  read_ident s = (k, rest) ->
  forallb is_ident_char k = true /\ s = k ++ rest.
Proof.
  induction s as [|c r IH]; intros k rest H; simpl in H.
  - inversion H; subst. split; reflexivity.
  - destruct (is_ident_char c) eqn:Hc.
    + destruct (read_ident r) as [k' rest'] eqn:E. inversion H; subst.
      destruct (IH k' rest eq_refl) as [Hk Es]. split.
      * simpl. rewrite Hc. exact Hk.
      * simpl. rewrite <- Es. reflexivity.
    + inversion H; subst. split; reflexivity.
Qed.

Lemma read_value_app : forall v rest,
  quote_space_free v = true ->
  read_value (v ++ 34%N :: 32%N :: rest) = Some (v, 32%N :: rest).
Proof.
  induction v as [|c v IH]; intros rest Hv; [reflexivity|].
  cbn [quote_space_free] in Hv. apply andb_true_iff in Hv as [Hc Hv].
  apply negb_true_iff in Hc.
  cbn [app read_value].
  assert (Hopen : closes_value (c :: v ++ 34%N :: 32%N :: rest) = false).
  { destruct v as [|c' v']; [|exact Hc].
    simpl. destruct (N.eqb c 34); reflexivity. }
  rewrite Hopen, (IH rest Hv). reflexivity.
Qed.

Lemma read_value_head : forall s c v rest,
  read_value s = Some (c :: v, rest) -> exists r, s = c :: r.
Proof.
  intros [|x r] c v rest H; [discriminate|].
  cbn [read_value] in H. destruct (closes_value (x :: r)); [discriminate|].
  destruct (read_value r) as [[v' rest']|]; [|discriminate].
  inversion H; subst. exists r. reflexivity.
Qed.

Lemma read_value_free : forall s v rest,
  read_value s = Some (v, rest) -> quote_space_free v = true.
Proof.
  induction s as [|c r IH]; intros v rest H; [discriminate|].
  cbn [read_value] in H.
  destruct (closes_value (c :: r)) eqn:Hc.
  - inversion H; subst. reflexivity.
  - destruct (read_value r) as [[v' rest']|] eqn:Er; [|discriminate].
    inversion H; subst. cbn [quote_space_free].
    rewrite (IH v' rest eq_refl), andb_true_r. apply negb_true_iff.
    destruct v' as [|c' v'']; [simpl; reflexivity|].
    destruct (read_value_head _ Er) as (r' & E). subst r. exact Hc.
Qed.

Lemma strip_prefix_app : forall p rest, strip_prefix p (p ++ rest) = Some rest.
Proof.
  induction p as [|x p IH]; intros rest; simpl.
  - destruct rest; reflexivity.
  - rewrite N.eqb_refl. apply IH.
Qed.

(** Ordered dictionaries built item by item. *)

Lemma odict_set_fresh : forall d k v,
  ~ In k (map fst d) -> odict_set d k v = d ++ [(k, v)].
Proof.
  induction d as [|[k' v'] d IH]; intros k v Hk; [reflexivity|].
  simpl. destruct (str_eqb k' k) eqn:E.
  - apply str_eqb_eq in E. exfalso. apply Hk. left. exact E.
  - rewrite IH; [reflexivity|]. intros Hin. apply Hk. right. exact Hin.
Qed.

Lemma odict_of_items_from : forall items acc,
  NoDup (map fst (acc ++ items)) ->
  fold_left (fun d kv => odict_set d (fst kv) (snd kv)) items acc
  = acc ++ items.
Proof.
  induction items as [|[k v] items IH]; intros acc Hnd; simpl.
  - symmetry. apply app_nil_r.
  - rewrite odict_set_fresh.
    + rewrite IH; rewrite <- app_assoc; [reflexivity|exact Hnd].
    + rewrite map_app in Hnd. simpl in Hnd.
      apply NoDup_remove_2 in Hnd. intros Hin. apply Hnd.
      apply in_or_app. left. exact Hin.
Qed.

Lemma odict_of_items_nodup : forall d,
  NoDup (map fst d) -> odict_of_items d = d.
Proof. intros d H. apply (odict_of_items_from d [] H). Qed.

Lemma odict_set_keys : forall d k v,
  map fst (odict_set d k v)
  = if existsb (fun kv => str_eqb (fst kv) k) d
    then map fst d else map fst d ++ [k].
Proof.
  induction d as [|[k' v'] d IH]; intros k v; [reflexivity|].
  simpl. destruct (str_eqb k' k) eqn:E; simpl.
  - apply str_eqb_eq in E. subst k'. reflexivity.
  - rewrite IH. destruct (existsb _ d); reflexivity.
Qed.

Lemma existsb_key_false : forall d k,
  existsb (fun kv : str * value => str_eqb (fst kv) k) d = false ->
  ~ In k (map fst d).
Proof.
  induction d as [|[k' v'] d IH]; intros k H; simpl in *; [tauto|].
  apply orb_false_iff in H as [H1 H2]. apply str_eqb_neq in H1.
  intros [E|Hin]; [contradiction|]. exact (IH k H2 Hin).
Qed.

Lemma odict_set_nodup : forall d k v,
  NoDup (map fst d) -> NoDup (map fst (odict_set d k v)).
Proof.
  intros d k v Hnd. rewrite odict_set_keys.
  destruct (existsb _ d) eqn:E; [exact Hnd|].
  apply existsb_key_false in E.
  eapply Permutation_NoDup; [apply Permutation_cons_append|].
  constructor; assumption.
Qed.

Lemma odict_set_wf : forall d k v,
  Forall wf_item d -> wf_item (k, v) -> Forall wf_item (odict_set d k v).
Proof.
  induction d as [|[k' v'] d IH]; intros k v Hd Hkv; simpl.
  - constructor; [exact Hkv|constructor].
  - destruct (str_eqb k' k).
    + constructor; [exact Hkv|]. exact (Forall_inv_tail Hd).
    + constructor; [exact (Forall_inv Hd)|].
      apply IH; [exact (Forall_inv_tail Hd)|exact Hkv].
Qed.

Lemma odict_of_items_wf : forall items,
  Forall wf_item items ->
  NoDup (map fst (odict_of_items items))
  /\ Forall wf_item (odict_of_items items).
Proof.
  intros items. unfold odict_of_items.
  assert (G : forall acc,
             NoDup (map fst acc) -> Forall wf_item acc ->
             Forall wf_item items ->
             NoDup (map fst (fold_left
                       (fun d kv => odict_set d (fst kv) (snd kv)) items acc))
             /\ Forall wf_item (fold_left
                       (fun d kv => odict_set d (fst kv) (snd kv)) items acc)).
  { induction items as [|[k v] items IH]; intros acc Hnd Hacc Hitems; simpl.
    - split; assumption.
    - apply IH.
      + apply odict_set_nodup. exact Hnd.
      + apply odict_set_wf; [exact Hacc|exact (Forall_inv Hitems)].
      + exact (Forall_inv_tail Hitems). }
  intros H. apply G; [constructor|constructor|exact H].
Qed.

Lemma wf_value_dict : forall d,
  wf_value (VDict d) <-> NoDup (map fst d) /\ Forall wf_item d.
Proof.
  intros d. cbn [wf_value]. split; intros [Hnd Hall]; split; try exact Hnd.
  - clear Hnd. induction d as [|[k v] d IH]; [constructor|].
    destruct Hall as (Hk & Hv & Hr). constructor; [split; assumption|].
    apply IH. exact Hr.
  - clear Hnd. induction d as [|[k v] d IH]; [exact I|].
    pose proof (Forall_inv Hall) as [Hk Hv].
    split; [exact Hk|]. split; [exact Hv|].
    apply IH. exact (Forall_inv_tail Hall).
Qed.

(** One step of the parser. *)
Lemma parse_items_step : forall fuel s,
  parse_items (S fuel) s
  = let s0 := skip_spaces s in
    let (key, s1) := read_ident s0 in
    match key with
    | [] => Some ([], s0)
    | _ :: _ =>
        let continue_with (v : value) (s' : str) :=
          match parse_items fuel s' with
          | Some (items, rest) => Some ((key, v) :: items, rest)
          | None => None
          end in
        match skip_spaces s1 with
        | [] => None
        | c :: s2 =>
            if N.eqb c 58 then
              match skip_spaces s2 with
              | [] => None
              | q :: s3 =>
                  if N.eqb q 34 then
                    match read_value s3 with
                    | Some (v, s4) => continue_with (VStr v) s4
                    | None => None
                    end
                  else
                    match strip_prefix (lit "true") (q :: s3) with
                    | Some s4 => continue_with (VBool true) s4
                    | None => None
                    end
              end
            else if N.eqb c 123 then
              match parse_items fuel s2 with
              | Some (inner, c' :: s3) =>
                  if N.eqb c' 125
                  then continue_with (VDict (odict_of_items inner)) s3
                  else None
              | _ => None
              end
            else None
        end
    end.
Proof. reflexivity. Qed.

Lemma skip_spaces_space : forall s, skip_spaces (32%N :: s) = skip_spaces s.
Proof. reflexivity. Qed.

Lemma skip_spaces_nonspace : forall c s,
  N.eqb c 32 = false -> skip_spaces (c :: s) = c :: s.
Proof. intros c s H. simpl. rewrite H. reflexivity. Qed.

Lemma parse_items_skip : forall fuel s,
  parse_items fuel (skip_spaces s) = parse_items fuel s.
Proof.
  intros [|fuel] s; [reflexivity|].
  rewrite !parse_items_step, skip_spaces_idem. reflexivity.
Qed.

Lemma parse_items_space : forall fuel s,
  parse_items fuel (32%N :: s) = parse_items fuel s.
Proof.
  intros fuel s. rewrite <- (parse_items_skip fuel (32%N :: s)).
  rewrite skip_spaces_space. apply parse_items_skip.
Qed.

Lemma parse_items_end : forall fuel rest,
  stops rest -> parse_items (S fuel) rest = Some ([], skip_spaces rest).
Proof.
  intros fuel rest H. rewrite parse_items_step. cbv zeta.
  unfold stops in H. destruct (skip_spaces rest) as [|c r]; [reflexivity|].
  simpl. rewrite H. reflexivity.
Qed.

Lemma wf_key_cons : forall k,
  wf_key k ->
  exists c k0, k = c :: k0 /\ is_ident_char c = true
               /\ forallb is_ident_char k = true.
Proof.
  intros [|c k0] [Hne Hall]; [contradiction|].
  exists c, k0. split; [reflexivity|]. split; [|exact Hall].
  simpl in Hall. apply andb_true_iff in Hall as [Hc _]. exact Hc.
Qed.

(** The parser reads a name and stops at the character after it. *)
Lemma parse_items_key : forall fuel k c rest,
  wf_key k -> is_ident_char c = false ->
  parse_items (S fuel) (k ++ c :: rest)
  = let continue_with (v : value) (s' : str) :=
      match parse_items fuel s' with
      | Some (items, rest) => Some ((k, v) :: items, rest)
      | None => None
      end in
    match skip_spaces (c :: rest) with
    | [] => None
    | c :: s2 =>
        if N.eqb c 58 then
          match skip_spaces s2 with
          | [] => None
          | q :: s3 =>
              if N.eqb q 34 then
                match read_value s3 with
                | Some (v, s4) => continue_with (VStr v) s4
                | None => None
                end
              else
                match strip_prefix (lit "true") (q :: s3) with
                | Some s4 => continue_with (VBool true) s4
                | None => None
                end
          end
        else if N.eqb c 123 then
          match parse_items fuel s2 with
          | Some (inner, c' :: s3) =>
              if N.eqb c' 125
              then continue_with (VDict (odict_of_items inner)) s3
              else None
          | _ => None
          end
        else None
    end.
Proof.
  intros fuel k c rest Hk Hc.
  destruct (wf_key_cons Hk) as (c0 & k0 & E & Hc0 & Hall).
  rewrite parse_items_step. cbv zeta.
  assert (Hskip : skip_spaces (k ++ c :: rest) = k ++ c :: rest).
  { subst k. apply skip_spaces_ident. exact Hc0. }
  rewrite Hskip, (read_ident_app k (c :: rest) Hall Hc).
  subst k. reflexivity.
Qed.

Lemma parse_items_str : forall fuel k v rest,
  wf_key k -> quote_space_free v = true ->
  parse_items (S fuel) (serialize_item (k, VStr v) ++ rest)
  = match parse_items fuel rest with
    | Some (items, r) => Some ((k, VStr v) :: items, r)
    | None => None
    end.
Proof.
  intros fuel k v rest Hk Hv.
  change (serialize_item (k, VStr v) ++ rest)
    with ((k ++ 58%N :: 32%N :: 34%N :: v ++ [34%N] ++ [32%N]) ++ rest).
  repeat (rewrite <- app_assoc; cbn [app]).
  rewrite (@parse_items_key fuel k 58%N
             (32%N :: 34%N :: v ++ 34%N :: 32%N :: rest) Hk eq_refl).
  cbv zeta.
  rewrite (@skip_spaces_nonspace 58%N _ eq_refl).
  change (N.eqb 58 58) with true. cbv iota.
  rewrite skip_spaces_space, (@skip_spaces_nonspace 34%N _ eq_refl).
  change (N.eqb 34 34) with true. cbv iota.
  rewrite (@read_value_app v rest Hv). cbv iota beta.
  rewrite parse_items_space. reflexivity.
Qed.

Lemma parse_items_bool : forall fuel k b rest,
  wf_key k ->
  parse_items (S fuel) (serialize_item (k, VBool b) ++ rest)
  = match parse_items fuel rest with
    | Some (items, r) => Some ((k, VBool true) :: items, r)
    | None => None
    end.
Proof.
  intros fuel k b rest Hk.
  change (serialize_item (k, VBool b) ++ rest)
    with ((k ++ 58%N :: lit " true ") ++ rest).
  repeat (rewrite <- app_assoc; cbn [app]).
  rewrite (@parse_items_key fuel k 58%N (lit " true " ++ rest) Hk eq_refl).
  cbv zeta.
  rewrite (@skip_spaces_nonspace 58%N _ eq_refl).
  change (N.eqb 58 58) with true. cbv iota.
  change (lit " true " ++ rest) with (32%N :: lit "true" ++ 32%N :: rest).
  rewrite skip_spaces_space.
  change (lit "true" ++ 32%N :: rest)
    with (116%N :: lit "rue" ++ 32%N :: rest).
  rewrite (@skip_spaces_nonspace 116%N _ eq_refl).
  change (N.eqb 116 34) with false. cbv iota.
  change (116%N :: lit "rue" ++ 32%N :: rest)
    with (lit "true" ++ 32%N :: rest).
  rewrite strip_prefix_app, parse_items_space. reflexivity.
Qed.

Lemma parse_items_dict : forall fuel k d inner rest,
  wf_key k ->
  parse_items fuel (serialize_items d ++ lit " } " ++ rest)
  = Some (inner, 125%N :: 32%N :: rest) ->
  parse_items (S fuel) (serialize_item (k, VDict d) ++ rest)
  = match parse_items fuel rest with
    | Some (items, r) => Some ((k, VDict (odict_of_items inner)) :: items, r)
    | None => None
    end.
Proof.
  intros fuel k d inner rest Hk Hinner.
  change (serialize_item (k, VDict d) ++ rest)
    with ((32%N :: k ++ lit " { " ++ serialize_items d ++ lit " } ") ++ rest).
  cbn [app]. rewrite parse_items_space.
  repeat (rewrite <- app_assoc; cbn [app]).
  change (lit " { " ++ serialize_items d ++ lit " } " ++ rest)
    with (32%N :: 123%N :: 32%N :: serialize_items d ++ lit " } " ++ rest).
  rewrite (@parse_items_key fuel k 32%N
             (123%N :: 32%N :: serialize_items d ++ lit " } " ++ rest)
             Hk eq_refl).
  cbv zeta. rewrite skip_spaces_space.
  rewrite (@skip_spaces_nonspace 123%N _ eq_refl).
  change (N.eqb 123 58) with false. change (N.eqb 123 123) with true.
  cbv iota. rewrite parse_items_space, Hinner.
  change (N.eqb 125 125) with true. cbv iota.
  rewrite parse_items_space. reflexivity.
Qed.

Lemma serialize_item_length : forall kv, (1 <= length (serialize_item kv))%nat.
Proof.
  intros [k [s|d|b]]; cbn [serialize_item]; rewrite !length_app; simpl; lia.
Qed.

Lemma parse_items_list : forall items,
  Forall (fun kv => reads_back (snd kv)) items ->
  Forall wf_item items ->
  forall fuel rest,
    stops rest ->
    (length (concat (map serialize_item items)) < fuel)%nat ->
    parse_items fuel (concat (map serialize_item items) ++ rest)
    = Some (items, skip_spaces rest).
Proof.
  induction items as [|[k v] items IH]; intros Hread Hwf fuel rest Hstop Hfuel.
  - destruct fuel as [|fuel]; [inversion Hfuel|]. apply parse_items_end.
    exact Hstop.
  - pose proof (Forall_inv Hwf) as [Hk Hv]. cbn [fst snd] in Hk, Hv.
    pose proof (Forall_inv Hread) as Hrv. cbn [snd] in Hrv.
    specialize (IH (Forall_inv_tail Hread) (Forall_inv_tail Hwf)).
    destruct fuel as [|fuel]; [inversion Hfuel|].
    cbn [map concat] in Hfuel |- *. rewrite length_app in Hfuel.
    pose proof (serialize_item_length (k, v)) as Hone.
    rewrite <- app_assoc.
    assert (Htail : parse_items fuel (concat (map serialize_item items) ++ rest)
                    = Some (items, skip_spaces rest)).
    { apply IH; [exact Hstop|lia]. }
    destruct v as [s|d|b].
    + rewrite (@parse_items_str fuel k s _ Hk Hv), Htail. reflexivity.
    + assert (Hinner :
        parse_items fuel
          (serialize_items d
           ++ lit " } " ++ concat (map serialize_item items) ++ rest)
        = Some (d, 125%N :: 32%N :: concat (map serialize_item items) ++ rest)).
      { apply (Hrv d eq_refl Hv).
        - unfold stops. reflexivity.
        - cbn [serialize_item] in Hfuel. rewrite !length_app in Hfuel.
          change (length (lit " ")) with 1%nat in Hfuel. lia. }
      rewrite (@parse_items_dict fuel k d d _ Hk Hinner), Htail.
      apply wf_value_dict in Hv as [Hnd _].
      rewrite (@odict_of_items_nodup d Hnd). reflexivity.
    + cbn [wf_value] in Hv. subst b.
      rewrite (@parse_items_bool fuel k true _ Hk), Htail. reflexivity.
Qed.

Lemma every_value_reads_back : forall v, reads_back v.
Proof.
  induction v as [s|b|d IH] using value_nested_ind;
    intros d' E Hwf fuel rest Hstop Hfuel; try discriminate.
  inversion E; subst d'. clear E.
  rewrite serialize_items_concat in Hfuel |- *.
  apply parse_items_list; try assumption.
  apply wf_value_dict in Hwf as [_ Hall]. exact Hall.
Qed.

(** ** What the parser produces *)

Lemma parse_items_wf : forall fuel s items rest,
  parse_items fuel s = Some (items, rest) -> Forall wf_item items.
Proof.
  induction fuel as [|fuel IH]; intros s items rest H; [discriminate|].
  rewrite parse_items_step in H. cbv zeta in H.
  destruct (read_ident (skip_spaces s)) as [key s1] eqn:Hread.
  destruct key as [|c0 k0]; [inversion H; constructor|].
  assert (Hk : wf_key (c0 :: k0)).
  { split; [discriminate|]. apply (read_ident_chars _ Hread). }
  destruct (skip_spaces s1) as [|c s2]; [discriminate|].
  destruct (N.eqb c 58).
  - destruct (skip_spaces s2) as [|q s3]; [discriminate|].
    destruct (N.eqb q 34).
    + destruct (read_value s3) as [[v s4]|] eqn:Hv; [|discriminate].
      destruct (parse_items fuel s4) as [[items' rest']|] eqn:Hp;
        [|discriminate].
      inversion H; subst. constructor; [|exact (IH _ _ _ Hp)].
      split; [exact Hk|]. exact (read_value_free _ Hv).
    + destruct (strip_prefix (lit "true") (q :: s3)) as [s4|];
        [|discriminate].
      destruct (parse_items fuel s4) as [[items' rest']|] eqn:Hp;
        [|discriminate].
      inversion H; subst. constructor; [|exact (IH _ _ _ Hp)].
      split; [exact Hk|reflexivity].
  - destruct (N.eqb c 123); [|discriminate].
    destruct (parse_items fuel s2) as [[inner s3']|] eqn:Hin; [|discriminate].
    destruct s3' as [|c' s3]; [discriminate|].
    destruct (N.eqb c' 125); [|discriminate].
    destruct (parse_items fuel s3) as [[items' rest']|] eqn:Hp;
      [|discriminate].
    inversion H; subst. constructor; [|exact (IH _ _ _ Hp)].
    split; [exact Hk|]. apply wf_value_dict, odict_of_items_wf.
    exact (IH _ _ _ Hin).
Qed.

Lemma serialize_singletons : forall items : list (str * value),
  serialize (map (fun kv => [kv]) items) = concat (map serialize_item items).
Proof.
  intros items. rewrite serialize_in_order, map_map. f_equal.
  apply map_ext. intros kv. rewrite serialize_items_concat. simpl.
  apply app_nil_r.
Qed.

(** C9.  Every token sequence the parser produces is read back from its
    serialization: parsing what the serializer writes for the tokens, in
    the order of their fields, gives the same tokens. *)
Theorem parse_serialize_round_trip : forall s tokens,
  parse s = Ok tokens -> parse (serialize tokens) = Ok tokens.
Proof.
  intros s tokens H. unfold parse in H.
  destruct (parse_items (S (length s)) s) as [[items rest]|] eqn:Hp;
    [|discriminate].
  destruct rest; [|discriminate]. inversion H; subst tokens. clear H.
  pose proof (parse_items_wf _ _ Hp) as Hwf.
  rewrite serialize_singletons. unfold parse.
  set (text := concat (map serialize_item items)).
  rewrite <- (app_nil_r text) at 2.
  unfold text. rewrite parse_items_list.
  - reflexivity.
  - apply Forall_forall. intros kv _. apply every_value_reads_back.
  - exact Hwf.
  - exact I.
  - lia.
Qed.

Lemma parse_serialize_round_trip_witness :
  parse (serialize may_tokens) = Ok may_tokens.
Proof.
  apply (@parse_serialize_round_trip (may_tagging (lit "1")) may_tokens).
  reflexivity.
Defined.

(** ** The fuel of the parser *)

Lemma skip_spaces_length : forall s,
  (length (skip_spaces s) <= length s)%nat.
Proof.
  induction s as [|c r IH]; simpl; [lia|].
  destruct (N.eqb c 32); simpl; lia.
Qed.

Lemma read_value_length : forall s v rest,
  read_value s = Some (v, rest) -> (length rest < length s)%nat.
Proof.
  induction s as [|c r IH]; intros v rest H; [discriminate|].
  cbn [read_value] in H. destruct (closes_value (c :: r)).
  - inversion H; subst. simpl. lia.
  - destruct (read_value r) as [[v' rest']|] eqn:E; [|discriminate].
    inversion H; subst. specialize (IH _ _ eq_refl). simpl. lia.
Qed.

Lemma strip_prefix_length : forall p s rest,
  strip_prefix p s = Some rest -> (length rest <= length s)%nat.
Proof.
  induction p as [|x p IH]; intros s rest H.
  - destruct s; inversion H; subst; simpl; lia.
  - destruct s as [|y s]; [discriminate|]. simpl in H.
    destruct (N.eqb x y); [|discriminate].
    specialize (IH _ _ H). simpl. lia.
Qed.

Lemma parse_items_rest_length : forall fuel s items rest,
  parse_items fuel s = Some (items, rest) ->
  (length rest <= length s)%nat.
Proof.
  induction fuel as [|fuel IH]; intros s items rest H; [discriminate|].
  rewrite parse_items_step in H. cbv zeta in H.
  pose proof (skip_spaces_length s) as Hs0.
  destruct (read_ident (skip_spaces s)) as [key s1] eqn:Hread.
  destruct (read_ident_chars _ Hread) as [_ Hsplit].
  apply (f_equal (@length N)) in Hsplit. rewrite length_app in Hsplit.
  destruct key as [|c0 k0]; [inversion H; subst; exact Hs0|].
  pose proof (skip_spaces_length s1) as Hs1.
  destruct (skip_spaces s1) as [|c s2]; [discriminate|].
  cbn [length] in Hsplit, Hs1.
  destruct (N.eqb c 58).
  - pose proof (skip_spaces_length s2) as Hs2.
    destruct (skip_spaces s2) as [|q s3]; [discriminate|].
    cbn [length] in Hs2.
    destruct (N.eqb q 34).
    + destruct (read_value s3) as [[v s4]|] eqn:Hv; [|discriminate].
      apply read_value_length in Hv.
      destruct (parse_items fuel s4) as [[items' rest']|] eqn:Hp;
        [|discriminate].
      inversion H; subst. specialize (IH _ _ _ Hp). lia.
    + destruct (strip_prefix (lit "true") (q :: s3)) as [s4|] eqn:Ht;
        [|discriminate].
      apply strip_prefix_length in Ht. cbn [length] in Ht.
      destruct (parse_items fuel s4) as [[items' rest']|] eqn:Hp;
        [|discriminate].
      inversion H; subst. specialize (IH _ _ _ Hp). lia.
  - destruct (N.eqb c 123); [|discriminate].
    destruct (parse_items fuel s2) as [[inner s3']|] eqn:Hin; [|discriminate].
    destruct s3' as [|c' s3]; [discriminate|].
    destruct (N.eqb c' 125); [|discriminate].
    pose proof (IH _ _ _ Hin) as Hinner. cbn [length] in Hinner.
    destruct (parse_items fuel s3) as [[items' rest']|] eqn:Hp;
      [|discriminate].
    inversion H; subst. specialize (IH _ _ _ Hp). lia.
Qed.

(** Above the length of the input the result of the parser does not
    depend on the fuel: the parser does not stop for want of fuel. *)
Lemma parse_items_fuel : forall fuel1 fuel2 s,
  (length s < fuel1)%nat -> (length s < fuel2)%nat ->
  parse_items fuel1 s = parse_items fuel2 s.
Proof.
  induction fuel1 as [|fuel1 IH]; intros fuel2 s H1 H2; [inversion H1|].
  destruct fuel2 as [|fuel2]; [inversion H2|].
  rewrite !parse_items_step. cbv zeta.
  pose proof (skip_spaces_length s) as Hs0.
  destruct (read_ident (skip_spaces s)) as [key s1] eqn:Hread.
  destruct (read_ident_chars _ Hread) as [_ Hsplit].
  apply (f_equal (@length N)) in Hsplit. rewrite length_app in Hsplit.
  destruct key as [|c0 k0]; [reflexivity|].
  pose proof (skip_spaces_length s1) as Hs1.
  destruct (skip_spaces s1) as [|c s2]; [reflexivity|].
  cbn [length] in Hsplit, Hs1.
  destruct (N.eqb c 58).
  - pose proof (skip_spaces_length s2) as Hs2.
    destruct (skip_spaces s2) as [|q s3]; [reflexivity|].
    cbn [length] in Hs2.
    destruct (N.eqb q 34).
    + destruct (read_value s3) as [[v s4]|] eqn:Hv; [|reflexivity].
      apply read_value_length in Hv.
      rewrite (IH fuel2 s4) by lia. reflexivity.
    + destruct (strip_prefix (lit "true") (q :: s3)) as [s4|] eqn:Ht;
        [|reflexivity].
      apply strip_prefix_length in Ht. cbn [length] in Ht.
      rewrite (IH fuel2 s4) by lia. reflexivity.
  - destruct (N.eqb c 123); [|reflexivity].
    rewrite (IH fuel2 s2) by lia.
    destruct (parse_items fuel2 s2) as [[inner s3']|] eqn:Hin; [|reflexivity].
    destruct s3' as [|c' s3]; [reflexivity|].
    destruct (N.eqb c' 125); [|reflexivity].
    apply parse_items_rest_length in Hin. cbn [length] in Hin.
    rewrite (IH fuel2 s3) by lia. reflexivity.
Qed.

(** ** Remarks on the joiner-hyphen rewrite *)

(** A Latin letter is not in the block, so the hyphen before it stays; a
    Devanagari digit is in the block, so the hyphen before it becomes a
    space. *)
Remark joiner_hyphen_outside_and_inside_block :
  joiner_hyphen_to_space (lit "3.14-X") = lit "3.14-X"
  /\ joiner_hyphen_to_space (lit "3.14-" ++ [2408%N]) = lit "3.14 " ++ [2408%N].
Proof. split; reflexivity. Qed.

(* ================================================================== *)
(** * Further properties of the split *)

Lemma within_or_over : forall max_perms (tokens : list odict),
  Forall (fun t => _estimate_number_of_permutations_in_nested_dict t <= max_perms)
         tokens
  \/ Exists (fun t => max_perms < _estimate_number_of_permutations_in_nested_dict t)
            tokens.
Proof.
  intros M. induction tokens as [|t tokens [IH|IH]].
  - left. constructor.
  - destruct (Z_le_gt_dec (_estimate_number_of_permutations_in_nested_dict t) M)
      as [Hle|Hgt].
    + left. constructor; assumption.
    + right. left. lia.
  - right. right. exact IH.
Qed.

(** The shape of a successful split: closed chunks and the last, open
    one. *)
Lemma split_within_bound_shape : forall max_perms tokens,
  Forall (fun t => _estimate_number_of_permutations_in_nested_dict t <= max_perms)
         tokens ->
  exists splits current,
    split_loop max_perms tokens tokens 0 [] 0 1
    = Ok (splits, length (concat splits))
    /\ _split_tokens_to_reduce_number_of_permutations max_perms tokens
       = Ok (splits ++ [current])
    /\ tokens = concat splits ++ current
    /\ Forall (closed_chunk max_perms) splits
    /\ (current <> [] -> chunk_product current <= max_perms)
    /\ (current = [] -> splits = [] /\ tokens = []).
Proof.
  intros M tokens Hall.
  destruct (@split_loop_invariant M tokens tokens [] [] 0%nat 0%nat 1)
    as (splits & current & Hrun & Htok & Hclosed & Hopen & Hempty);
    try reflexivity; auto.
  { intros H. contradiction. }
  exists splits, current. split; [exact Hrun|].
  unfold _split_tokens_to_reduce_number_of_permutations. rewrite Hrun.
  assert (Hlast : slice_from tokens (length (concat splits)) = current).
  { rewrite Htok at 1. apply slice_from_app. }
  rewrite Hlast.
  assert (Hcat : concat (splits ++ [current]) = tokens).
  { rewrite concat_app. simpl. rewrite app_nil_r. symmetry. exact Htok. }
  rewrite sum_len_concat, Hcat, Nat.eqb_refl.
  split; [reflexivity|]. split; [exact Htok|]. split; [exact Hclosed|].
  split; [exact Hopen|].
  intros E. destruct (Hempty E) as (E1 & _ & E2). split; assumption.
Qed.

Lemma split_ok_within_bound : forall max_perms tokens chunks,
  _split_tokens_to_reduce_number_of_permutations max_perms tokens = Ok chunks ->
  Forall (fun t => _estimate_number_of_permutations_in_nested_dict t <= max_perms)
         tokens.
Proof.
  intros M tokens chunks Hok.
  destruct (within_or_over M tokens) as [Hall|Hex]; [exact Hall|].
  unfold _split_tokens_to_reduce_number_of_permutations in Hok.
  rewrite (@split_loop_raises M tokens tokens 0%nat [] 0%nat 1 Hex) in Hok.
  discriminate.
Qed.

(** X1.  The split succeeds exactly when every token's estimate is at
    most the bound; when it fails, it is with the [ValueError] of the
    unsplittable token group, never with the assertion on the lengths;
    and since an estimate is at least 1, a bound below 1 refuses every
    non-empty token sequence. *)
Theorem split_succeeds_iff_within_bound : forall max_perms tokens,
  ((exists chunks,
      _split_tokens_to_reduce_number_of_permutations max_perms tokens
      = Ok chunks)
   <-> Forall (fun t =>
                 _estimate_number_of_permutations_in_nested_dict t <= max_perms)
              tokens)
  /\ (forall e,
        _split_tokens_to_reduce_number_of_permutations max_perms tokens
        = Raise e ->
        e = ValueError (Unsplittable_token_group max_perms))
  /\ (max_perms < 1 -> tokens <> [] ->
      _split_tokens_to_reduce_number_of_permutations max_perms tokens
      = Raise (ValueError (Unsplittable_token_group max_perms))).
Proof.
  intros M tokens. split; [split|split].
  - intros (chunks & Hok). eapply split_ok_within_bound. exact Hok.
  - intros Hall.
    destruct (@split_within_bound_shape _ _ Hall) as (splits & current & _ & Hok & _).
    eexists. exact Hok.
  - intros e Hraise.
    destruct (within_or_over M tokens) as [Hall|Hex].
    + destruct (@split_within_bound_shape _ _ Hall)
        as (splits & current & _ & Hok & _).
      rewrite Hok in Hraise. discriminate.
    + unfold _split_tokens_to_reduce_number_of_permutations in Hraise.
      rewrite (@split_loop_raises M tokens tokens 0%nat [] 0%nat 1 Hex)
        in Hraise.
      inversion Hraise. reflexivity.
  - intros HM Hne. destruct tokens as [|t tokens]; [contradiction|].
    unfold _split_tokens_to_reduce_number_of_permutations.
    rewrite split_loop_raises; [reflexivity|].
    left. pose proof (estimate_pos t). lia.
Qed.

Lemma split_succeeds_iff_within_bound_witness :
  _split_tokens_to_reduce_number_of_permutations 0 docstring_tokens
  = Raise (ValueError (Unsplittable_token_group 0)).
Proof.
  apply (proj2 (proj2 (split_succeeds_iff_within_bound 0 docstring_tokens))).
  - reflexivity.
  - discriminate.
Defined.

Lemma chunks_maximal_snoc : forall max_perms l c next,
  chunks_maximal max_perms (l ++ [c]) ->
  chunk_full max_perms c next ->
  chunks_maximal max_perms (l ++ [c; next]).
Proof.
  intros M. induction l as [|x l IH]; intros c next Hmax Hfull.
  - simpl. auto.
  - cbn [app chunks_maximal] in Hmax |- *. destruct Hmax as [Hx Hrest].
    split; [|apply IH; assumption].
    destruct l as [|y l]; exact Hx.
Qed.

Lemma chunks_maximal_grow_last : forall max_perms l c extra,
  chunks_maximal max_perms (l ++ [c]) ->
  c <> [] ->
  chunks_maximal max_perms (l ++ [c ++ extra]).
Proof.
  intros M. induction l as [|x l IH]; intros c extra Hmax Hne.
  - simpl. auto.
  - cbn [app chunks_maximal] in Hmax |- *. destruct Hmax as [Hx Hrest].
    split; [|apply IH; assumption].
    destruct l as [|y l]; [|exact Hx].
    cbn [app] in Hx |- *. destruct c as [|t c]; [contradiction|]. exact Hx.
Qed.

(** The loop closes a chunk only when the next token would not fit. *)
Lemma split_loop_maximal : forall max_perms tokens rest splits current i prev cur,
  tokens = concat splits ++ current ++ rest ->
  i = length (concat splits ++ current) ->
  prev = length (concat splits) ->
  cur = chunk_product current ->
  Forall (fun t => _estimate_number_of_permutations_in_nested_dict t <= max_perms) rest ->
  chunks_maximal max_perms (splits ++ [current]) ->
  (current = [] -> splits = []) ->
  exists splits' current',
    split_loop max_perms tokens rest i splits prev cur
      = Ok (splits', length (concat splits'))
    /\ tokens = concat splits' ++ current'
    /\ chunks_maximal max_perms (splits' ++ [current']).
Proof.
  intros M tokens rest.
  induction rest as [|t rest IH];
    intros splits current i prev cur Htok Hi Hprev Hcur Hall Hmax Hemp.
  - exists splits, current. simpl. subst prev.
    rewrite app_nil_r in Htok. split; [reflexivity|]. split; assumption.
  - pose proof (Forall_inv Hall) as Ht. cbv beta in Ht.
    pose proof (Forall_inv_tail Hall) as Hrest.
    simpl split_loop.
    pose proof (estimate_pos t) as Hn.
    assert (Hone : chunk_product [t]
                   = _estimate_number_of_permutations_in_nested_dict t)
      by (unfold chunk_product; simpl; lia).
    remember (_estimate_number_of_permutations_in_nested_dict t) as n eqn:En.
    destruct (Z.gtb_spec n M) as [Hbig|_]; [lia|].
    destruct (Z.gtb_spec (n * cur) M) as [Hover|Hover].
    + assert (Hslice : slice tokens prev i = current).
      { subst tokens i prev. apply slice_middle. }
      rewrite Hslice.
      destruct (IH (splits ++ [current]) [t] (S i) i (1 * n))
        as (splits' & current' & Hrun & Htok' & Hmax').
      * rewrite Htok, concat_app. simpl. rewrite app_nil_r, <- !app_assoc.
        reflexivity.
      * subst i. rewrite concat_app. simpl. rewrite app_nil_r, !length_app.
        simpl. lia.
      * subst i. rewrite concat_app. simpl. rewrite app_nil_r. reflexivity.
      * rewrite Hone. lia.
      * exact Hrest.
      * rewrite <- app_assoc. simpl. apply chunks_maximal_snoc; [exact Hmax|].
        unfold chunk_full. rewrite <- En, <- Hcur. lia.
      * discriminate.
      * exists splits', current'. split; [exact Hrun|]. split; assumption.
    + destruct (IH splits (current ++ [t]) (S i) prev (cur * n))
        as (splits' & current' & Hrun & Htok' & Hmax').
      * rewrite Htok, <- !app_assoc. reflexivity.
      * subst i. rewrite !length_app. simpl. lia.
      * exact Hprev.
      * rewrite chunk_product_app, Hone, Hcur. reflexivity.
      * exact Hrest.
      * destruct current as [|c0 current].
        -- rewrite (Hemp eq_refl). simpl. auto.
        -- apply chunks_maximal_grow_last; [exact Hmax|discriminate].
      * intros E. destruct current; discriminate.
      * exists splits', current'. split; [exact Hrun|]. split; assumption.
Qed.

Lemma chunks_maximal_at : forall max_perms l c next r,
  chunks_maximal max_perms (l ++ c :: next :: r) ->
  chunk_full max_perms c next.
Proof.
  intros M. induction l as [|x l IH]; intros c next r Hmax.
  - simpl in Hmax. tauto.
  - cbn [app chunks_maximal] in Hmax. destruct Hmax as [_ Hrest].
    eapply IH. exact Hrest.
Qed.

Lemma split_ok_maximal : forall max_perms tokens chunks,
  _split_tokens_to_reduce_number_of_permutations max_perms tokens = Ok chunks ->
  chunks_maximal max_perms chunks.
Proof.
  intros M tokens chunks Hok.
  pose proof (@split_ok_within_bound _ _ _ Hok) as Hall.
  destruct (@split_loop_maximal M tokens tokens [] [] 0%nat 0%nat 1)
    as (splits & current & Hrun & Htok & Hmax);
    try reflexivity; auto.
  { simpl. auto. }
  unfold _split_tokens_to_reduce_number_of_permutations in Hok.
  rewrite Hrun in Hok.
  assert (Hlast : slice_from tokens (length (concat splits)) = current).
  { rewrite Htok at 1. apply slice_from_app. }
  rewrite Hlast in Hok.
  destruct (Nat.eqb _ _); [|discriminate].
  inversion Hok. exact Hmax.
Qed.

Lemma split_ok_chunks_nonempty : forall max_perms tokens chunks,
  _split_tokens_to_reduce_number_of_permutations max_perms tokens = Ok chunks ->
  tokens <> [] ->
  Forall (fun c => c <> []) chunks.
Proof.
  intros M tokens chunks Hok Hne.
  destruct (@split_within_bound_shape _ _ (@split_ok_within_bound _ _ _ Hok))
    as (splits & current & _ & Hok' & Htok & Hclosed & _ & Hempty).
  rewrite Hok in Hok'. inversion Hok'. subst chunks.
  apply Forall_app. split.
  - eapply Forall_impl; [|exact Hclosed]. intros c [Hc _]. exact Hc.
  - constructor; [|constructor]. intros E.
    destruct (Hempty E) as [_ E']. contradiction.
Qed.

(** X2.  The split is greedy: in the list of chunks it returns, every
    chunk that is followed by another one could not have taken the first
    token of its successor, the product of its estimates times that
    token's estimate being above the bound. *)
Theorem split_chunks_are_maximal : forall max_perms tokens chunks before c next after,
  _split_tokens_to_reduce_number_of_permutations max_perms tokens = Ok chunks ->
  chunks = before ++ c :: next :: after ->
  exists t rest,
    next = t :: rest
    /\ max_perms
       < chunk_product c * _estimate_number_of_permutations_in_nested_dict t.
Proof.
  intros M tokens chunks before c next after Hok Hchunks.
  assert (Hne : tokens <> []).
  { intros E. subst tokens. cbv in Hok. inversion Hok. subst chunks.
    destruct before as [|x [|y before]]; discriminate. }
  pose proof (@split_ok_chunks_nonempty _ _ _ Hok Hne) as Hnonempty.
  pose proof (@split_ok_maximal _ _ _ Hok) as Hmax.
  subst chunks.
  apply chunks_maximal_at in Hmax.
  apply Forall_app in Hnonempty. destruct Hnonempty as [_ Hrest].
  pose proof (Forall_inv (Forall_inv_tail Hrest)) as Hnext. cbv beta in Hnext.
  destruct next as [|t rest]; [contradiction|].
  exists t, rest. split; [reflexivity|exact Hmax].
Qed.

Lemma split_chunks_are_maximal_witness :
  exists t rest,
    [nth 1 docstring_tokens []] = t :: rest
    /\ 6 < chunk_product [nth 0 docstring_tokens []]
           * _estimate_number_of_permutations_in_nested_dict t.
Proof.
  apply (@split_chunks_are_maximal 6 docstring_tokens
           [[nth 0 docstring_tokens []]; [nth 1 docstring_tokens []]]
           [] [nth 0 docstring_tokens []] [nth 1 docstring_tokens []] []).
  - reflexivity.
  - reflexivity.
Defined.

Lemma chunk_product_prefix : forall a b,
  chunk_product a <= chunk_product (a ++ b).
Proof.
  intros a b. rewrite chunk_product_app.
  pose proof (chunk_product_pos a). pose proof (chunk_product_pos b). nia.
Qed.

Lemma chunk_product_bounds_tokens : forall max_perms tokens,
  chunk_product tokens <= max_perms ->
  Forall (fun t => _estimate_number_of_permutations_in_nested_dict t <= max_perms)
         tokens.
Proof.
  intros M. induction tokens as [|t tokens IH]; intros H; constructor.
  - change (chunk_product (t :: tokens))
      with (_estimate_number_of_permutations_in_nested_dict t
            * chunk_product tokens) in H.
    pose proof (chunk_product_pos tokens). pose proof (estimate_pos t). nia.
  - apply IH.
    change (chunk_product (t :: tokens))
      with (_estimate_number_of_permutations_in_nested_dict t
            * chunk_product tokens) in H.
    pose proof (chunk_product_pos tokens). pose proof (estimate_pos t). nia.
Qed.

(** X3.  The split leaves a token sequence whole exactly when it fits:
    if the product of the estimates of all the tokens is at most the
    bound, the result is the single chunk holding every token; and for a
    non-empty sequence a single-chunk result means that the product is at
    most the bound. *)
Theorem split_single_chunk_iff_fits : forall max_perms tokens,
  (chunk_product tokens <= max_perms ->
   _split_tokens_to_reduce_number_of_permutations max_perms tokens
   = Ok [tokens])
  /\ (tokens <> [] ->
      _split_tokens_to_reduce_number_of_permutations max_perms tokens
      = Ok [tokens] ->
      chunk_product tokens <= max_perms).
Proof.
  intros M tokens. split.
  - intros Hfit.
    pose proof (@chunk_product_bounds_tokens _ _ Hfit) as Hall.
    destruct (@split_within_bound_shape _ _ Hall)
      as (splits & current & _ & Hok & Htok & Hclosed & _ & _).
    pose proof (@split_ok_maximal _ _ _ Hok) as Hmax.
    destruct splits as [|c splits].
    + simpl in Htok. subst current. exact Hok.
    + exfalso.
      pose proof (Forall_inv Hclosed) as [Hc _].
      assert (Hnext : exists next r, splits ++ [current] = next :: r).
      { destruct splits as [|n r]; simpl; eauto. }
      destruct Hnext as (next & r & Hnext).
      cbn [app] in Hmax. rewrite Hnext in Hmax.
      destruct Hmax as [Hfull _].
      assert (Hcat : exists r', tokens = c ++ next ++ r').
      { exists (concat r). rewrite Htok. cbn [concat].
        rewrite <- app_assoc. f_equal.
        transitivity (concat (splits ++ [current])).
        - rewrite concat_app. simpl. rewrite app_nil_r. reflexivity.
        - rewrite Hnext. reflexivity. }
      destruct Hcat as (r' & Hcat).
      destruct next as [|t next].
      * pose proof (@split_ok_chunks_nonempty _ _ _ Hok) as Hnonempty.
        assert (Hne : tokens <> []).
        { rewrite Hcat. destruct c; [contradiction|discriminate]. }
        specialize (Hnonempty Hne). cbn [app] in Hnonempty.
        rewrite Hnext in Hnonempty.
        pose proof (Forall_inv (Forall_inv_tail Hnonempty)) as Habs.
        apply Habs. reflexivity.
      * unfold chunk_full in Hfull.
        assert (Hle : chunk_product (c ++ [t]) <= chunk_product tokens).
        { rewrite Hcat.
          replace (c ++ (t :: next) ++ r') with ((c ++ [t]) ++ next ++ r')
            by (rewrite <- app_assoc; reflexivity).
          apply chunk_product_prefix. }
        rewrite chunk_product_app in Hle.
        assert (Hone : chunk_product [t]
                       = _estimate_number_of_permutations_in_nested_dict t)
          by (unfold chunk_product; simpl; lia).
        rewrite Hone in Hle. lia.
  - intros Hne Hok.
    destruct (@split_within_bound_shape _ _ (@split_ok_within_bound _ _ _ Hok))
      as (splits & current & _ & Hok' & Htok & _ & Hopen & Hempty).
    rewrite Hok in Hok'. inversion Hok' as [Heq].
    destruct splits as [|c [|c' splits]]; try discriminate.
    simpl in Heq. inversion Heq. subst current.
    apply Hopen. exact Hne.
Qed.

Lemma split_single_chunk_iff_fits_witness :
  _split_tokens_to_reduce_number_of_permutations 36 docstring_tokens
  = Ok [docstring_tokens].
Proof.
  apply (proj1 (split_single_chunk_iff_fits 36 docstring_tokens)).
  vm_compute. discriminate.
Defined.

Lemma children_product_permutation : forall d d',
  Permutation d d' -> children_product d = children_product d'.
Proof.
  intros d d' H. induction H as [|[k v] l l' _ IH|[k v] [k' v'] l|l l' l'' _ IH1 _ IH2].
  - reflexivity.
  - simpl. rewrite IH. reflexivity.
  - simpl. destruct v, v'; lia.
  - congruence.
Qed.

(** X4.  The estimate does not depend on the order of the fields: two
    dictionaries holding the same items in different orders have the same
    estimated number of permutations. *)
Theorem estimate_invariant_under_field_order : forall d d',
  Permutation d d' ->
  _estimate_number_of_permutations_in_nested_dict d
  = _estimate_number_of_permutations_in_nested_dict d'.
Proof.
  intros d d' H.
  rewrite !estimate_unfold, !estimate_items_product.
  rewrite (@children_product_permutation _ _ H), (Permutation_length H).
  reflexivity.
Qed.

Lemma estimate_invariant_under_field_order_witness :
  _estimate_number_of_permutations_in_nested_dict
    [(lit "date",
      VDict [(lit "day", VStr (lit "1")); (lit "month", VStr (lit "may"))]);
     (lit "name", VStr (lit "b"))]
  = _estimate_number_of_permutations_in_nested_dict
      [(lit "name", VStr (lit "b"));
       (lit "date",
        VDict [(lit "day", VStr (lit "1")); (lit "month", VStr (lit "may"))])].
Proof.
  apply (@estimate_invariant_under_field_order
           [(lit "date",
             VDict [(lit "day", VStr (lit "1"));
                    (lit "month", VStr (lit "may"))]);
            (lit "name", VStr (lit "b"))]
           [(lit "name", VStr (lit "b"));
            (lit "date",
             VDict [(lit "day", VStr (lit "1"));
                    (lit "month", VStr (lit "may"))])]).
  apply perm_swap.
Defined.

(* ================================================================== *)
(** * Further properties of the permutations *)

Lemma map_flat_map_comm : forall (A B C : Type) (g : B -> C) (f : A -> list B) l,
  map g (flat_map f l) = flat_map (fun x => map g (f x)) l.
Proof.
  intros A B C g f. induction l as [|x l IH]; simpl; [reflexivity|].
  rewrite map_app, IH. reflexivity.
Qed.

Lemma flat_map_flat_map : forall (A B C : Type) (g : B -> list C) (f : A -> list B) l,
  flat_map g (flat_map f l) = flat_map (fun x => flat_map g (f x)) l.
Proof.
  intros A B C g f. induction l as [|x l IH]; simpl; [reflexivity|].
  rewrite flat_map_app, IH. reflexivity.
Qed.

(** The prefix [_helper] carries along only ends up in front of what it
    yields. *)
Lemma helper_prefix : forall tokens prefix,
  _helper prefix tokens = map (app prefix) (_helper [] tokens).
Proof.
  induction tokens as [|t tokens IH]; intros prefix.
  - simpl. rewrite app_nil_r. reflexivity.
  - cbn [_helper]. rewrite map_flat_map_comm.
    apply flat_map_ext. intros o.
    rewrite (IH (prefix ++ o)), (IH ([] ++ o)), map_map.
    apply map_ext. intros x. cbn [app]. rewrite app_assoc. reflexivity.
Qed.

Lemma helper_app : forall s1 s2 prefix,
  _helper prefix (s1 ++ s2) = flat_map (fun x => _helper x s2) (_helper prefix s1).
Proof.
  induction s1 as [|t s1 IH]; intros s2 prefix.
  - simpl. rewrite app_nil_r. reflexivity.
  - cbn [app _helper]. rewrite flat_map_flat_map.
    apply flat_map_ext. intros o. apply IH.
Qed.

(** X5.  The variants of a token sequence compose: those of [s1 ++ s2]
    are the variants of [s1] each followed by every variant of [s2], the
    variants of [s2] advancing fastest; so [generate_permutations] yields
    the joined elements of [itertools.product] over the per-token
    serializations [_permute], in that order. *)
Theorem generate_permutations_compose : forall s1 s2,
  generate_permutations (s1 ++ s2)
  = flat_map (fun x => map (app x) (generate_permutations s2))
             (generate_permutations s1)
  /\ generate_permutations s1 = join_product (map _permute s1).
Proof.
  intros s1 s2. split.
  - unfold generate_permutations. rewrite helper_app.
    apply flat_map_ext. intros x. apply helper_prefix.
  - unfold generate_permutations, join_product.
    induction s1 as [|t s1 IH]; [reflexivity|].
    cbn [_helper map product]. rewrite map_flat_map_comm.
    apply flat_map_ext. intros o. cbn [app].
    rewrite helper_prefix, IH, !map_map. reflexivity.
Qed.

Lemma generate_permutations_length : forall tokens,
  length (generate_permutations tokens) = variants_product tokens.
Proof.
  unfold generate_permutations.
  induction tokens as [|t tokens IH]; [reflexivity|].
  cbn [_helper variants_product fold_right].
  fold (variants_product tokens).
  rewrite flat_map_constant_length with (c := variants_product tokens);
    [reflexivity|].
  intros o _. cbn [app]. rewrite helper_prefix, length_map. exact IH.
Qed.

Lemma variants_product_bounded : forall tokens,
  Z.of_nat (variants_product tokens) <= chunk_product tokens.
Proof.
  induction tokens as [|t tokens IH]; simpl; [lia|].
  fold (variants_product tokens). fold (chunk_product tokens).
  rewrite Nat2Z.inj_mul.
  pose proof (@permute_value_bounded (VDict t) t eq_refl).
  pose proof (chunk_product_pos tokens). nia.
Qed.

(** X6.  The bound of the split bounds the work per chunk: the number of
    variants [generate_permutations] yields for a chunk is the product
    of the numbers of serializations of its tokens, and for every chunk
    the split returns it is at most the bound (for a sequence that is not
    empty, or a bound of at least 1). *)
Theorem split_chunks_have_bounded_variants : forall max_perms tokens chunks c,
  _split_tokens_to_reduce_number_of_permutations max_perms tokens = Ok chunks ->
  tokens <> [] \/ 1 <= max_perms ->
  In c chunks ->
  length (generate_permutations c) = variants_product c
  /\ Z.of_nat (length (generate_permutations c)) <= max_perms.
Proof.
  intros M tokens chunks c Hok Hcase Hin.
  split; [apply generate_permutations_length|].
  rewrite generate_permutations_length.
  pose proof (variants_product_bounded c) as Hvar.
  destruct (@split_within_bound_shape _ _ (@split_ok_within_bound _ _ _ Hok))
    as (splits & current & _ & Hok' & Htok & Hclosed & Hopen & Hempty).
  rewrite Hok in Hok'. inversion Hok'. subst chunks.
  apply in_app_or in Hin. destruct Hin as [Hin|[Hin|[]]].
  - rewrite Forall_forall in Hclosed. destruct (Hclosed c Hin) as [_ Hle]. lia.
  - subst c. destruct current as [|t current].
    + destruct Hcase as [Hne|HM].
      * destruct (Hempty eq_refl) as [_ E]. contradiction.
      * simpl in *. lia.
    + assert (Hle : chunk_product (t :: current) <= M)
        by (apply Hopen; discriminate).
      lia.
Qed.

Lemma split_chunks_have_bounded_variants_witness :
  length (generate_permutations [nth 1 docstring_tokens []])
  = variants_product [nth 1 docstring_tokens []]
  /\ Z.of_nat (length (generate_permutations [nth 1 docstring_tokens []])) <= 6.
Proof.
  apply (@split_chunks_have_bounded_variants 6 docstring_tokens
           [[nth 0 docstring_tokens []]; [nth 1 docstring_tokens []]]
           [nth 1 docstring_tokens []]).
  - reflexivity.
  - left. discriminate.
  - right. left. reflexivity.
Defined.

Lemma Permutation_concat : forall (A : Type) (l l' : list (list A)),
  Permutation l l' -> Permutation (concat l) (concat l').
Proof.
  intros A l l' H. induction H; simpl.
  - constructor.
  - apply Permutation_app_head. assumption.
  - rewrite !app_assoc. apply Permutation_app_tail, Permutation_app_comm.
  - etransitivity; eassumption.
Qed.

Lemma join_product_two_in : forall subl x s,
  In s (join_product [subl; [x]]) -> exists h, In h subl /\ s = h ++ x.
Proof.
  intros subl x s. unfold join_product. cbn [product].
  rewrite map_flat_map_comm, in_flat_map.
  intros (h & Hh & Hs). exists h. split; [exact Hh|].
  simpl in Hs. destruct Hs as [Hs|[]]. rewrite <- Hs. simpl.
  rewrite app_nil_r. reflexivity.
Qed.

Lemma join_product_four_in : forall subl a rec b s,
  In s (join_product [subl; [a]; rec; [b]]) ->
  exists h r, In h subl /\ In r rec /\ s = h ++ a ++ r ++ b.
Proof.
  intros subl a rec b s. unfold join_product. cbn [product].
  rewrite map_flat_map_comm, in_flat_map.
  intros (h & Hh & Hs). exists h.
  cbn [flat_map] in Hs. rewrite app_nil_r in Hs.
  rewrite !map_map in Hs. rewrite map_flat_map_comm in Hs.
  rewrite in_flat_map in Hs. destruct Hs as (r & Hr & Hs).
  exists r. split; [exact Hh|]. split; [exact Hr|].
  simpl in Hs. destruct Hs as [Hs|[]]. rewrite <- Hs.
  rewrite app_nil_r. reflexivity.
Qed.

Lemma permute_step_in : forall subl item s,
  (forall d', snd (fst item) = VDict d' ->
     forall r, In r (snd item) -> Permutation r (serialize_items d')) ->
  In s (permute_step subl item) ->
  exists h, In h subl /\ Permutation s (h ++ item_string item).
Proof.
  intros subl [[k v] rec] s Hrec Hin. unfold item_string. cbn [fst snd] in *.
  destruct v as [x|d'|b]; cbn [permute_step serialize_item] in *.
  - apply join_product_two_in in Hin. destruct Hin as (h & Hh & Hs).
    exists h. split; [exact Hh|]. rewrite Hs. reflexivity.
  - apply join_product_four_in in Hin. destruct Hin as (h & r & Hh & Hr & Hs).
    exists h. split; [exact Hh|]. rewrite Hs.
    apply Permutation_app_head.
    rewrite <- !app_assoc.
    repeat apply Permutation_app_head.
    apply Permutation_app_tail. apply (Hrec d' eq_refl r Hr).
  - apply join_product_two_in in Hin. destruct Hin as (h & Hh & Hs).
    exists h. split; [exact Hh|]. rewrite Hs. reflexivity.
Qed.

Lemma fold_permute_step_in : forall perm subl s,
  Forall (fun item =>
            forall d', snd (fst item) = VDict d' ->
              forall r, In r (snd item) -> Permutation r (serialize_items d'))
         perm ->
  In s (fold_left permute_step perm subl) ->
  exists h, In h subl /\ Permutation s (h ++ concat (map item_string perm)).
Proof.
  induction perm as [|item perm IH]; intros subl s Hall Hin.
  - simpl in *. exists s. split; [exact Hin|]. rewrite app_nil_r. reflexivity.
  - cbn [fold_left] in Hin.
    destruct (IH _ _ (Forall_inv_tail Hall) Hin) as (h' & Hh' & Hs).
    destruct (@permute_step_in subl item h' (Forall_inv Hall) Hh')
      as (h & Hh & Hp).
    exists h. split; [exact Hh|].
    etransitivity; [exact Hs|]. cbn [map concat]. rewrite app_assoc.
    apply Permutation_app_tail. exact Hp.
Qed.

Lemma item_string_with_permutations : forall d,
  map item_string (with_permutations d) = map serialize_item d.
Proof.
  intros d. unfold with_permutations. rewrite map_map.
  apply map_ext. intros [k v]. reflexivity.
Qed.

(** Every serialization of a dictionary is made of the characters of the
    one in the order of the fields. *)
Lemma permute_value_rearranges : forall v d s,
  v = VDict d -> In s (_permute d) -> Permutation s (serialize_items d).
Proof.
  induction v as [x|b|d0 IH] using value_nested_ind; intros d s E Hin;
    try discriminate.
  inversion E; subst d0. clear E.
  assert (Hitems : Forall (fun item =>
            forall d', snd (fst item) = VDict d' ->
              forall r, In r (snd item) -> Permutation r (serialize_items d'))
            (with_permutations d)).
  { unfold with_permutations. rewrite Forall_map.
    eapply Forall_impl; [|exact IH].
    intros [k v] Hv d' E r Hr. cbn [fst snd] in *.
    apply (Hv d' r E). subst v. exact Hr. }
  rewrite permute_unfold in Hin. apply in_flat_map in Hin.
  destruct Hin as (perm & Hperm & Hs).
  assert (Hp : Permutation perm (with_permutations d)).
  { destruct (has_key PRESERVE_ORDER_KEY d).
    - destruct Hperm as [<-|[]]. reflexivity.
    - apply permutations_spec. exact Hperm. }
  unfold permute_one in Hs.
  destruct (@fold_permute_step_in perm [[]] s) as (h & Hh & Hps).
  - eapply Permutation_Forall; [symmetry; exact Hp|exact Hitems].
  - exact Hs.
  - destruct Hh as [<-|[]]. cbn [app] in Hps.
    etransitivity; [exact Hps|].
    rewrite serialize_items_concat, <- item_string_with_permutations.
    apply Permutation_concat, Permutation_map. exact Hp.
Qed.

Lemma helper_rearranges : forall tokens prefix s,
  In s (_helper prefix tokens) ->
  Permutation s (prefix ++ concat (map serialize_items tokens)).
Proof.
  induction tokens as [|t tokens IH]; intros prefix s Hin.
  - simpl in *. destruct Hin as [<-|[]]. rewrite app_nil_r. reflexivity.
  - cbn [_helper] in Hin. apply in_flat_map in Hin.
    destruct Hin as (o & Ho & Hs).
    etransitivity; [apply (IH _ _ Hs)|].
    cbn [map concat]. rewrite !app_assoc. apply Permutation_app_tail.
    apply Permutation_app_head.
    apply (@permute_value_rearranges (VDict t) t o eq_refl Ho).
Qed.

(** X7.  The variants only move fields: every string
    [generate_permutations] yields is a rearrangement of the characters
    of the serialization in the order of the fields (nothing is dropped,
    duplicated or added), and that in-order serialization is the first
    variant yielded. *)
Theorem generate_permutations_rearranges : forall tokens,
  (exists others,
     generate_permutations tokens
     = concat (map serialize_items tokens) :: others)
  /\ (forall s,
        In s (generate_permutations tokens) ->
        Permutation s (concat (map serialize_items tokens))).
Proof.
  intros tokens. split.
  - unfold generate_permutations.
    destruct (helper_head tokens []) as (others & E).
    exists others. exact E.
  - intros s Hin. apply (@helper_rearranges tokens [] s Hin).
Qed.

Lemma generate_permutations_rearranges_witness :
  Permutation
    (nth 3 (generate_permutations [nth 0 docstring_tokens []]) [])
    (concat (map serialize_items [nth 0 docstring_tokens []])).
Proof.
  apply (proj2 (generate_permutations_rearranges [nth 0 docstring_tokens []])).
  vm_compute. right. right. right. left. reflexivity.
Defined.

Lemma children_permutations_fixed : forall d,
  Forall (fun kv => forall d', snd kv = VDict d' ->
                     length (_permute d') = 1%nat) d ->
  children_permutations d = 1%nat.
Proof.
  induction d as [|[k v] d IH]; intros Hall; simpl; [reflexivity|].
  pose proof (Forall_inv Hall) as Hh. specialize (IH (Forall_inv_tail Hall)).
  destruct v as [s|d'|b]; auto.
  rewrite (Hh d' eq_refl), IH. reflexivity.
Qed.

Lemma order_fixed_unfold : forall d,
  order_fixed d
  = ((has_key PRESERVE_ORDER_KEY d || (length d <=? 1)%nat)
     && forallb (fun kv => order_fixed_value (snd kv)) d)%bool.
Proof.
  intros d. unfold order_fixed. cbn [order_fixed_value]. f_equal.
  induction d as [|[k v] d IH]; [reflexivity|].
  cbn [forallb snd]. rewrite <- IH. reflexivity.
Qed.

Lemma order_fixed_one_variant : forall v d,
  v = VDict d -> order_fixed d = true -> length (_permute d) = 1%nat.
Proof.
  induction v as [x|b|d0 IH] using value_nested_ind; intros d E Hfix;
    try discriminate.
  inversion E; subst d0. clear E.
  rewrite order_fixed_unfold in Hfix.
  apply andb_prop in Hfix. destruct Hfix as [Htop Hall].
  rewrite forallb_forall in Hall.
  assert (Hc : children_permutations d = 1%nat).
  { apply children_permutations_fixed. rewrite Forall_forall in IH |- *.
    intros [k v] Hin d' E. cbn [snd] in E. subst v.
    apply (IH _ Hin d' eq_refl). apply (Hall _ Hin). }
  destruct (has_key PRESERVE_ORDER_KEY d) eqn:Hflag.
  - rewrite permute_length_preserve_order by exact Hflag. exact Hc.
  - cbn [orb] in Htop. apply Nat.leb_le in Htop.
    pose proof (permute_length_all_orders d Hflag) as Hl.
    rewrite Hc in Hl.
    assert (Hf : factorial (length d) = 1).
    { destruct (length d) as [|[|n]]; [reflexivity|reflexivity|lia]. }
    rewrite Hf in Hl. lia.
Qed.

(** X8.  A token in which no field can move has exactly one
    serialization: when every dictionary in it, at any depth, carries
    [preserve_order] or has at most one field, [_permute] yields the
    fields in their order and nothing else, and so does
    [generate_permutations] for a sequence of such tokens. *)
Theorem order_fixed_single_variant : forall tokens,
  forallb order_fixed tokens = true ->
  Forall (fun t => _permute t = [serialize_items t]) tokens
  /\ generate_permutations tokens = [concat (map serialize_items tokens)].
Proof.
  intros tokens Hfix. rewrite forallb_forall in Hfix.
  assert (Hone : forall t, In t tokens -> _permute t = [serialize_items t]).
  { intros t Hin.
    destruct (@permute_value_head (VDict t) t eq_refl) as (others & E).
    pose proof (@order_fixed_one_variant (VDict t) t eq_refl (Hfix t Hin)) as Hl.
    rewrite E in Hl |- *. destruct others; [reflexivity|discriminate]. }
  split; [apply Forall_forall; exact Hone|].
  destruct (helper_head tokens []) as (others & E).
  unfold generate_permutations. rewrite E.
  pose proof (generate_permutations_length tokens) as Hl.
  unfold generate_permutations in Hl. rewrite E in Hl.
  assert (Hv : variants_product tokens = 1%nat).
  { clear E Hl others Hfix. induction tokens as [|t tokens IH]; [reflexivity|].
    simpl. fold (variants_product tokens).
    rewrite (Hone t (or_introl eq_refl)), IH; [reflexivity|].
    intros t' Hin. apply Hone. right. exact Hin. }
  rewrite Hv in Hl. destruct others; [reflexivity|discriminate].
Qed.

Lemma order_fixed_single_variant_witness :
  Forall (fun t => _permute t = [serialize_items t]) [flagged_token; flagged_token]
  /\ generate_permutations [flagged_token; flagged_token]
     = [concat (map serialize_items [flagged_token; flagged_token])].
Proof.
  apply (order_fixed_single_variant [flagged_token; flagged_token]).
  reflexivity.
Defined.

(* ================================================================== *)
(** * Further properties of the orchestrator *)

Lemma verbalizer_calls_app : forall a b,
  verbalizer_calls (a ++ b) = (verbalizer_calls a + verbalizer_calls b)%nat.
Proof.
  intros a b. unfold verbalizer_calls. rewrite filter_app, length_app.
  reflexivity.
Qed.

Lemma verbalizer_calls_map : forall variants : list str,
  verbalizer_calls (map (fun x => Verbalizer_applied (escape x)) variants)
  = length variants.
Proof.
  induction variants as [|x variants IH]; [reflexivity|].
  unfold verbalizer_calls in *. simpl. rewrite IH. reflexivity.
Qed.

(** The loop over the variants applies the verbalizer to a prefix of
    them and does not raise. *)
Lemma try_variants_trace : forall self variants prev,
  exists k lat,
    try_variants self variants prev
    = (map (fun x => Verbalizer_applied (escape x)) (firstn k variants),
       Ok lat).
Proof.
  intros self. induction variants as [|x variants IH]; intros prev.
  - exists 0%nat, prev. reflexivity.
  - simpl. destruct (has_states (verbalizer_fst self (escape x))).
    + exists 1%nat, (Some (verbalizer_fst self (escape x))). reflexivity.
    + destruct (IH (Some (verbalizer_fst self (escape x)))) as (k & lat & E).
      rewrite E. exists (S k), lat. reflexivity.
Qed.

(** The body of the loop over the chunks does not raise, whatever the
    verbalizer does, and applies the verbalizer at most once per
    variant. *)
Lemma verbalize_chunk_calls : forall self text s output,
  exists events f,
    verbalize_chunk self text s output = (events, Ok f)
    /\ (verbalizer_calls events <= length (generate_permutations s))%nat.
Proof.
  intros self text s output0. unfold verbalize_chunk.
  destruct (try_variants_trace self (generate_permutations s) None)
    as (k & lat & E).
  rewrite E.
  assert (Hk : (verbalizer_calls
                  (map (fun x => Verbalizer_applied (escape x))
                       (firstn k (generate_permutations s)))
                <= length (generate_permutations s))%nat).
  { rewrite verbalizer_calls_map, length_firstn. lia. }
  destruct lat as [l|].
  - unfold select_verbalizer, shortest_string, try_except, bind, lift, ret, emit.
    destruct (shortestpath l) as [p|]; cbn.
    + eexists. eexists. split; [reflexivity|].
      rewrite !app_nil_r. exact Hk.
    + eexists. eexists. split; [reflexivity|].
      rewrite app_nil_r, verbalizer_calls_app. cbn. lia.
  - cbn. eexists. eexists. split; [reflexivity|].
    rewrite verbalizer_calls_app. cbn. lia.
Qed.

Lemma verbalize_chunks_calls : forall self text chunks output,
  exists events f,
    verbalize_chunks self text chunks output = (events, Ok f)
    /\ (verbalizer_calls events <= variants_total chunks)%nat.
Proof.
  intros self text. induction chunks as [|s chunks IH]; intros output0.
  - exists [], (Fall_through output0). split; [reflexivity|]. cbn. lia.
  - cbn [verbalize_chunks variants_total fold_right].
    fold (variants_total chunks).
    destruct (verbalize_chunk_calls self text s output0)
      as (events & f & E & Hle).
    rewrite E. unfold bind. destruct f as [v|output'].
    + cbn. eexists. eexists. split; [reflexivity|].
      rewrite app_nil_r. lia.
    + destruct (IH output') as (events' & f' & E' & Hle').
      rewrite E'. eexists. eexists. split; [reflexivity|].
      rewrite verbalizer_calls_app. lia.
Qed.

Lemma finish_silent : forall self original_text output punct_post_process,
  fst (finish self original_text output punct_post_process) = [].
Proof.
  intros self original_text output0 post. unfold finish.
  destruct (post_processor self) as [rule|]; [|reflexivity].
  unfold lift, bind. destruct (post_process self output0); reflexivity.
Qed.

Lemma events_before_split_calls : forall text text' tagged_text verbose,
  verbalizer_calls (events_before_split text text' tagged_text verbose) = 0%nat.
Proof.
  intros. unfold events_before_split.
  destruct (500 <? count_words text)%nat; reflexivity.
Qed.

Lemma variants_total_bounded : forall max_perms chunks,
  Forall (fun c => Z.of_nat (length (generate_permutations c)) <= max_perms)
         chunks ->
  Z.of_nat (variants_total chunks) <= Z.of_nat (length chunks) * max_perms.
Proof.
  intros M chunks H. induction H as [|c chunks Hc _ IH]; [simpl; lia|].
  cbn [variants_total fold_right length]. fold (variants_total chunks).
  lia.
Qed.

Lemma nonempty_chunks_length : forall (A : Type) (chunks : list (list A)),
  Forall (fun c => c <> []) chunks ->
  (length chunks <= length (concat chunks))%nat.
Proof.
  intros A chunks H. induction H as [|c chunks Hc _ IH]; [simpl; lia|].
  cbn [concat length]. rewrite length_app.
  destruct c; [contradiction|]. simpl. lia.
Qed.

Lemma split_ok_concat : forall max_perms tokens chunks,
  _split_tokens_to_reduce_number_of_permutations max_perms tokens = Ok chunks ->
  concat chunks = tokens.
Proof.
  intros M tokens chunks Hok.
  destruct (@split_within_bound_shape _ _ (@split_ok_within_bound _ _ _ Hok))
    as (splits & current & _ & Hok' & Htok & _).
  rewrite Hok in Hok'. inversion Hok'. subst chunks.
  rewrite concat_app. simpl. rewrite app_nil_r. symmetry. exact Htok.
Qed.

Lemma split_ok_variants : forall max_perms tokens chunks,
  _split_tokens_to_reduce_number_of_permutations max_perms tokens = Ok chunks ->
  tokens <> [] ->
  Forall (fun c => Z.of_nat (length (generate_permutations c)) <= max_perms)
         chunks.
Proof.
  intros M tokens chunks Hok Hne.
  destruct (@split_within_bound_shape _ _ (@split_ok_within_bound _ _ _ Hok))
    as (splits & current & _ & Hok' & Htok & Hclosed & Hopen & Hempty).
  rewrite Hok in Hok'. inversion Hok'. subst chunks.
  apply Forall_app. split.
  - eapply Forall_impl; [|exact Hclosed]. intros c [_ Hc].
    rewrite generate_permutations_length.
    pose proof (variants_product_bounded c). lia.
  - constructor; [|constructor].
    rewrite generate_permutations_length.
    pose proof (variants_product_bounded current).
    assert (current <> []).
    { intros E. destruct (Hempty E) as [_ E']. contradiction. }
    specialize (Hopen H0). lia.
Qed.

(** X9.  The bound of the split bounds the work of a call: when the
    parser returns a non-empty token sequence, [normalize] applies the
    verbalizer grammar at most (number of tokens) times (the configured
    bound) times, whatever the grammars accept. *)
Theorem normalize_verbalizer_calls_bounded :
  forall self text verbose (punct_pre_process punct_post_process : bool)
         c text0 tagged_text tokens,
    strip (if punct_pre_process then pre_process self text else text)
    = c :: text0 ->
    select_tag (tagger_fst self (escape (c :: text0))) = Ok tagged_text ->
    parser self tagged_text = Ok tokens ->
    tokens <> [] ->
    0 <= max_number_of_permutations_per_split self ->
    Z.of_nat
      (verbalizer_calls
         (fst (normalize self text verbose punct_pre_process
                         punct_post_process)))
    <= Z.of_nat (length tokens) * max_number_of_permutations_per_split self.
Proof.
  intros self text verbose pre post c text0 tagged tokens
         Hstrip Htag Hparse Hne HM.
  destruct (_split_tokens_to_reduce_number_of_permutations
              (max_number_of_permutations_per_split self) tokens)
    as [chunks|e] eqn:Hsplit.
  - rewrite (normalize_unfold self text verbose pre post Hstrip
               Htag Hparse Hsplit).
    destruct (verbalize_chunks_calls self (escape (c :: text0)) chunks [])
      as (events & f & E & Hle).
    rewrite E.
    assert (Hbound : Z.of_nat (verbalizer_calls events)
                     <= Z.of_nat (length tokens)
                        * max_number_of_permutations_per_split self).
    { pose proof (@variants_total_bounded _ _
                    (@split_ok_variants _ _ _ Hsplit Hne)) as Hv.
      pose proof (@nonempty_chunks_length _ _
                    (@split_ok_chunks_nonempty _ _ _ Hsplit Hne)) as Hl.
      rewrite (@split_ok_concat _ _ _ Hsplit) in Hl. nia. }
    destruct f as [v|output0]; cbn [fst];
      rewrite ?verbalizer_calls_app, ?finish_silent,
        events_before_split_calls; cbn; lia.
  - rewrite (normalize_split_error self text verbose pre post Hstrip
               Htag Hparse Hsplit).
    cbn [fst]. rewrite events_before_split_calls. nia.
Qed.

Lemma normalize_verbalizer_calls_bounded_witness :
  Z.of_nat
    (verbalizer_calls
       (fst (normalize may_normalizer (lit "1") false false false)))
  <= Z.of_nat (length may_tokens)
     * max_number_of_permutations_per_split may_normalizer.
Proof.
  apply (@normalize_verbalizer_calls_bounded
           may_normalizer (lit "1") false false false
           49%N [] (may_tagging (lit "1")) may_tokens).
  - reflexivity.
  - reflexivity.
  - reflexivity.
  - discriminate.
  - vm_compute. discriminate.
Defined.

Lemma split_raises_value_error : forall max_perms tokens e,
  _split_tokens_to_reduce_number_of_permutations max_perms tokens = Raise e ->
  e = ValueError (Unsplittable_token_group max_perms)
  /\ Exists (fun t =>
               max_perms < _estimate_number_of_permutations_in_nested_dict t)
            tokens.
Proof.
  intros M tokens e Hraise.
  destruct (within_or_over M tokens) as [Hall|Hex].
  - destruct (@split_within_bound_shape _ _ Hall)
      as (splits & current & _ & Hok & _).
    rewrite Hok in Hraise. discriminate.
  - split; [|exact Hex].
    unfold _split_tokens_to_reduce_number_of_permutations in Hraise.
    rewrite (@split_loop_raises M tokens tokens 0%nat [] 0%nat 1 Hex)
      in Hraise.
    inversion Hraise. reflexivity.
Qed.

Lemma finish_raises : forall self original_text output punct_post_process e,
  snd (finish self original_text output punct_post_process) = Raise e ->
  exists rule, post_processor self = Some rule /\ e = RewriteError.
Proof.
  intros self original_text output0 post e. unfold finish, post_process.
  destruct (post_processor self) as [rule|]; [|discriminate].
  intros H. exists rule. split; [reflexivity|].
  destruct (strip output0) as [|c r]; [discriminate|].
  unfold top_rewrite, lift, bind in H.
  destruct (shortestpath _); [discriminate|].
  cbn in H. inversion H. reflexivity.
Qed.

(** X10.  What [normalize] can raise: nothing on a blank text and
    nothing from the verbalization of the chunks; an exception of the
    call is the one of the shortest path on an empty classification
    lattice, an exception of the parser, the [ValueError] of the split
    for a token whose estimate is above the bound, or the error of the
    rewrite in the post-processing, which needs a post-processor. *)
Theorem normalize_raises_only_outside_the_loop :
  forall self text verbose (punct_pre_process punct_post_process : bool) e,
    snd (normalize self text verbose punct_pre_process punct_post_process)
    = Raise e ->
    exists c text0,
      strip (if punct_pre_process then pre_process self text else text)
      = c :: text0
      /\ ((tagger_fst self (escape (c :: text0)) = [] /\ e = FstOpError)
          \/ exists tagged_text,
               select_tag (tagger_fst self (escape (c :: text0)))
               = Ok tagged_text
               /\ (parser self tagged_text = Raise e
                   \/ exists tokens,
                        parser self tagged_text = Ok tokens
                        /\ ((Exists
                               (fun t =>
                                  max_number_of_permutations_per_split self
                                  < _estimate_number_of_permutations_in_nested_dict t)
                               tokens
                             /\ e = ValueError
                                      (Unsplittable_token_group
                                         (max_number_of_permutations_per_split self)))
                            \/ (exists rule,
                                  post_processor self = Some rule
                                  /\ e = RewriteError)))).
Proof.
  intros self text verbose pre post e Hraise.
  destruct (strip (if pre then pre_process self text else text))
    as [|c text0] eqn:Hstrip.
  { exfalso. unfold normalize in Hraise. rewrite Hstrip in Hraise.
    destruct (500 <? count_words text)%nat; discriminate. }
  exists c, text0. split; [reflexivity|].
  destruct (tagger_fst self (escape (c :: text0))) as [|p0 l0] eqn:Hlat.
  { left. split; [reflexivity|].
    rewrite (normalize_empty_lattice self text verbose pre post Hstrip Hlat)
      in Hraise.
    inversion Hraise. reflexivity. }
  right.
  destruct (@shortestpath_some (p0 :: l0)) as (p & Hp); [discriminate|].
  assert (Htag : select_tag (tagger_fst self (escape (c :: text0)))
                 = Ok (output p)).
  { rewrite Hlat. unfold select_tag, shortest_string. rewrite Hp. reflexivity. }
  rewrite <- Hlat. exists (output p). split; [exact Htag|].
  destruct (parser self (output p)) as [tokens|e'] eqn:Hparse.
  2:{ left.
      rewrite (normalize_parser_error self text verbose pre post Hstrip
                 Htag Hparse) in Hraise.
      cbn [snd] in Hraise. inversion Hraise. reflexivity. }
  right. exists tokens. split; [reflexivity|].
  destruct (_split_tokens_to_reduce_number_of_permutations
              (max_number_of_permutations_per_split self) tokens)
    as [chunks|e'] eqn:Hsplit.
  - right.
    rewrite (normalize_unfold self text verbose pre post Hstrip
               Htag Hparse Hsplit) in Hraise.
    destruct (verbalize_chunks_calls self (escape (c :: text0)) chunks [])
      as (events & f & E & _).
    rewrite E in Hraise. destruct f as [v|output0]; [discriminate|].
    cbn [snd] in Hraise. eapply finish_raises. exact Hraise.
  - left.
    rewrite (normalize_split_error self text verbose pre post Hstrip
               Htag Hparse Hsplit) in Hraise.
    cbn [snd] in Hraise. inversion Hraise. subst e'.
    destruct (@split_raises_value_error _ _ _ Hsplit) as [He Hex].
    split; assumption.
Qed.

Lemma normalize_raises_only_outside_the_loop_witness :
  exists c text0,
    strip (lit "a") = c :: text0
    /\ ((tagger_fst deaf_normalizer (escape (c :: text0)) = []
         /\ FstOpError = FstOpError)
        \/ exists tagged_text,
             select_tag (tagger_fst deaf_normalizer (escape (c :: text0)))
             = Ok tagged_text
             /\ (parser deaf_normalizer tagged_text = Raise FstOpError
                 \/ exists tokens,
                      parser deaf_normalizer tagged_text = Ok tokens
                      /\ ((Exists
                             (fun t =>
                                max_number_of_permutations_per_split deaf_normalizer
                                < _estimate_number_of_permutations_in_nested_dict t)
                             tokens
                           /\ FstOpError
                              = ValueError
                                  (Unsplittable_token_group
                                     (max_number_of_permutations_per_split
                                        deaf_normalizer)))
                          \/ (exists rule,
                                post_processor deaf_normalizer = Some rule
                                /\ FstOpError = RewriteError)))).
Proof.
  apply (@normalize_raises_only_outside_the_loop
           deaf_normalizer (lit "a") false false false FstOpError).
  reflexivity.
Defined.

Lemma lstrip_snoc : forall s c,
  is_whitespace c = false -> lstrip (s ++ [c]) = lstrip s ++ [c].
Proof.
  induction s as [|x s IH]; intros c Hc; simpl.
  - rewrite Hc. reflexivity.
  - destruct (is_whitespace x); [apply IH; exact Hc|reflexivity].
Qed.

Lemma lstrip_head : forall s,
  lstrip s = [] \/ exists c r, lstrip s = c :: r /\ is_whitespace c = false.
Proof.
  induction s as [|x s IH]; simpl; [left; reflexivity|].
  destruct (is_whitespace x) eqn:Hx; [exact IH|].
  right. exists x, s. split; [reflexivity|exact Hx].
Qed.

Lemma lstrip_fixed : forall c r,
  is_whitespace c = false -> lstrip (c :: r) = c :: r.
Proof. intros c r H. simpl. rewrite H. reflexivity. Qed.

Lemma lstrip_idem : forall s, lstrip (lstrip s) = lstrip s.
Proof.
  intros s. destruct (lstrip_head s) as [E|(c & r & E & Hc)]; rewrite E.
  - reflexivity.
  - apply lstrip_fixed. exact Hc.
Qed.

Lemma rstrip_cons : forall c r,
  is_whitespace c = false -> rstrip (c :: r) = c :: rstrip r.
Proof.
  intros c r Hc. unfold rstrip. cbn [rev].
  rewrite (@lstrip_snoc _ _ Hc), rev_app_distr. reflexivity.
Qed.

Lemma rstrip_idem : forall s, rstrip (rstrip s) = rstrip s.
Proof.
  intros s. unfold rstrip. rewrite rev_involutive, lstrip_idem. reflexivity.
Qed.

(** [strip] does nothing to a stripped text. *)
Lemma strip_idem : forall s, strip (strip s) = strip s.
Proof.
  intros s. unfold strip.
  destruct (lstrip_head s) as [E|(c & r & E & Hc)]; rewrite E.
  - reflexivity.
  - rewrite (@rstrip_cons _ r Hc), (@lstrip_fixed _ _ Hc), <- (@rstrip_cons _ r Hc).
    apply rstrip_idem.
Qed.

Lemma count_words_lstrip : forall s,
  count_words_from false (lstrip s) = count_words_from false s.
Proof.
  induction s as [|x s IH]; [reflexivity|].
  simpl. destruct (is_whitespace x) eqn:Hx; [exact IH|].
  simpl. rewrite Hx. reflexivity.
Qed.

Lemma lstrip_split : forall s,
  exists w, s = w ++ lstrip s /\ Forall (fun c => is_whitespace c = true) w.
Proof.
  induction s as [|x s (w & E & Hw)].
  - exists []. split; [reflexivity|constructor].
  - simpl. destruct (is_whitespace x) eqn:Hx.
    + exists (x :: w). split; [simpl; f_equal; exact E|constructor; assumption].
    + exists []. split; [reflexivity|constructor].
Qed.

Lemma rstrip_split : forall s,
  exists w, s = rstrip s ++ w /\ Forall (fun c => is_whitespace c = true) w.
Proof.
  intros s. destruct (lstrip_split (rev s)) as (w & E & Hw).
  exists (rev w). split.
  - unfold rstrip. rewrite <- rev_app_distr, <- E, rev_involutive. reflexivity.
  - apply Forall_rev. exact Hw.
Qed.

Lemma count_words_trailing : forall s w in_word,
  Forall (fun c => is_whitespace c = true) w ->
  count_words_from in_word (s ++ w) = count_words_from in_word s.
Proof.
  induction s as [|x s IH]; intros w in_word Hw.
  - simpl. apply count_words_whitespace. exact Hw.
  - simpl. destruct (is_whitespace x); rewrite IH by exact Hw; reflexivity.
Qed.

Lemma count_words_strip : forall s, count_words (strip s) = count_words s.
Proof.
  intros s. unfold count_words, strip.
  destruct (rstrip_split (lstrip s)) as (w & E & Hw).
  rewrite <- (count_words_lstrip s). rewrite E at 2.
  rewrite (@count_words_trailing _ _ false Hw). reflexivity.
Qed.

(** X11.  Without the punctuation processing, the white space around
    the input does not matter: [normalize] on a text and on the stripped
    text logs the same events and gives the same result. *)
Theorem normalize_ignores_surrounding_whitespace : forall self text verbose,
  normalize self (strip text) verbose false false
  = normalize self text verbose false false.
Proof.
  intros self text verbose. unfold normalize.
  rewrite strip_idem, count_words_strip. reflexivity.
Qed.

(** X12.  The post-processing: [post_process] does not depend on the
    white space around the text; a blank text comes back empty without
    any rewrite; without a post-processor the result is the stripped
    text, escaped; and with one the call raises exactly when the text is
    not blank and the rule has no rewrite of the stripped, escaped text,
    the result being otherwise the output of a rewrite of minimum
    weight. *)
Theorem post_process_behaviour : forall self normalized_text,
  post_process self (strip normalized_text) = post_process self normalized_text
  /\ (strip normalized_text = [] -> post_process self normalized_text = Ok [])
  /\ (post_processor self = None ->
      post_process self normalized_text
      = Ok (match strip normalized_text with
            | [] => []
            | _ :: _ => escape (strip normalized_text)
            end))
  /\ (forall rule,
        post_processor self = Some rule ->
        strip normalized_text <> [] ->
        (rule (escape (strip normalized_text)) = [] ->
         post_process self normalized_text = Raise RewriteError)
        /\ (rule (escape (strip normalized_text)) <> [] ->
            exists p,
              post_process self normalized_text = Ok (output p)
              /\ In p (rule (escape (strip normalized_text)))
              /\ forall q, In q (rule (escape (strip normalized_text))) ->
                           (weight p <= weight q)%Q)).
Proof.
  intros self text. split; [|split; [|split]].
  - unfold post_process. rewrite strip_idem. reflexivity.
  - intros E. unfold post_process. rewrite E. reflexivity.
  - intros Hnone. unfold post_process. rewrite Hnone.
    destruct (strip text); reflexivity.
  - intros rule Hrule Hne. unfold post_process. rewrite Hrule.
    destruct (strip text) as [|c r] eqn:E; [contradiction|].
    unfold top_rewrite. split.
    + intros Hempty. rewrite Hempty. reflexivity.
    + intros Hsome. destruct (shortestpath_some Hsome) as (p & Hp).
      rewrite Hp. exists p. split; [reflexivity|].
      apply (shortestpath_spec _ Hp).
Qed.

Lemma post_process_behaviour_witness :
  post_process (with_post_processor may_normalizer echo_rule) (lit "  ") = Ok []
  /\ post_process may_normalizer (lit " [a] ")
     = Ok (match strip (lit " [a] ") with
           | [] => []
           | _ :: _ => escape (strip (lit " [a] "))
           end)
  /\ exists p,
       post_process (with_post_processor may_normalizer echo_rule) (lit " a ")
       = Ok (output p)
       /\ In p (echo_rule (escape (strip (lit " a "))))
       /\ forall q, In q (echo_rule (escape (strip (lit " a ")))) ->
                    (weight p <= weight q)%Q.
Proof.
  split; [|split].
  - apply (proj1 (proj2 (post_process_behaviour
                           (with_post_processor may_normalizer echo_rule)
                           (lit "  ")))).
    reflexivity.
  - apply (proj1 (proj2 (proj2 (post_process_behaviour
                                  may_normalizer (lit " [a] "))))).
    reflexivity.
  - apply (proj2 (proj2 (proj2 (proj2 (post_process_behaviour
                                         (with_post_processor may_normalizer
                                                              echo_rule)
                                         (lit " a "))))
                          echo_rule eq_refl ltac:(discriminate))).
    discriminate.
Defined.

(* ================================================================== *)
(** * Properties of [normalize_list] *)

Lemma process_batch_app : forall self a b verbose pre post,
  _process_batch self (a ++ b) verbose pre post
  = (la <- _process_batch self a verbose pre post ;;
     lb <- _process_batch self b verbose pre post ;;
     ret (la ++ lb)).
Proof.
  intros self a b verbose pre post. induction a as [|t a IH].
  - cbn [app _process_batch]. unfold bind, ret.
    destruct (_process_batch self b verbose pre post) as [ev [lb|e]];
      cbn; rewrite ?app_nil_r; reflexivity.
  - cbn [app _process_batch]. rewrite IH. unfold bind, ret.
    destruct (normalize self t verbose pre post) as [ev [l|e]];
      [|reflexivity].
    destruct (_process_batch self a verbose pre post) as [eva [la|e]];
      [|cbn; rewrite ?app_nil_r; reflexivity].
    destruct (_process_batch self b verbose pre post) as [evb [lb|e]];
      cbn; rewrite ?app_nil_r, ?app_assoc; reflexivity.
Qed.

(** Running the batches one after the other is processing all their
    texts as one batch. *)
Lemma run_batches_concat : forall self batches verbose pre post,
  match run_batches self batches verbose pre post with
  | (events, Ok lists) => (events, Ok (concat lists))
  | (events, Raise e) => (events, Raise e)
  end
  = _process_batch self (concat batches) verbose pre post.
Proof.
  intros self batches verbose pre post. induction batches as [|b batches IH].
  - reflexivity.
  - cbn [run_batches concat]. rewrite process_batch_app, <- IH.
    unfold bind, ret.
    destruct (_process_batch self b verbose pre post) as [ev [lb|e]];
      [|reflexivity].
    destruct (run_batches self batches verbose pre post) as [evs [ls|e]];
      cbn; rewrite ?app_nil_r; reflexivity.
Qed.

(** The slices taken at the indices of [range] make up the list. *)
Lemma range_slices_concat : forall (A : Type) (texts : list A) step fuel i,
  (1 <= step)%nat ->
  (length texts - i <= fuel)%nat ->
  concat (map (fun j => slice texts j (j + step))
              (range_from fuel i (length texts) step))
  = skipn i texts.
Proof.
  intros A texts step fuel. induction fuel as [|fuel IH]; intros i Hstep Hfuel.
  - simpl. symmetry. apply skipn_all2. lia.
  - cbn [range_from]. destruct (Nat.ltb_spec i (length texts)) as [Hlt|Hge].
    + cbn [map concat]. rewrite IH by lia.
      unfold slice. replace (i + step - i)%nat with step by lia.
      rewrite Nat.add_comm, <- skipn_skipn. apply firstn_skipn.
    + simpl. symmetry. apply skipn_all2. lia.
Qed.

Lemma normalize_list_one_batch : forall self texts verbose pre post batch_size,
  texts <> [] ->
  1 <= batch_size ->
  normalize_list self texts verbose pre post batch_size
  = list_outcome (_process_batch self texts verbose pre post).
Proof.
  intros self texts verbose pre post bs Hne Hbs.
  unfold normalize_list, range.
  assert (Hlen : (1 <= length texts)%nat).
  { destruct texts; [contradiction|simpl; lia]. }
  remember (Z.min (Z.of_nat (length texts)) bs) as batch eqn:Eb.
  assert (Hb : 1 <= batch) by lia.
  destruct (Z.eqb_spec batch 0) as [E|_]; [lia|].
  destruct (Z.ltb_spec batch 0) as [E|_]; [lia|].
  pose proof (run_batches_concat self
                (map (fun i => slice texts i (i + Z.to_nat batch))
                     (range_from (length texts) 0 (length texts)
                                 (Z.to_nat batch)))
                verbose pre post) as Hrun.
  rewrite range_slices_concat in Hrun by lia.
  cbn [skipn] in Hrun. rewrite <- Hrun.
  destruct (run_batches _ _ _ _ _) as [events [lists|e]]; reflexivity.
Qed.

(** X13.  Batching does not show: for a non-empty list of texts and a
    batch size of at least 1, [normalize_list] with one job logs and
    returns what normalizing the texts one after the other as a single
    batch does, whatever the batch size, the slices [texts[i:i+batch]]
    taken at the indices of [range] covering the list exactly. *)
Theorem normalize_list_batching_transparent :
  forall self texts verbose (punct_pre_process punct_post_process : bool)
         batch_size,
    texts <> [] ->
    1 <= batch_size ->
    normalize_list self texts verbose punct_pre_process punct_post_process
                   batch_size
    = list_outcome
        (_process_batch self texts verbose punct_pre_process
                        punct_post_process)
    /\ concat (map (fun i =>
                      slice texts i
                        (i + Z.to_nat (Z.min (Z.of_nat (length texts))
                                             batch_size)))
                   (range_from (length texts) 0 (length texts)
                      (Z.to_nat (Z.min (Z.of_nat (length texts)) batch_size))))
       = texts.
Proof.
  intros self texts verbose pre post bs Hne Hbs. split.
  - apply normalize_list_one_batch; assumption.
  - assert (Hlen : (1 <= length texts)%nat).
    { destruct texts; [contradiction|simpl; lia]. }
    rewrite range_slices_concat by lia. reflexivity.
Qed.

Lemma normalize_list_batching_transparent_witness :
  normalize_list (word_normalizer (lit "a")) [lit "a"; lit " b"; lit "a"]
                 false false false 2
  = list_outcome
      (_process_batch (word_normalizer (lit "a")) [lit "a"; lit " b"; lit "a"]
                      false false false)
  /\ concat (map (fun i =>
                    slice [lit "a"; lit " b"; lit "a"] i
                      (i + Z.to_nat (Z.min (Z.of_nat 3) 2)))
                 (range_from 3 0 3 (Z.to_nat (Z.min (Z.of_nat 3) 2))))
     = [lit "a"; lit " b"; lit "a"].
Proof.
  apply (@normalize_list_batching_transparent
           (word_normalizer (lit "a")) [lit "a"; lit " b"; lit "a"]
           false false false 2).
  - discriminate.
  - lia.
Defined.

(** X14.  The batch sizes [normalize_list] does not check: when
    [min(len(texts), batch_size)] is zero, so for an empty list with any
    batch size that is not negative (the default 1 included) and for a
    batch size of 0, the call raises the [ValueError] of [range] before
    any text is looked at; with a negative batch size it returns the
    empty list and normalizes nothing, however many texts it is given. *)
Theorem normalize_list_degenerate_batch :
  forall self texts verbose (punct_pre_process punct_post_process : bool)
         batch_size,
    ((texts = [] /\ 0 <= batch_size) \/ batch_size = 0 ->
     normalize_list self texts verbose punct_pre_process punct_post_process
                    batch_size
     = ([], Failed Range_step_zero))
    /\ (batch_size < 0 ->
        normalize_list self texts verbose punct_pre_process
                       punct_post_process batch_size
        = ([], Done [])).
Proof.
  intros self texts verbose pre post bs. split.
  - intros H. unfold normalize_list, range.
    assert (E : Z.min (Z.of_nat (length texts)) bs = 0).
    { destruct H as [[E H]|E]; subst; simpl; lia. }
    rewrite E. reflexivity.
  - intros H. unfold normalize_list, range.
    assert (E : Z.min (Z.of_nat (length texts)) bs = bs) by lia.
    rewrite E.
    destruct (Z.eqb_spec bs 0) as [E0|_]; [lia|].
    destruct (Z.ltb_spec bs 0) as [_|E0]; [reflexivity|lia].
Qed.

Lemma normalize_list_degenerate_batch_witness :
  normalize_list (word_normalizer (lit "a")) [] false false false 1
  = ([], Failed Range_step_zero).
Proof.
  apply (proj1 (normalize_list_degenerate_batch
                  (word_normalizer (lit "a")) [] false false false 1)).
  left. split; [reflexivity|lia].
Defined.

(** What a batch gives, text by text. *)
Lemma process_batch_spec : forall self texts verbose pre post,
  match _process_batch self texts verbose pre post with
  | (events, Ok lines) =>
      Forall2 (fun text line =>
                 snd (normalize self text verbose pre post) = Ok line)
              texts lines
      /\ events
         = concat (map (fun text => fst (normalize self text verbose pre post))
                       texts)
  | (events, Raise e) =>
      exists before text after,
        texts = before ++ text :: after
        /\ Forall (fun t => exists line,
                     snd (normalize self t verbose pre post) = Ok line)
                  before
        /\ snd (normalize self text verbose pre post) = Raise e
        /\ events
           = concat (map (fun t => fst (normalize self t verbose pre post))
                         (before ++ [text]))
  end.
Proof.
  intros self texts verbose pre post. induction texts as [|t texts IH].
  - cbn -[normalize]. split; [constructor|reflexivity].
  - cbn [_process_batch]. unfold bind, ret.
    destruct (normalize self t verbose pre post) as [ev [l|e]] eqn:Hn.
    + destruct (_process_batch self texts verbose pre post)
        as [evs [ls|e]].
      * destruct IH as [Hall Hev]. cbn -[normalize]. split.
        -- constructor; [rewrite Hn; reflexivity|exact Hall].
        -- rewrite Hn, app_nil_r, Hev. reflexivity.
      * destruct IH as (before & text & after & E & Hb & Ht & Hev).
        exists (t :: before), text, after. cbn -[normalize].
        split; [rewrite E; reflexivity|].
        split; [constructor; [exists l; rewrite Hn; reflexivity|exact Hb]|].
        split; [exact Ht|].
        rewrite Hn, Hev. reflexivity.
    + exists [], t, texts. cbn -[normalize]. rewrite Hn.
      split; [reflexivity|]. split; [constructor|].
      split; [reflexivity|]. cbn. rewrite app_nil_r. reflexivity.
Qed.

(** X15.  The lines come back in the order of the texts, and the first
    failure ends the call: for a non-empty list and a batch size of at
    least 1, when [normalize_list] returns, its result holds for each
    text, in order, what [normalize] returns for it, and the events are
    those of these calls one after the other; when it raises, it is what
    [normalize] raised on the first text it fails on, after the events of
    the calls up to that one, and no line is returned. *)
Theorem normalize_list_in_order :
  forall self texts verbose (punct_pre_process punct_post_process : bool)
         batch_size events,
    texts <> [] ->
    1 <= batch_size ->
    (forall lines,
       normalize_list self texts verbose punct_pre_process
                      punct_post_process batch_size
       = (events, Done lines) ->
       Forall2 (fun text line =>
                  snd (normalize self text verbose punct_pre_process
                                 punct_post_process) = Ok line)
               texts lines
       /\ events
          = concat (map (fun text =>
                           fst (normalize self text verbose punct_pre_process
                                          punct_post_process))
                        texts))
    /\ (forall e,
          normalize_list self texts verbose punct_pre_process
                         punct_post_process batch_size
          = (events, Failed e) ->
          exists before text after e',
            texts = before ++ text :: after
            /\ e = Normalize_raised e'
            /\ Forall (fun t => exists line,
                         snd (normalize self t verbose punct_pre_process
                                        punct_post_process) = Ok line)
                      before
            /\ snd (normalize self text verbose punct_pre_process
                              punct_post_process) = Raise e'
            /\ events
               = concat (map (fun t =>
                                fst (normalize self t verbose
                                       punct_pre_process punct_post_process))
                             (before ++ [text]))).
Proof.
  intros self texts verbose pre post bs events Hne Hbs.
  rewrite (@normalize_list_one_batch self texts verbose pre post bs Hne Hbs).
  pose proof (process_batch_spec self texts verbose pre post) as Hspec.
  destruct (_process_batch self texts verbose pre post) as [ev [ls|e0]];
    cbn [list_outcome]; split.
  - intros lines E. inversion E. subst. exact Hspec.
  - intros e E. discriminate.
  - intros lines E. discriminate.
  - intros e E. inversion E. subst.
    destruct Hspec as (before & text & after & Ht & Hb & Hr & Hev).
    exists before, text, after, e0.
    split; [exact Ht|]. split; [reflexivity|]. split; [exact Hb|].
    split; [exact Hr|exact Hev].
Qed.

Lemma normalize_list_in_order_witness :
  exists before text after e',
    [lit "a"; lit "a"] = before ++ text :: after
    /\ Normalize_raised FstOpError = Normalize_raised e'
    /\ Forall (fun t => exists line,
                 snd (normalize deaf_normalizer t false false false) = Ok line)
              before
    /\ snd (normalize deaf_normalizer text false false false) = Raise e'
    /\ [Set_level false; Tagger_applied (lit "a")]
       = concat (map (fun t =>
                        fst (normalize deaf_normalizer t false false false))
                     (before ++ [text])).
Proof.
  apply (proj2 (@normalize_list_in_order
                  deaf_normalizer [lit "a"; lit "a"] false false false 1
                  [Set_level false; Tagger_applied (lit "a")]
                  ltac:(discriminate) ltac:(lia))
           (Normalize_raised FstOpError)).
  reflexivity.
Defined.

(* ================================================================== *)
(** * Properties of the other rewrites of the Hindi classifier *)

Section rewrite_rules.

Variable a : N.
Variable b : str.
Variables left right : N -> bool.

(** A character of the right context is not rewritten itself when the
    pattern is outside that context; then the left context, which the
    rewrite reads on what it has written, is the one of the input. *)
Lemma cdrewrite_char_reads_input : forall s p q,
  right a = false ->
  p = q \/ match s with n :: _ => N.eqb n a = false | [] => True end ->
  cdrewrite_char a b left right p s = rewrite_on_input a b left right q s.
Proof.
  induction s as [|c r IH]; intros p q Ha Hpq; [reflexivity|].
  cbn [cdrewrite_char rewrite_on_input].
  fold (in_class left p).
  destruct (N.eqb c a) eqn:Hc.
  - destruct Hpq as [<-|Habs]; [|discriminate].
    destruct r as [|n r'].
    + rewrite !andb_false_r. reflexivity.
    + destruct (in_class left p && right n)%bool eqn:Hcond.
      * cbn [andb]. rewrite Hcond. f_equal. apply IH; [exact Ha|].
        right. apply andb_prop in Hcond as [_ Hn].
        apply N.eqb_neq. intros E. subst n. congruence.
      * cbn [andb]. rewrite Hcond. f_equal. apply IH; [exact Ha|].
        left. reflexivity.
  - cbn [andb]. f_equal. apply IH; [exact Ha|]. left. reflexivity.
Qed.

Lemma rewrite_on_input_length : forall x s before,
  length (rewrite_on_input a [x] left right before s) = length s.
Proof.
  intros x. induction s as [|c r IH]; intros before; [reflexivity|].
  cbn [rewrite_on_input]. rewrite length_app, IH.
  destruct (_ && _ && _)%bool; reflexivity.
Qed.

Lemma rewrite_on_input_nth : forall x s before i,
  nth_error (rewrite_on_input a [x] left right before s) i
  = match nth_error s i with
    | None => None
    | Some c =>
        Some (if (N.eqb c a
                  && match i with
                     | O => in_class left before
                     | S j => match nth_error s j with
                              | Some p => left p
                              | None => false
                              end
                     end
                  && match nth_error s (S i) with
                     | Some n => right n
                     | None => false
                     end)%bool
              then x else c)
    end.
Proof.
  intros x. induction s as [|c r IH]; intros before i.
  - destruct i; reflexivity.
  - cbn [rewrite_on_input].
    destruct i as [|j].
    + cbn [nth_error].
      replace (match r with n :: _ => right n | [] => false end)
        with (match nth_error r 0 with Some n => right n | None => false end)
        by (destruct r; reflexivity).
      destruct (_ && _ && _)%bool; reflexivity.
    + assert (E : forall o : str, length o = 1%nat ->
                nth_error (o ++ rewrite_on_input a [x] left right (Some c) r)
                          (S j)
                = nth_error (rewrite_on_input a [x] left right (Some c) r) j).
      { intros [|y [|z o]] Ho; try discriminate. reflexivity. }
      rewrite E by (destruct (_ && _ && _)%bool; reflexivity).
      rewrite IH. cbn [nth_error].
      destruct (nth_error r j) as [y|]; [|reflexivity].
      destruct j as [|j']; reflexivity.
Qed.

(** Where no [a] stands after a character of the left context, nothing
    is rewritten. *)
Lemma rewrite_on_input_fixed : forall s before,
  stands_after left a s = false ->
  (match s with c :: _ => c = a -> in_class left before = false | [] => True end) ->
  rewrite_on_input a b left right before s = s.
Proof.
  induction s as [|c r IH]; intros before Hin Hhead; [reflexivity|].
  cbn [rewrite_on_input].
  assert (Hcond : (N.eqb c a && in_class left before)%bool = false).
  { destruct (N.eqb_spec c a) as [E|_]; [|reflexivity].
    rewrite (Hhead E). reflexivity. }
  rewrite Hcond. cbn [andb app]. f_equal.
  cbn [stands_after] in Hin. apply orb_false_iff in Hin as [Hc Hr].
  apply IH; [exact Hr|].
  destruct r as [|n r']; [exact I|]. intros E. subst n.
  cbn [in_class]. rewrite N.eqb_refl, andb_true_r in Hc. exact Hc.
Qed.

(** Where no character of the right context stands, nothing is
    rewritten. *)
Lemma cdrewrite_char_no_right : forall s prev,
  forallb (fun c => negb (right c)) s = true ->
  cdrewrite_char a b left right prev s = s.
Proof.
  induction s as [|c r IH]; intros prev H; [reflexivity|].
  cbn [forallb] in H. apply andb_prop in H as [_ Hr].
  cbn [cdrewrite_char].
  assert (Hnext : match r with n :: _ => right n | [] => false end = false).
  { destruct r as [|n r']; [reflexivity|].
    cbn [forallb] in Hr. apply andb_prop in Hr as [Hn _].
    apply negb_true_iff in Hn. exact Hn. }
  rewrite Hnext, andb_false_r. cbn [app]. f_equal. apply IH. exact Hr.
Qed.

Lemma cdrewrite_right_head : forall x s,
  hd_error (cdrewrite_right a (a :: x) right s) = hd_error s.
Proof.
  intros x [|c r]; [reflexivity|]. cbn [cdrewrite_right].
  destruct (N.eqb_spec c a) as [E|_]; [|reflexivity].
  subst c. destruct (match r with n :: _ => right n | [] => false end);
    reflexivity.
Qed.

(** After the rewrite of [a] by [a] and a character outside the right
    context, no [a] stands directly before a character of that
    context. *)
Lemma cdrewrite_right_unglues : forall x s,
  right x = false -> x <> a ->
  glued a right (cdrewrite_right a [a; x] right s) = false.
Proof.
  intros x s Hx Hxa. induction s as [|c r IH]; [reflexivity|].
  cbn [cdrewrite_right].
  assert (Hnext : match cdrewrite_right a [a; x] right r with
                  | n :: _ => right n
                  | [] => false
                  end
                  = match r with n :: _ => right n | [] => false end).
  { pose proof (cdrewrite_right_head [x] r) as Hh.
    destruct (cdrewrite_right a [a; x] right r), r; cbn in Hh;
      try discriminate; try reflexivity.
    inversion Hh. reflexivity. }
  destruct (N.eqb c a && match r with n :: _ => right n | [] => false end)%bool
    eqn:Hcond.
  - cbn [app glued]. rewrite Hx, IH, andb_false_r.
    apply N.eqb_neq in Hxa. rewrite Hxa. reflexivity.
  - cbn [app glued]. rewrite Hnext, Hcond, IH. reflexivity.
Qed.

Lemma cdrewrite_right_fixed : forall s,
  glued a right s = false -> cdrewrite_right a b right s = s.
Proof.
  induction s as [|c r IH]; intros H; [reflexivity|].
  cbn [glued] in H. apply orb_false_iff in H as [Hc Hr].
  cbn [cdrewrite_right]. rewrite Hc, (IH Hr). reflexivity.
Qed.

Lemma cdrewrite_char_absent : forall s prev,
  forallb (fun c => negb (N.eqb c a)) s = true ->
  cdrewrite_char a b left right prev s = s.
Proof.
  induction s as [|c r IH]; intros prev H; [reflexivity|].
  cbn [forallb] in H. apply andb_prop in H as [Hc Hr].
  apply negb_true_iff in Hc.
  cbn [cdrewrite_char]. rewrite Hc. cbn [andb app]. f_equal.
  apply IH. exact Hr.
Qed.

Lemma cdrewrite_right_absent : forall s,
  forallb (fun c => negb (N.eqb c a)) s = true ->
  cdrewrite_right a b right s = s.
Proof.
  induction s as [|c r IH]; intros H; [reflexivity|].
  cbn [forallb] in H. apply andb_prop in H as [Hc Hr].
  apply negb_true_iff in Hc.
  cbn [cdrewrite_right]. rewrite Hc. cbn [andb app]. f_equal.
  apply IH. exact Hr.
Qed.

Lemma cdrewrite_insert_absent : forall s prev,
  forallb (fun c => negb (left c)) s = true ->
  in_class left prev = false ->
  cdrewrite_insert b left right prev s = s.
Proof.
  induction s as [|c r IH]; intros prev H Hprev; [reflexivity|].
  cbn [forallb] in H. apply andb_prop in H as [Hc Hr].
  apply negb_true_iff in Hc.
  cbn [cdrewrite_insert]. fold (in_class left prev). rewrite Hprev.
  cbn [andb app]. f_equal. apply IH; assumption.
Qed.

Variable keep : N -> bool.

Lemma filter_singleton_app : forall c (r : str),
  filter keep [c] ++ r = (if keep c then c :: r else r).
Proof. intros c r. simpl. destruct (keep c); reflexivity. Qed.

Lemma filter_cdrewrite_char : forall s prev,
  filter keep b = filter keep [a] ->
  filter keep (cdrewrite_char a b left right prev s) = filter keep s.
Proof.
  induction s as [|c r IH]; intros prev Hb; [reflexivity|].
  cbn [cdrewrite_char]. rewrite filter_app, (IH _ Hb).
  change (filter keep (c :: r))
    with (if keep c then c :: filter keep r else filter keep r).
  rewrite <- filter_singleton_app.
  destruct (N.eqb_spec c a) as [E|_]; [|reflexivity].
  subst c. destruct (_ && _ && _)%bool; [rewrite Hb|]; reflexivity.
Qed.

Lemma filter_cdrewrite_right : forall s,
  filter keep b = filter keep [a] ->
  filter keep (cdrewrite_right a b right s) = filter keep s.
Proof.
  induction s as [|c r IH]; intros Hb; [reflexivity|].
  cbn [cdrewrite_right]. rewrite filter_app, (IH Hb).
  change (filter keep (c :: r))
    with (if keep c then c :: filter keep r else filter keep r).
  rewrite <- filter_singleton_app.
  destruct (N.eqb_spec c a) as [E|_]; [|reflexivity].
  subst c. destruct (_ && _)%bool; [rewrite Hb|]; reflexivity.
Qed.

Lemma filter_cdrewrite_insert : forall s prev,
  filter keep b = [] ->
  filter keep (cdrewrite_insert b left right prev s) = filter keep s.
Proof.
  induction s as [|c r IH]; intros prev Hb; [reflexivity|].
  cbn [cdrewrite_insert]. rewrite filter_app.
  change (filter keep (c :: cdrewrite_insert b left right (Some c) r))
    with (if keep c
          then c :: filter keep (cdrewrite_insert b left right (Some c) r)
          else filter keep (cdrewrite_insert b left right (Some c) r)).
  rewrite (IH _ Hb).
  destruct (_ && _)%bool; [rewrite Hb|]; reflexivity.
Qed.

End rewrite_rules.

Lemma emdash_joiner_reads_input : forall s,
  emdash_joiner_to_space s
  = rewrite_on_input EM_DASH [32%N] digit_right hi_block None s.
Proof.
  intros s. unfold emdash_joiner_to_space. change (lit " ") with [32%N].
  apply cdrewrite_char_reads_input; [reflexivity|left; reflexivity].
Qed.

(** X16.  The em-dash joiner: [emdash_joiner_to_space] keeps the length
    of the text and changes a character exactly when it is an em-dash
    between a digit (ASCII or Devanagari) and a character of the
    Devanagari block, which becomes a space; the text [3.14] followed by
    an em-dash and two letters of the block becomes [3.14], a space and
    the two letters. *)
Theorem emdash_joiner_to_space_between_digit_and_block : forall s,
  length (emdash_joiner_to_space s) = length s
  /\ (forall i,
        nth_error (emdash_joiner_to_space s) i
        = if emdash_joiner_at s i then Some 32%N else nth_error s i)
  /\ emdash_joiner_to_space (lit "3.14" ++ [EM_DASH; 2324; 2352]%N)
     = lit "3.14 " ++ [2324; 2352]%N.
Proof.
  intros s. split; [|split].
  - rewrite emdash_joiner_reads_input. apply rewrite_on_input_length.
  - intros i. rewrite emdash_joiner_reads_input, rewrite_on_input_nth.
    unfold emdash_joiner_at.
    destruct (nth_error s i) as [c|]; [|reflexivity].
    destruct i as [|j]; cbn [in_class];
      match goal with
      | |- context [if ?c then Some _ else Some _] => destruct c
      end; reflexivity.
  - reflexivity.
Qed.

Lemma equals_reads_input : forall NEMO_NOT_SPACE s,
  equals_to_spaced NEMO_NOT_SPACE s
  = rewrite_on_input 61 (lit " = ") (non_digit_left NEMO_NOT_SPACE)
                     digit_right None s.
Proof.
  intros NS s. unfold equals_to_spaced.
  apply cdrewrite_char_reads_input; [reflexivity|left; reflexivity].
Qed.

Lemma equals_fixed : forall NEMO_NOT_SPACE s,
  stands_after (non_digit_left NEMO_NOT_SPACE) 61 s = false ->
  equals_to_spaced NEMO_NOT_SPACE s = s.
Proof.
  intros NS s H. rewrite equals_reads_input.
  apply rewrite_on_input_fixed; [exact H|].
  destruct s; [exact I|]. reflexivity.
Qed.

(** X17.  The equals sign: [equals_to_spaced] can be read on the input
    alone, the character before an equals sign being never rewritten;
    it leaves a text unchanged in which no equals sign stands directly
    after a character that is neither white space nor a digit (the tight
    [10-2=8] of the comment, or an equals sign at the start), and it puts
    a space on each side of an equals sign between such a character and
    a digit. *)
Theorem equals_to_spaced_keeps_tight_math : forall NEMO_NOT_SPACE s,
  equals_to_spaced NEMO_NOT_SPACE s
  = rewrite_on_input 61 (lit " = ") (non_digit_left NEMO_NOT_SPACE)
                     digit_right None s
  /\ (stands_after (non_digit_left NEMO_NOT_SPACE) 61 s = false ->
      equals_to_spaced NEMO_NOT_SPACE s = s)
  /\ (forall p d,
        non_digit_left NEMO_NOT_SPACE p = true ->
        digit_right d = true ->
        equals_to_spaced NEMO_NOT_SPACE [p; 61%N; d]
        = [p] ++ lit " = " ++ [d]).
Proof.
  intros NS s. split; [apply equals_reads_input|]. split.
  - apply equals_fixed.
  - intros p d Hp Hd. rewrite equals_reads_input.
    cbn [rewrite_on_input in_class]. rewrite Hp, Hd, !andb_false_r.
    reflexivity.
Qed.

Lemma equals_to_spaced_keeps_tight_math_witness :
  equals_to_spaced (fun c => negb (is_whitespace c)) (lit "10-2=8")
  = lit "10-2=8"
  /\ equals_to_spaced (fun c => negb (is_whitespace c)) [960%N; 61%N; 51%N]
     = [960%N] ++ lit " = " ++ [51%N].
Proof.
  split.
  - apply (proj1 (proj2 (equals_to_spaced_keeps_tight_math
                           (fun c => negb (is_whitespace c)) (lit "10-2=8")))).
    reflexivity.
  - apply (proj2 (proj2 (equals_to_spaced_keeps_tight_math
                           (fun c => negb (is_whitespace c)) []))).
    + reflexivity.
    + reflexivity.
Defined.

(** X18.  The em-dash before a number: after [emdash_to_spaced] no
    em-dash stands directly before a digit; the rewrite adds spaces and
    nothing else, and applying it again changes nothing; the text of the
    comment, an em-dash glued to [3.14], gets the space. *)
Theorem emdash_to_spaced_unglues : forall s,
  glued EM_DASH digit_right (emdash_to_spaced s) = false
  /\ unspaced (emdash_to_spaced s) = unspaced s
  /\ emdash_to_spaced (emdash_to_spaced s) = emdash_to_spaced s
  /\ emdash_to_spaced (EM_DASH :: lit "3.14") = EM_DASH :: lit " 3.14".
Proof.
  intros s.
  assert (Hglued : glued EM_DASH digit_right (emdash_to_spaced s) = false).
  { apply cdrewrite_right_unglues; [reflexivity|discriminate]. }
  split; [exact Hglued|]. split; [|split].
  - unfold unspaced, emdash_to_spaced. apply filter_cdrewrite_right.
    reflexivity.
  - unfold emdash_to_spaced at 1. apply cdrewrite_right_fixed. exact Hglued.
  - reflexivity.
Qed.

Lemma forallb_weaken : forall (A : Type) (f g : A -> bool) l,
  (forall x, f x = true -> g x = true) ->
  forallb f l = true -> forallb g l = true.
Proof.
  intros A f g l Hfg H. rewrite forallb_forall in *.
  intros x Hx. apply Hfg, H, Hx.
Qed.

(** X19.  The rewrites in front of the classifier only make room: the
    text they hand to the classifier graph is the input up to spaces,
    hyphens and em-dashes (a space is inserted, or a hyphen or em-dash
    becomes a space, and no other character is added, dropped or moved);
    and a text without mathematical symbol, em-dash and character of the
    Devanagari block in which no equals sign stands directly after a
    character that is neither white space nor a digit, such as [10-2=8],
    goes through unchanged. *)
Theorem pre_classification_rewrites_only_make_room :
  forall NEMO_NOT_SPACE NEMO_ALPHA s,
    skeleton (pre_classification_rewrites NEMO_NOT_SPACE NEMO_ALPHA s)
    = skeleton s
    /\ (forallb (fun c => negb (math_symbols c || (c =? EM_DASH)%N
                            || hi_block c))
                s = true ->
        stands_after (non_digit_left NEMO_NOT_SPACE) 61 s = false ->
        pre_classification_rewrites NEMO_NOT_SPACE NEMO_ALPHA s = s).
Proof.
  intros NS ALPHA s. split.
  - unfold pre_classification_rewrites, skeleton, joiner_hyphen_to_space,
      equals_to_spaced, emdash_to_spaced, emdash_joiner_to_space,
      math_symbol_to_spaced.
    rewrite filter_cdrewrite_char by reflexivity.
    rewrite filter_cdrewrite_char by reflexivity.
    rewrite filter_cdrewrite_right by reflexivity.
    rewrite filter_cdrewrite_char by reflexivity.
    apply filter_cdrewrite_insert. reflexivity.
  - intros Hall Heq. unfold pre_classification_rewrites.
    assert (Hmath : math_symbol_to_spaced ALPHA s = s).
    { unfold math_symbol_to_spaced.
      apply cdrewrite_insert_absent; [|reflexivity].
      revert Hall. apply forallb_weaken. intros c Hc.
      apply negb_true_iff in Hc. apply orb_false_iff in Hc as [Hc _].
      apply orb_false_iff in Hc as [Hc _]. rewrite Hc. reflexivity. }
    assert (Hdash : forallb (fun c => negb (N.eqb c EM_DASH)) s = true).
    { revert Hall. apply forallb_weaken. intros c Hc.
      apply negb_true_iff in Hc. apply orb_false_iff in Hc as [Hc _].
      apply orb_false_iff in Hc as [_ Hc]. rewrite Hc. reflexivity. }
    assert (Hblock : forallb (fun c => negb (right_ctx c)) s = true).
    { revert Hall. apply forallb_weaken. intros c Hc.
      apply negb_true_iff in Hc. apply orb_false_iff in Hc as [_ Hc].
      unfold right_ctx. rewrite Hc. reflexivity. }
    rewrite Hmath.
    unfold emdash_joiner_to_space.
    rewrite (@cdrewrite_char_absent EM_DASH (lit " ") digit_right hi_block
               s None Hdash).
    unfold emdash_to_spaced.
    rewrite (@cdrewrite_right_absent EM_DASH [EM_DASH; 32%N] digit_right
               s Hdash).
    rewrite (@equals_fixed NS s Heq).
    unfold joiner_hyphen_to_space.
    apply cdrewrite_char_no_right. exact Hblock.
Qed.

Lemma pre_classification_rewrites_only_make_room_witness :
  pre_classification_rewrites (fun c => negb (is_whitespace c))
    (fun c => ((97 <=? c) && (c <=? 122))%N) (lit "10-2=8")
  = lit "10-2=8".
Proof.
  apply (proj2 (pre_classification_rewrites_only_make_room
                  (fun c => negb (is_whitespace c))
                  (fun c => ((97 <=? c) && (c <=? 122))%N) (lit "10-2=8"))).
  - reflexivity.
  - reflexivity.
Defined.

Lemma hi_digit_in_block : forall d, NEMO_HI_DIGIT d = true -> hi_block d = true.
Proof.
  intros d H. unfold NEMO_HI_DIGIT in H. unfold hi_block.
  apply andb_prop in H as [H1 H2].
  apply N.leb_le in H1. apply N.leb_le in H2.
  apply andb_true_intro. split; [apply N.leb_le|apply N.ltb_lt]; lia.
Qed.

Lemma ascii_digit_outside_block : forall d,
  NEMO_DIGIT d = true -> hi_block d = false.
Proof.
  intros d H. unfold NEMO_DIGIT in H. unfold hi_block.
  apply andb_prop in H as [H1 H2].
  apply N.leb_le in H1. apply N.leb_le in H2.
  apply andb_false_intro1. apply N.leb_gt. lia.
Qed.

(** X20.  The script of the second number decides: a hyphen between a
    digit and a Devanagari digit (which is a character of the block
    U+0900 to U+097F) is turned into a space by
    [joiner_hyphen_to_space], while a hyphen between a digit and an ASCII
    digit is kept. *)
Theorem joiner_hyphen_before_devanagari_digit : forall s i p d,
  nth_error s i = Some p ->
  left_ctx p = true ->
  nth_error s (S i) = Some 45%N ->
  nth_error s (S (S i)) = Some d ->
  (NEMO_HI_DIGIT d = true ->
   nth_error (joiner_hyphen_to_space s) (S i) = Some 32%N)
  /\ (NEMO_DIGIT d = true ->
      nth_error (joiner_hyphen_to_space s) (S i) = Some 45%N).
Proof.
  intros s i p d Hp Hleft Hh Hd.
  unfold joiner_hyphen_to_space. rewrite joiner_rewrite_nth.
  rewrite Hh, Hp, Hd, Hleft. cbn [N.eqb andb]. split; intros H.
  - rewrite (hi_digit_in_block _ H). reflexivity.
  - rewrite (ascii_digit_outside_block _ H). reflexivity.
Qed.

Lemma joiner_hyphen_before_devanagari_digit_witness :
  (NEMO_HI_DIGIT 2408 = true ->
   nth_error (joiner_hyphen_to_space [2407; 2406; 45; 2408]%N) 2
   = Some 32%N)
  /\ (NEMO_DIGIT 2408 = true ->
      nth_error (joiner_hyphen_to_space [2407; 2406; 45; 2408]%N) 2
      = Some 45%N).
Proof.
  apply (@joiner_hyphen_before_devanagari_digit
           [2407; 2406; 45; 2408]%N 1%nat 2406%N 2408%N).
  - reflexivity.
  - reflexivity.
  - reflexivity.
  - reflexivity.
Defined.

Section insertion.

Variable x : N.
Variables left right : N -> bool.
Hypothesis left_x : left x = false.
Hypothesis right_x : right x = false.

(** After the insertion of [x] between the two classes, no character of
    the first stands directly before one of the second. *)
Lemma cdrewrite_insert_separates : forall s prev,
  adjacent left right (cdrewrite_insert [x] left right prev s) = false
  /\ (in_class left prev
      && match cdrewrite_insert [x] left right prev s with
         | n :: _ => right n
         | [] => false
         end)%bool = false.
Proof.
  induction s as [|c r IH]; intros prev.
  - split; [reflexivity|apply andb_false_r].
  - cbn [cdrewrite_insert]. fold (in_class left prev).
    destruct (IH (Some c)) as [Hadj Hhead]. cbn [in_class] in Hhead.
    assert (Hc : adjacent left right
                   (c :: cdrewrite_insert [x] left right (Some c) r) = false).
    { cbn [adjacent]. rewrite Hhead, Hadj. reflexivity. }
    destruct (in_class left prev && right c)%bool eqn:Hcond.
    + cbn [app]. split.
      * cbn [adjacent] in Hc |- *. rewrite left_x. exact Hc.
      * rewrite right_x. apply andb_false_r.
    + cbn [app]. split; [exact Hc|exact Hcond].
Qed.

Lemma cdrewrite_insert_fixed : forall b s prev,
  adjacent left right s = false ->
  (in_class left prev
   && match s with n :: _ => right n | [] => false end)%bool = false ->
  cdrewrite_insert b left right prev s = s.
Proof.
  intros b. induction s as [|c r IH]; intros prev Hadj Hhead; [reflexivity|].
  cbn [cdrewrite_insert]. fold (in_class left prev). rewrite Hhead.
  cbn [app]. f_equal.
  cbn [adjacent] in Hadj. apply orb_false_iff in Hadj as [Hc Hr].
  apply IH; [exact Hr|exact Hc].
Qed.

End insertion.

(** X21.  Room after a mathematical symbol: when the space is not a
    letter of [NEMO_ALPHA], after [math_symbol_to_spaced] no
    mathematical symbol stands directly before a digit or a letter; the
    rewrite adds spaces and nothing else, and applying it again changes
    nothing; a square root glued to [2] gets the space, as in the
    comment. *)
Theorem math_symbol_to_spaced_separates : forall NEMO_ALPHA s,
  NEMO_ALPHA 32%N = false ->
  adjacent math_symbols (following_char NEMO_ALPHA)
           (math_symbol_to_spaced NEMO_ALPHA s) = false
  /\ unspaced (math_symbol_to_spaced NEMO_ALPHA s) = unspaced s
  /\ math_symbol_to_spaced NEMO_ALPHA (math_symbol_to_spaced NEMO_ALPHA s)
     = math_symbol_to_spaced NEMO_ALPHA s
  /\ math_symbol_to_spaced NEMO_ALPHA [8730%N; 50%N] = [8730%N; 32%N; 50%N].
Proof.
  intros ALPHA s Hspace.
  assert (Hf : following_char ALPHA 32 = false).
  { unfold following_char. rewrite Hspace. reflexivity. }
  destruct (@cdrewrite_insert_separates 32%N math_symbols
              (following_char ALPHA) eq_refl Hf s None) as [Hadj _].
  change [32%N] with (lit " ") in Hadj.
  fold (math_symbol_to_spaced ALPHA s) in Hadj.
  split; [exact Hadj|]. split; [|split].
  - unfold unspaced, math_symbol_to_spaced. apply filter_cdrewrite_insert.
    reflexivity.
  - unfold math_symbol_to_spaced at 1.
    apply cdrewrite_insert_fixed; [exact Hadj|reflexivity].
  - reflexivity.
Qed.

Lemma math_symbol_to_spaced_separates_witness :
  adjacent math_symbols (following_char (fun c => ((97 <=? c) && (c <=? 122))%N))
           (math_symbol_to_spaced (fun c => ((97 <=? c) && (c <=? 122))%N)
                                  [8721%N; 120%N; 8730%N; 50%N]) = false
  /\ unspaced (math_symbol_to_spaced (fun c => ((97 <=? c) && (c <=? 122))%N)
                                     [8721%N; 120%N; 8730%N; 50%N])
     = unspaced [8721%N; 120%N; 8730%N; 50%N]
  /\ math_symbol_to_spaced (fun c => ((97 <=? c) && (c <=? 122))%N)
       (math_symbol_to_spaced (fun c => ((97 <=? c) && (c <=? 122))%N)
                              [8721%N; 120%N; 8730%N; 50%N])
     = math_symbol_to_spaced (fun c => ((97 <=? c) && (c <=? 122))%N)
                             [8721%N; 120%N; 8730%N; 50%N]
  /\ math_symbol_to_spaced (fun c => ((97 <=? c) && (c <=? 122))%N)
                           [8730%N; 50%N]
     = [8730%N; 32%N; 50%N].
Proof.
  apply (@math_symbol_to_spaced_separates
           (fun c => ((97 <=? c) && (c <=? 122))%N)
           [8721%N; 120%N; 8730%N; 50%N]).
  reflexivity.
Defined.

Lemma joiner_nth : forall s i,
  nth_error (joiner_hyphen_to_space s) i
  = if joiner_hyphen_at s i then Some 32%N else nth_error s i.
Proof.
  intros s i. unfold joiner_hyphen_to_space. rewrite joiner_rewrite_nth.
  unfold joiner_hyphen_at.
  destruct (nth_error s i) as [c|]; [|reflexivity].
  destruct i as [|j]; cbn [left_ctx_of];
    match goal with
    | |- context [if ?c then Some _ else Some _] => destruct c
    end; reflexivity.
Qed.

Lemma joiner_leaves_none : forall s i,
  joiner_hyphen_at (joiner_hyphen_to_space s) i = false.
Proof.
  intros s i.
  destruct (joiner_hyphen_at (joiner_hyphen_to_space s) i) eqn:H;
    [exfalso|reflexivity].
  unfold joiner_hyphen_at in H. rewrite !joiner_nth in H.
  destruct i as [|j]; [rewrite andb_false_r in H; discriminate|].
  rewrite joiner_nth in H.
  destruct (joiner_hyphen_at s (S j)) eqn:H1; [discriminate|].
  destruct (joiner_hyphen_at s j) eqn:H0;
    [rewrite andb_false_r in H; discriminate|].
  destruct (joiner_hyphen_at s (S (S j))) eqn:H2;
    [rewrite andb_false_r in H; discriminate|].
  unfold joiner_hyphen_at in H1. rewrite H in H1. discriminate.
Qed.

(** X22.  No joiner hyphen is left: in the text
    [joiner_hyphen_to_space] writes, no hyphen stands between a digit and
    a character of the Devanagari block, so applying the rewrite again
    changes nothing; the rewrite being the last one in front of the
    classifier graph, this holds of the text the graph is given. *)
Theorem joiner_hyphen_to_space_leaves_none :
  forall NEMO_NOT_SPACE NEMO_ALPHA s,
    (forall i, joiner_hyphen_at (joiner_hyphen_to_space s) i = false)
    /\ joiner_hyphen_to_space (joiner_hyphen_to_space s)
       = joiner_hyphen_to_space s
    /\ (forall i,
          joiner_hyphen_at
            (pre_classification_rewrites NEMO_NOT_SPACE NEMO_ALPHA s) i
          = false).
Proof.
  intros NS ALPHA s. split; [apply joiner_leaves_none|]. split.
  - apply nth_error_ext. intros i.
    rewrite joiner_nth, joiner_leaves_none. reflexivity.
  - intros i. unfold pre_classification_rewrites. apply joiner_leaves_none.
Qed.

(* ================================================================== *)
(** * Properties of the test runner *)

Lemma insert_item_permutation : forall item l,
  Permutation (insert_item item l) (item :: l).
Proof.
  intros item. induction l as [|x r IH]; [reflexivity|].
  cbn [insert_item]. destruct (str_ltb (fst item) (fst x)); [reflexivity|].
  rewrite IH. apply perm_swap.
Qed.

Lemma sorted_items_permutation : forall test_cases,
  Permutation (sorted_items test_cases) test_cases.
Proof.
  induction test_cases as [|item l IH]; [reflexivity|].
  cbn [sorted_items fold_right]. fold (sorted_items l).
  rewrite insert_item_permutation, IH. reflexivity.
Qed.

Lemma run_inputs_counts : forall normalizer inputs passed errors,
  run_inputs normalizer inputs passed errors
  = ((passed + length (filter (fun t => negb (raises_on normalizer t)) inputs))%nat,
     (errors + length (filter (raises_on normalizer) inputs))%nat).
Proof.
  intros n. induction inputs as [|t inputs IH]; intros passed errors.
  - simpl. rewrite !Nat.add_0_r. reflexivity.
  - cbn [run_inputs filter].
    assert (Hr : raises_on n t
                 = match snd (normalize n t false false true) with
                   | Ok _ => false
                   | Raise _ => true
                   end) by reflexivity.
    destruct (snd (normalize n t false false true));
      cbv beta iota in Hr; rewrite Hr, IH;
      cbn [negb length]; f_equal; lia.
Qed.

Lemma run_categories_counts : forall normalizer items passed errors,
  run_categories normalizer items passed errors
  = ((passed
      + length (filter (fun t => negb (raises_on normalizer t))
                       (concat (map snd items))))%nat,
     (errors
      + length (filter (raises_on normalizer) (concat (map snd items))))%nat).
Proof.
  intros n. induction items as [|[category inputs] items IH];
    intros passed errors.
  - simpl. rewrite !Nat.add_0_r. reflexivity.
  - cbn [run_categories]. rewrite run_inputs_counts, IH.
    cbn [map concat snd]. rewrite !filter_app, !length_app.
    f_equal; lia.
Qed.

Lemma filter_length_permutation : forall (A : Type) (f : A -> bool) l l',
  Permutation l l' -> length (filter f l) = length (filter f l').
Proof.
  intros A f l l' H. induction H; simpl.
  - reflexivity.
  - destruct (f x); simpl; congruence.
  - destruct (f x), (f y); reflexivity.
  - congruence.
Qed.

Lemma filter_split_length : forall (A : Type) (f : A -> bool) l,
  (length (filter (fun x => negb (f x)) l) + length (filter f l))%nat
  = length l.
Proof.
  intros A f. induction l as [|x l IH]; [reflexivity|].
  simpl. destruct (f x); simpl; lia.
Qed.

Lemma total_tests_concat : forall test_cases,
  total_tests test_cases = length (concat (map snd test_cases)).
Proof.
  induction test_cases as [|[c inputs] l IH]; [reflexivity|].
  cbn [total_tests fold_right map concat snd]. fold (total_tests l).
  rewrite length_app, IH. reflexivity.
Qed.

(** X23.  What the test runner counts: every input is counted once, as
    passed when [normalize] returns and as an error when it raises,
    whatever the order of the categories; and the runner returns 0
    exactly when [normalize] raised on no input (1 also when the
    normalizer could not be built). *)
Theorem run_tests_counts_every_input : forall normalizer test_cases,
  (let '(passed, errors) :=
     run_categories normalizer (sorted_items test_cases) 0 0 in
   (passed + errors)%nat = total_tests test_cases
   /\ errors
      = length (filter (raises_on normalizer)
                       (concat (map snd test_cases))))
  /\ (run_tests (Some normalizer) test_cases = 0
      <-> Forall (fun test_input =>
                    exists output,
                      snd (normalize normalizer test_input false false true)
                      = Ok output)
                 (concat (map snd test_cases)))
  /\ (run_tests (Some normalizer) test_cases = 0
      \/ run_tests (Some normalizer) test_cases = 1)
  /\ run_tests None test_cases = 1.
Proof.
  intros n cases.
  assert (Hperm : Permutation (concat (map snd (sorted_items cases)))
                              (concat (map snd cases))).
  { apply Permutation_concat, Permutation_map, sorted_items_permutation. }
  assert (Herr : length (filter (raises_on n)
                                (concat (map snd (sorted_items cases))))
                 = length (filter (raises_on n) (concat (map snd cases)))).
  { apply filter_length_permutation. exact Hperm. }
  assert (Hzero : length (filter (raises_on n) (concat (map snd cases))) = 0%nat
                  <-> Forall (fun t => exists output,
                                snd (normalize n t false false true) = Ok output)
                             (concat (map snd cases))).
  { generalize (concat (map snd cases)) as l.
    induction l as [|t l IH]; [split; [constructor|reflexivity]|].
    cbn [filter].
    assert (Hr : raises_on n t
                 = match snd (normalize n t false false true) with
                   | Ok _ => false
                   | Raise _ => true
                   end) by reflexivity.
    destruct (snd (normalize n t false false true)) as [o|e] eqn:Ht;
      cbv beta iota in Hr; rewrite Hr.
    - rewrite IH. split.
      + intros H. constructor; [exists o; exact Ht|exact H].
      + intros H. apply (Forall_inv_tail H).
    - split; [discriminate|].
      intros H. apply Forall_inv in H. destruct H as (o & Ho).
      rewrite Ht in Ho. discriminate. }
  split; [|split; [|split]].
  - rewrite run_categories_counts. cbn [Nat.add]. split.
    + rewrite filter_split_length, total_tests_concat.
      apply Permutation_length. exact Hperm.
    + exact Herr.
  - unfold run_tests. rewrite run_categories_counts. cbn [Nat.add].
    rewrite Herr, <- Hzero.
    destruct (length (filter (raises_on n) (concat (map snd cases))));
      cbn; split; intros H; try reflexivity; try discriminate; lia.
  - unfold run_tests. rewrite run_categories_counts.
    destruct (0 <? _)%nat; [right|left]; reflexivity.
  - reflexivity.
Qed.
